(** * A colored Game of Life on a bounded grid: the engine of [src/game.js]

    The development embeds [Coordinates], [Cell] and [Grid] of [src/game.js]
    and proves properties of them.

    - JavaScript numbers are represented by [number]: a double is an integer,
      lies strictly between two consecutive integers, is [NaN] or is infinite.
      Integers are unbounded here; the grid's constructor enumerates every
      coordinate, so in-bounds coordinates are far below 2^53 and their
      arithmetic is exact.
    - [Cell] objects are mutable and compared by identity ([cellsChecked] is a
      [Set] of objects), so they live in a heap and are named by their index.
    - The grid's [Map] is an association list in insertion order, which is the
      order of [grid.values()].
    - An operation either returns, throws, or (for the loops, which are run
      with fuel) runs out of fuel.
    - The conversions of the package [color-space] that [tick] calls are an
      interface, [ColorSpace]; [package_space] renders the package itself,
      with real numbers for its doubles. *)

From Stdlib Require Import ZArith Lia Ascii String.
From Stdlib Require Import Rbase Rfunctions Rbasic_fun R_Ifp Rpower Lra.
From stdpp Require Import base tactics option list numbers strings pretty.

Local Open Scope Z_scope.

(** ** Numbers *)

Inductive number : Type :=
| Integer (z : Z)
| Fractional (below : Z) (numeral : string)
    (* strictly between [below] and [below + 1]; [numeral] is what
       [toString] prints for it *)
| NaN
| Infinity (negative : bool).

(** [Number.isInteger] *)
Definition Number_isInteger (n : number) : bool :=
  match n with Integer _ => true | _ => false end.

(** [n < 0] *)
Definition number_negative (n : number) : bool :=
  match n with
  | Integer z => z <? 0
  | Fractional below _ => below <? 0
  | NaN => false
  | Infinity negative => negative
  end.

Definition number_Z (n : number) : Z :=
  match n with Integer z => z | _ => 0 end.

(** [n >= 0 && n <= 255], evaluated in the source only after
    [Number.isInteger(n)] *)
Definition channel_ok (n : number) : bool :=
  match n with
  | Integer z => (0 <=? z) && (z <=? 255)
  | _ => false
  end.

(** ** Strings: [toString], [split], [parseInt] *)

(** [Number.prototype.toString] on an integer: its decimal numeral. This is
    what JavaScript prints for an integer below 10^21 in absolute value,
    as the coordinates of a grid and the channels of a color are; from
    10^21 on it prints an exponent form, which is not rendered here. *)
Definition Number_toString (z : Z) : string := pretty z.

(** [Number.prototype.toString] *)
Definition number_toString (n : number) : string :=
  match n with
  | Integer z => Number_toString z
  | Fractional _ numeral => numeral
  | NaN => "NaN"%string
  | Infinity negative => if negative then "-Infinity"%string else "Infinity"%string
  end.

Definition comma : ascii := ","%char.

(** [s.split(sep)] for a separator of one character *)
Fixpoint String_split (sep : ascii) (s : string) : list string :=
  match s with
  | EmptyString => [EmptyString]
  | String a s' =>
      if Ascii.eqb a sep then EmptyString :: String_split sep s'
      else match String_split sep s' with
           | h :: t => String a h :: t
           | [] => [String a EmptyString]
           end
  end.

Definition digit_value (a : ascii) : option N :=
  let n := N_of_ascii a in
  if ((48 <=? n) && (n <=? 57))%N then Some (n - 48)%N else None.

(** The longest prefix of decimal digits of [s], read in base ten after
    [acc]; the flag says whether a digit was read. *)
Fixpoint parse_digits (s : string) (acc : N) (seen : bool) : N * bool :=
  match s with
  | EmptyString => (acc, seen)
  | String a s' =>
      match digit_value a with
      | Some d => parse_digits s' (acc * 10 + d)%N true
      | None => (acc, seen)
      end
  end.

(** [parseInt(s)] on a string that carries no leading white space, no plus
    sign and no radix prefix, as the keys of the grid are: an optional minus
    sign, then the longest run of digits; [NaN] when there is no digit.
    [undefined] (a missing array element) is [None] and gives [NaN] too. *)
Definition parseInt (s : option string) : number :=
  match s with
  | None => NaN
  | Some (String "-"%char s') =>
      match parse_digits s' 0%N false with
      | (n, true) => Integer (- Z.of_N n)
      | (_, false) => NaN
      end
  | Some s =>
      match parse_digits s 0%N false with
      | (n, true) => Integer (Z.of_N n)
      | (_, false) => NaN
      end
  end.

(** ** Coordinates *)

Record Coordinates : Type := mkCoordinates { getX : Z; getY : Z }.

Global Instance Coordinates_eq_dec : EqDecision Coordinates.
Proof. solve_decision. Defined.

(** [new Coordinates(x, y)]: the two assertions, then the object. *)
Definition Coordinates_new (x y : number) : option Coordinates :=
  if Number_isInteger x then
    if Number_isInteger y then Some (mkCoordinates (number_Z x) (number_Z y))
    else None
  else None.

(** [Coordinates.prototype.addOffsets] *)
Fixpoint addOffsets (c : Coordinates) (offsets : list (Z * Z))
  : option (list Coordinates) :=
  match offsets with
  | [] => Some []
  | offset :: rest =>
      match Coordinates_new (Integer (getX c + offset.1))
                            (Integer (getY c + offset.2)) with
      | Some c' => option_map (cons c') (addOffsets c rest)
      | None => None
      end
  end.

(** [Coordinates.prototype.toString] *)
Definition toString (c : Coordinates) : string :=
  Number_toString (getX c) +:+ ","%string +:+ Number_toString (getY c).

(** ** Cell *)

(** A color is an array of numbers. [game.js] assigns and reads color
    arrays and never writes into one, so a color is held by value. *)
Definition Color : Type := list number.

Record Cell : Type := mkCell {
  getCoordinates : Coordinates;
  isAlive : bool;
  getColor : option Color
}.

(** [new Cell(coordinates)]: dead, no color. *)
Definition Cell_new (coordinates : Coordinates) : Cell :=
  mkCell coordinates false None.

(** The four assertions of [setColor]. *)
Definition valid_color (newColor : Color) : bool :=
  match newColor with
  | [r; g; b] =>
      (Number_isInteger r && channel_ok r) &&
      (Number_isInteger g && channel_ok g) &&
      (Number_isInteger b && channel_ok b)
  | _ => false
  end.

Definition Cell_setColor (newColor : Color) (c : Cell) : option Cell :=
  if valid_color newColor
  then Some (mkCell (getCoordinates c) (isAlive c) (Some newColor))
  else None.

(** [assert(color)]: an array is truthy, [null] is not. *)
Definition Cell_setAlive (c : Cell) : option Cell :=
  match getColor c with
  | Some color => Some (mkCell (getCoordinates c) true (Some color))
  | None => None
  end.

Definition Cell_setDead (c : Cell) : option Cell :=
  Some (mkCell (getCoordinates c) false None).

(** A call of one of the three mutators. *)
Inductive CellOp : Type :=
| OpSetColor (newColor : Color)
| OpSetAlive
| OpSetDead.

Definition Cell_apply (op : CellOp) (c : Cell) : option Cell :=
  match op with
  | OpSetColor newColor => Cell_setColor newColor c
  | OpSetAlive => Cell_setAlive c
  | OpSetDead => Cell_setDead c
  end.

(** A sequence of calls on one cell. A call whose assertion fails throws
    before it assigns anything, so it leaves the cell as it was. *)
Fixpoint Cell_run (ops : list CellOp) (c : Cell) : Cell :=
  match ops with
  | [] => c
  | op :: rest =>
      match Cell_apply op c with
      | Some c' => Cell_run rest c'
      | None => Cell_run rest c
      end
  end.

(** The last call of [ops] that did not throw, when run from [c]. *)
Fixpoint last_applied (ops : list CellOp) (c : Cell) (last : option CellOp)
  : option CellOp :=
  match ops with
  | [] => last
  | op :: rest =>
      match Cell_apply op c with
      | Some c' => last_applied rest c' (Some op)
      | None => last_applied rest c last
      end
  end.

(** ** The color-space package

    [tick] calls [space.rgb.lab] and [space.lab.rgb] of the [color-space]
    package and [Math.round]; they work on doubles and are not part of this
    repository. They are taken as an interface; [flt] stands for the doubles
    they compute with. *)

Class ColorSpace : Type := {
  flt : Type;
  flt_add : flt -> flt -> flt;              (* [a + b] *)
  flt_div : flt -> flt -> flt;              (* [a / b] *)
  flt_of_Z : Z -> flt;                      (* an integer literal *)
  rgb_lab : Color -> flt * flt * flt;       (* [space.rgb.lab] *)
  lab_rgb : flt * flt * flt -> list flt;    (* [space.lab.rgb] *)
  Math_round : flt -> number
}.

(** What [setColor] needs of the package: a converted and rounded color is
    three integers in [0, 255]. *)
Definition rgb_in_range (CS : ColorSpace) : Prop :=
  forall lab, valid_color (map Math_round (lab_rgb lab)) = true.

(** ** The world: the heap of cells, one grid, and the random source *)

Record World : Type := mkWorld {
  maxX : Z;                        (* [getMaxX()] *)
  maxY : Z;                        (* [getMaxY()] *)
  heap : list Cell;                (* every [Cell] constructed so far *)
  grid : list (string * nat);      (* the [Map], in insertion order *)
  random : nat -> nat              (* the draws [Math.random] is yet to make *)
}.

Inductive outcome (A : Type) : Type :=
| Ok (a : A) (w : World)
| Throw            (* an assertion failed (or a [TypeError] was raised) *)
| OutOfFuel.
Arguments Ok {A} a w.
Arguments Throw {A}.
Arguments OutOfFuel {A}.

Definition M (A : Type) : Type := World -> outcome A.

Definition ret {A} (a : A) : M A := fun w => Ok a w.

Definition bind {A B} (m : M A) (f : A -> M B) : M B :=
  fun w =>
    match m w with
    | Ok a w' => f a w'
    | Throw => Throw
    | OutOfFuel => OutOfFuel
    end.

Notation "x <- m ;; k" := (bind m (fun x => k))
  (at level 100, m at next level, right associativity).
Notation "m ;;; k" := (bind m (fun _ => k))
  (at level 100, right associativity).

Definition assert (b : bool) : M unit :=
  fun w => if b then Ok tt w else Throw.

Definition gets {A} (f : World -> A) : M A := fun w => Ok (f w) w.

Fixpoint mapM {A B} (f : A -> M B) (l : list A) : M (list B) :=
  match l with
  | [] => ret []
  | a :: l' => b <- f a ;; bs <- mapM f l' ;; ret (b :: bs)
  end.

(** [l.forEach(f)] *)
Fixpoint forEach {A} (f : A -> M unit) (l : list A) : M unit :=
  match l with
  | [] => ret tt
  | a :: l' => f a ;;; forEach f l'
  end.

(** *** Cell objects on the heap *)

(** Reading through a reference. References come from [alloc] only, so the
    failing branch is never taken from a well-formed world. *)
Definition deref (cell : nat) : M Cell :=
  fun w => match heap w !! cell with Some c => Ok c w | None => Throw end.

Definition alloc (c : Cell) : M nat :=
  fun w => Ok (length (heap w))
              (mkWorld (maxX w) (maxY w) (heap w ++ [c]) (grid w) (random w)).

Definition store (cell : nat) (c : Cell) : M unit :=
  fun w => Ok tt (mkWorld (maxX w) (maxY w) (<[cell := c]> (heap w))
                          (grid w) (random w)).

(** A method of [Cell] called on an object of the heap. *)
Definition method (f : Cell -> option Cell) (cell : nat) : M unit :=
  c <- deref cell ;;
  match f c with
  | Some c' => store cell c'
  | None => fun _ => Throw
  end.

Definition setColor (newColor : Color) : nat -> M unit := method (Cell_setColor newColor).
Definition setAlive : nat -> M unit := method Cell_setAlive.
Definition setDead : nat -> M unit := method Cell_setDead.

(** *** The [Map] *)

Fixpoint Map_get (key : string) (m : list (string * nat)) : option nat :=
  match m with
  | [] => None
  | (k, v) :: m' => if decide (k = key) then Some v else Map_get key m'
  end.

(** [Map.prototype.set]: an existing key keeps its place. *)
Fixpoint Map_set (key : string) (v : nat) (m : list (string * nat))
  : list (string * nat) :=
  match m with
  | [] => [(key, v)]
  | (k, v') :: m' =>
      if decide (k = key) then (k, v) :: m' else (k, v') :: Map_set key v m'
  end.

(** [Array.from(m.values())] *)
Definition Map_values (m : list (string * nat)) : list nat := map snd m.

(** ** Grid *)

Definition in_bounds (w : World) (c : Coordinates) : bool :=
  (0 <=? getX c) && (getX c <=? maxX w) && (0 <=? getY c) && (getY c <=? maxY w).

(** [new Grid(maxX, maxY)], with no cell constructed before it. *)
Definition Grid_new (mx my : number) (rnd : nat -> nat) : option World :=
  if Number_isInteger mx then
    if Number_isInteger my
    then Some (mkWorld (number_Z mx) (number_Z my) [] [] rnd)
    else None
  else None.

(** [Grid.setCell] *)
Definition setCell (cell : nat) : M nat :=
  c <- deref cell ;;
  mx <- gets maxX ;;
  my <- gets maxY ;;
  assert (0 <=? getX (getCoordinates c)) ;;;
  assert (getX (getCoordinates c) <=? mx) ;;;
  assert (0 <=? getY (getCoordinates c)) ;;;
  assert (getY (getCoordinates c) <=? my) ;;;
  (fun w => Ok cell (mkWorld (maxX w) (maxY w) (heap w)
                       (Map_set (toString (getCoordinates c)) cell (grid w))
                       (random w))).

(** [Grid.getCell] *)
Definition getCell (coordinates : Coordinates) : M nat :=
  mx <- gets maxX ;;
  my <- gets maxY ;;
  assert ((0 <=? getX coordinates) && (getX coordinates <=? mx)) ;;;
  assert ((0 <=? getY coordinates) && (getY coordinates <=? my)) ;;;
  g <- gets grid ;;
  match Map_get (toString coordinates) g with
  | Some cell => ret cell
  | None => cell <- alloc (Cell_new coordinates) ;; setCell cell
  end.

Definition neighbor_offsets : list (Z * Z) :=
  [(-1, -1); (0, -1); (1, -1); (-1, 0); (1, 0); (-1, 1); (0, 1); (1, 1)].

Definition lift {A} (o : option A) : M A :=
  fun w => match o with Some a => Ok a w | None => Throw end.

(** [Grid.prototype.neighbors] *)
Definition neighbors (cell : nat) : M (list nat) :=
  c <- deref cell ;;
  cs <- lift (addOffsets (getCoordinates c) neighbor_offsets) ;;
  w <- gets id ;;
  mapM getCell (filter (fun coordinates => in_bounds w coordinates = true) cs).

(** [cells.filter(cell => cell.isAlive())] *)
Fixpoint filterAlive (cells : list nat) : M (list nat) :=
  match cells with
  | [] => ret []
  | cell :: rest =>
      c <- deref cell ;;
      live <- filterAlive rest ;;
      ret (if isAlive c then cell :: live else live)
  end.

(** [cells.filter(cell => !cell.isAlive())] *)
Fixpoint filterDead (cells : list nat) : M (list nat) :=
  match cells with
  | [] => ret []
  | cell :: rest =>
      c <- deref cell ;;
      dead <- filterDead rest ;;
      ret (if isAlive c then dead else cell :: dead)
  end.

(** [array.pop()]: the last element and the array without it. *)
Definition Array_pop {A} (l : list A) : option (A * list A) :=
  match reverse l with
  | [] => None
  | a :: l' => Some (a, reverse l')
  end.

(** The color of [liveNeighbors[i]], handed to [space.rgb.lab]; a missing
    color raises a [TypeError] there. *)
Definition colorOf (cell : nat) : M Color :=
  c <- deref cell ;; lift (getColor c).

(** Whether the object [cell] is a live cell. *)
Definition alive_ref (w : World) (cell : nat) : bool :=
  match heap w !! cell with Some c => isAlive c | None => false end.

(** The live cells of the grid, in the order of the map: the initial
    [cellsToCheck] of [tick]. *)
Definition live_cells (w : World) : list nat :=
  filter (fun cell => alive_ref w cell = true) (Map_values (grid w)).

(** Ten iterations per live cell and one to see the empty array. *)
Definition enough_fuel (w : World) : nat := 10 * length (live_cells w) + 1.

Section Tick.
Context {CS : ColorSpace}.

Definition average (a b c : flt) : flt :=
  flt_div (flt_add (flt_add a b) c) (flt_of_Z 3).

(** The color of a revived cell, from the colors of its three live
    neighbors, in the order of [liveNeighbors]. *)
Definition blend (c0 c1 c2 : Color) : Color :=
  let '(l0, a0, b0) := rgb_lab c0 in
  let '(l1, a1, b1) := rgb_lab c1 in
  let '(l2, a2, b2) := rgb_lab c2 in
  map Math_round
      (lab_rgb (average l0 l1 l2, average a0 a1 a2, average b0 b1 b2)).

(** The body of the [while] loop for a cell that was not checked before:
    the new [cellsToSwitch] and the cells to add to [cellsToCheck]. *)
Definition check (cell : nat) (cellsToSwitch : list nat)
  : M (list nat * list nat) :=
  nbs <- neighbors cell ;;
  liveNeighbors <- filterAlive nbs ;;
  c <- deref cell ;;
  let n := length liveNeighbors in
  cellsToSwitch' <-
    (if isAlive c && ((n <? 2)%nat || (3 <? n)%nat)
     then ret (cellsToSwitch ++ [cell])
     else if negb (isAlive c) && (n =? 3)%nat
     then match liveNeighbors with
          | n0 :: n1 :: n2 :: _ =>
              c0 <- colorOf n0 ;;
              c1 <- colorOf n1 ;;
              c2 <- colorOf n2 ;;
              setColor (blend c0 c1 c2) cell ;;;
              ret (cellsToSwitch ++ [cell])
          | _ => fun _ => Throw
          end
     else ret cellsToSwitch) ;;
  ret (cellsToSwitch', if isAlive c then nbs else []).

(** The [while] loop of [tick]; it returns [cellsChecked] and
    [cellsToSwitch] as the loop leaves them. *)
Fixpoint tick_loop (fuel : nat) (cellsChecked cellsToSwitch cellsToCheck : list nat)
  : M (list nat * list nat) :=
  match fuel with
  | O => fun _ => OutOfFuel
  | S fuel' =>
      match Array_pop cellsToCheck with
      | None => ret (cellsChecked, cellsToSwitch)
      | Some (cell, cellsToCheck') =>
          if decide (cell ∈ cellsChecked)
          then tick_loop fuel' cellsChecked cellsToSwitch cellsToCheck'
          else
            r <- check cell cellsToSwitch ;;
            tick_loop fuel' (cell :: cellsChecked) r.1 (cellsToCheck' ++ r.2)
      end
  end.

(** The callback of [cellsToSwitch.forEach]. *)
Definition switch (cell : nat) : M unit :=
  c <- deref cell ;;
  if isAlive c then setDead cell else setAlive cell.

(** [Grid.tick], with the fuel of its loop. *)
Definition tick_fuel (fuel : nat) : M unit :=
  g <- gets grid ;;
  cellsToCheck <- filterAlive (Map_values g) ;;
  r <- tick_loop fuel [] [] cellsToCheck ;;
  forEach switch r.2.

(** [Grid.tick]. Every live cell is checked once and brings at most eight
    neighbors, so [enough_fuel] is enough for the loop, and more fuel
    changes nothing ([tick_fuel_enough]). *)
Definition tick : M unit := fun w => tick_fuel (enough_fuel w) w.
End Tick.

(** *** Serialization *)

(** [s.slice(-2)] *)
Definition slice_last2 (s : string) : string :=
  substring (String.length s - 2) 2 s.

(** [("0" + n.toString()).slice(-2)] *)
Definition two_digits (n : Z) : string :=
  slice_last2 ("0" +:+ Number_toString n).

(** [array.join(sep)] *)
Definition join (sep : string) (parts : list string) : string :=
  String.concat sep parts.

(** One live cell of [serialize]: [x,y,r,g,b]. Joining a [null] color raises
    a [TypeError]. *)
Definition segment (cell : nat) : M string :=
  c <- deref cell ;;
  color <- lift (getColor c) ;;
  ret (join "," [Number_toString (getX (getCoordinates c));
                 Number_toString (getY (getCoordinates c));
                 join "," (map number_toString color)]).

(** [Grid.serialize]. The three [new Date()] read the clock; [hours],
    [minutes] and [seconds] are what [getHours()], [getMinutes()] and
    [getSeconds()] return for them. *)
Definition serialize (hours minutes seconds : Z) : M string :=
  let date := join "" [two_digits hours; two_digits minutes; two_digits seconds] in
  g <- gets grid ;;
  live <- filterAlive (Map_values g) ;;
  segments <- mapM segment live ;;
  let cells := join "|" segments in
  ret (if (0 <? String.length cells)%nat then join "|" [date; cells] else date).

(** *** Patterns at random places *)

(** [set.add(key)] and [set.delete(key)] on a [Set] of strings, kept in
    insertion order. *)
Definition Set_add (key : string) (s : list string) : list string :=
  if decide (key ∈ s) then s else s ++ [key].

Definition Set_delete (key : string) (s : list string) : list string :=
  filter (fun k => k ≠ key) s.

(** The inner [for] loop of [allCoordinates]: [x] runs over [xs]. *)
Definition allCoordinates_row (xs : list Z) (y : Z) (set : list string)
  : list string :=
  foldl (fun set x => Set_add (toString (mkCoordinates x y)) set) set xs.

(** [allCoordinates], which the constructor builds from [maxX] and [maxY]
    and nothing changes afterwards. *)
Definition allCoordinates (w : World) : list string :=
  foldl (fun set y => allCoordinates_row (seqZ 0 (maxX w + 1)) y set)
        [] (seqZ 0 (maxY w + 1)).

(** [getAllDeadCells] *)
Definition getAllDeadCells : M (list nat) :=
  w <- gets id ;;
  g <- gets grid ;;
  cells <- mapM deref (Map_values g) ;;
  let deadCoordinates :=
    foldl (fun set c =>
             if isAlive c then Set_delete (toString (getCoordinates c)) set
             else set)
          (allCoordinates w) cells in
  mapM (fun s =>
          let parts := String_split comma s in
          coordinates <- lift (Coordinates_new (parseInt (parts !! 0%nat))
                                               (parseInt (parts !! 1%nat))) ;;
          getCell coordinates)
       deadCoordinates.

(** [Math.floor(Math.random() * length)]: an index below [length], taken
    from the next draw. *)
Definition random_index (len : nat) : M nat :=
  fun w =>
    Ok (match len with O => O | S _ => random w O mod len end)%nat
       (mkWorld (maxX w) (maxY w) (heap w) (grid w) (fun n => random w (S n))).

(** [randomPop]: the element drawn ([undefined] from an empty array) and the
    array after [splice(index, 1)]. *)
Definition randomPop {A} (array : list A) : M (option A * list A) :=
  index <- random_index (length array) ;;
  ret (array !! index, delete index array).

(** [filterValidVariations] *)
Definition filterValidVariations (cell : nat) (variations : list (list (Z * Z)))
  : M (list (list nat)) :=
  cellss <-
    mapM (fun variation =>
            c <- deref cell ;;
            cs <- lift (addOffsets (getCoordinates c) variation) ;;
            mapM getCell cs)
         variations ;;
  kept <-
    mapM (fun variation =>
            dead <- filterDead variation ;;
            ret (if (length dead =? length variation)%nat
                 then [variation] else []))
         cellss ;;
  ret (concat kept).

(** The [while] loop of [tryInstantiatePattern]; it returns [cellsToSet]. *)
Fixpoint place_loop (fuel : nat) (deadCells : list nat)
    (variations : list (list (Z * Z))) : M (option (list nat)) :=
  match fuel with
  | O => fun _ => OutOfFuel
  | S fuel' =>
      if (0 <? length deadCells)%nat then
        p <- randomPop deadCells ;;
        cell <- lift p.1 ;;
        validVariations <- filterValidVariations cell variations ;;
        if (0 <? length validVariations)%nat
        then q <- randomPop validVariations ;; ret q.1
        else place_loop fuel' p.2 variations
      else ret None
  end.

(** [tryInstantiatePattern]. Every iteration removes one candidate, so the
    loop is given one unit of fuel per candidate and one to see the empty
    array. *)
Definition tryInstantiatePattern (deadCells : list nat)
    (variations : list (list (Z * Z))) (color : Color) : M unit :=
  cellsToSet <- place_loop (S (length deadCells)) deadCells variations ;;
  match cellsToSet with
  | Some cells => forEach (fun cell => setColor color cell ;;; setAlive cell) cells
  | None => ret tt
  end.

(** [cells.filter(keep)] where [keep] reads the cell's coordinates. *)
Fixpoint filterCells (keep : Coordinates -> bool) (cells : list nat)
  : M (list nat) :=
  match cells with
  | [] => ret []
  | cell :: rest =>
      c <- deref cell ;;
      kept <- filterCells keep rest ;;
      ret (if keep (getCoordinates c) then cell :: kept else kept)
  end.

Definition block_center (w : World) (c : Coordinates) : bool :=
  (getX c <? maxX w) && (getY c <? maxY w).

Definition inner_center (w : World) (c : Coordinates) : bool :=
  (0 <? getX c) && (getX c <? maxX w) && (0 <? getY c) && (getY c <? maxY w).

Definition block_variations : list (list (Z * Z)) :=
  [[(0, 0); (1, 0); (0, 1); (1, 1)]].

Definition blinker_variations : list (list (Z * Z)) :=
  [[(-1, 0); (0, 0); (1, 0)];
   [(0, -1); (0, 0); (0, 1)]].

Definition glider_variations : list (list (Z * Z)) :=
  [[(0, -1); (1, 0); (-1, 1); (0, 1); (1, 1)];
   [(-1, -1); (1, -1); (0, 0); (1, 0); (0, 1)];
   [(-1, 0); (0, 1); (1, 1); (1, 0); (1, -1)];
   [(-1, -1); (0, 0); (1, 0); (-1, 1); (0, 1)]].

(** The three generators share their shape: the eligible dead cells, then
    [tryInstantiatePattern]. *)
Definition tryGenerate (center : World -> Coordinates -> bool)
    (variations : list (list (Z * Z))) (color : Color) : M unit :=
  dead <- getAllDeadCells ;;
  w <- gets id ;;
  deadCells <- filterCells (center w) dead ;;
  tryInstantiatePattern deadCells variations color.

Definition tryGenerateBlock : Color -> M unit :=
  tryGenerate block_center block_variations.

Definition tryGenerateBlinker : Color -> M unit :=
  tryGenerate inner_center blinker_variations.

Definition tryGenerateGlider : Color -> M unit :=
  tryGenerate inner_center glider_variations.

(** ** Running examples *)

(** An exact stand-in for the color-space package, for evaluating [tick] on
    concrete grids: the perceptual space is RGB itself, doubles are
    integers, and [lab_rgb] clamps as a conversion to RGB does. *)
Definition clamp (z : Z) : Z := Z.min (Z.max 0 z) 255.

Definition exact_space : ColorSpace := {|
  flt := Z;
  flt_add := Z.add;
  flt_div := Z.div;
  flt_of_Z := fun z => z;
  rgb_lab := fun color =>
    (number_Z (default NaN (color !! 0%nat)),
     number_Z (default NaN (color !! 1%nat)),
     number_Z (default NaN (color !! 2%nat)));
  lab_rgb := fun '(l, a, b) => [clamp l; clamp a; clamp b];
  Math_round := Integer
|}.

(** * Specification vocabulary *)

(** ** Coordinates and cells *)

(** The reading of the constructor's contract that rejects negative
    arguments as well as non-integral ones. *)
Definition rejects_negative_or_fractional (x y : number) : Prop :=
  Coordinates_new x y = None <->
  (number_negative x = true \/ number_negative y = true \/
   Number_isInteger x = false \/ Number_isInteger y = false).

Definition has_valid_color (c : Cell) : Prop :=
  exists color, getColor c = Some color /\ valid_color color = true.

(** The invariant as the data model words it: alive cells are colored,
    dead cells are not. *)
Definition alive_iff_colored (c : Cell) : Prop :=
  (isAlive c = true -> has_valid_color c) /\
  (isAlive c = false -> getColor c = None).

(** The color of a dead cell whose last call that did not throw is [last]:
    the color given to [setColor], a valid one, when that call was
    [setColor], and no color otherwise. *)
Definition dead_color (c : Cell) (last : option CellOp) : Prop :=
  match last with
  | Some (OpSetColor newColor) =>
      getColor c = Some newColor /\ valid_color newColor = true
  | _ => getColor c = None
  end.

(** What the three mutators maintain: a dead cell may hold a color, and does
    so exactly between a [setColor] and the next [setAlive] or [setDead]. *)
Definition Cell_inv (c : Cell) (last : option CellOp) : Prop :=
  (isAlive c = true -> has_valid_color c) /\
  (isAlive c = false -> dead_color c last).

(** The character [a] does not occur in [s]. *)
Fixpoint lacks (a : ascii) (s : string) : bool :=
  match s with
  | EmptyString => true
  | String b s' => negb (Ascii.eqb b a) && lacks a s'
  end.

(** [a] is neither a decimal digit nor the minus sign. *)
Definition not_numeral_char (a : ascii) : bool :=
  negb (Ascii.eqb "-" a) &&
  forallb (fun d => negb (Ascii.eqb (pretty_N_char d) a))
          [0; 1; 2; 3; 4; 5; 6; 7; 8; 9]%N.

Definition pipe : ascii := "|"%char.

(** ** Worlds *)

(** The grid owns [cell] under the key of [c]. *)
Definition owns (w : World) (c : Coordinates) (cell : nat) : Prop :=
  Map_get (toString c) (grid w) = Some cell.

(** The cell object the grid holds for [c], if it was materialized. *)
Definition cellAt (w : World) (c : Coordinates) : option Cell :=
  match Map_get (toString c) (grid w) with
  | Some cell => heap w !! cell
  | None => None
  end.

(** A position never touched is a dead cell with no color. *)
Definition aliveAt (w : World) (c : Coordinates) : bool :=
  match cellAt w c with Some cell => isAlive cell | None => false end.

Definition colorAt (w : World) (c : Coordinates) : option Color :=
  match cellAt w c with Some cell => getColor cell | None => None end.

Definition offset_by (c : Coordinates) (o : Z * Z) : Coordinates :=
  mkCoordinates (getX c + o.1) (getY c + o.2).

(** The Moore neighborhood of [c], clipped to the grid. *)
Definition moore (w : World) (c : Coordinates) : list Coordinates :=
  filter (fun n => in_bounds w n = true) (map (offset_by c) neighbor_offsets).

Definition liveNeighborsAt (w : World) (c : Coordinates) : list Coordinates :=
  filter (fun n => aliveAt w n = true) (moore w c).

Definition liveCount (w : World) (c : Coordinates) : nat :=
  length (liveNeighborsAt w c).

(** Well-formed worlds: what the constructors and methods of [Cell] and
    [Grid] maintain. Keys are those of the cells stored under them, stored
    cells lie within the bounds, and a live cell has a valid color. *)
Record wf (w : World) : Prop := mk_wf {
  wf_keys : NoDup (grid w).*1;
  wf_entry : forall k cell, (k, cell) ∈ grid w ->
    exists c, heap w !! cell = Some c /\
              toString (getCoordinates c) = k /\
              in_bounds w (getCoordinates c) = true;
  wf_alive : forall cell c, heap w !! cell = Some c ->
    isAlive c = true -> has_valid_color c
}.

(** [w'] is [w] after cells were materialized: new dead, colorless objects
    at the end of the heap, new entries at the end of the map. *)
Record grows (w w' : World) : Prop := mk_grows {
  gr_maxX : maxX w' = maxX w;
  gr_maxY : maxY w' = maxY w;
  gr_heap : exists new, heap w' = heap w ++ new /\
              Forall (fun c => isAlive c = false /\ getColor c = None) new;
  gr_grid : exists entries, grid w' = grid w ++ entries /\
              Forall (fun kr => (length (heap w) <= kr.2)%nat) entries
}.

(** [w] after [getCell] materialized the position [c]. *)
Definition materialize (w : World) (c : Coordinates) : World :=
  mkWorld (maxX w) (maxY w) (heap w ++ [Cell_new c])
          (grid w ++ [(toString c, length (heap w))]) (random w).

(** [w] after the object [cell] was assigned the state [x]. *)
Definition update (w : World) (cell : nat) (x : Cell) : World :=
  mkWorld (maxX w) (maxY w) (<[cell := x]> (heap w)) (grid w) (random w).

(** ** The classical rule, from the pre-tick snapshot *)

(** A live cell with two or three live neighbors lives on; a dead cell with
    exactly three is born. *)
Definition rule (alive : bool) (n : nat) : bool :=
  if alive then (n =? 2)%nat || (n =? 3)%nat else (n =? 3)%nat.

(** A cell changes state: a death or a birth. *)
Definition flips (w : World) (c : Coordinates) : bool :=
  xorb (aliveAt w c) (rule (aliveAt w c) (liveCount w c)).

Section Classical.
Context {CS : ColorSpace}.

(** The color a cell born at [c] takes from its live neighbors. *)
Definition birth_color (w : World) (c : Coordinates) : option Color :=
  match liveNeighborsAt w c with
  | n0 :: n1 :: n2 :: _ =>
      match colorAt w n0, colorAt w n1, colorAt w n2 with
      | Some c0, Some c1, Some c2 => Some (blend c0 c1 c2)
      | _, _, _ => None
      end
  | _ => None
  end.

(** The naive transition: every position of the grid is evaluated against
    the rule on the pre-tick world [w]; the result is its state (alive,
    color) in the next generation. *)
Definition classical_tick (w : World) (c : Coordinates) : bool * option Color :=
  let n := liveCount w c in
  if aliveAt w c then
    if rule true n then (true, colorAt w c) else (false, None)
  else
    if rule false n then (true, birth_color w c) else (false, colorAt w c).

(** Every color that [tick] is to give to a cell it revives passes the
    assertions of [setColor]. *)
Definition births_valid (w : World) : Prop :=
  forall c color,
    in_bounds w c = true -> aliveAt w c = false -> liveCount w c = 3%nat ->
    birth_color w c = Some color -> valid_color color = true.
End Classical.

(** The observable state of a position: alive or dead, and the color. *)
Definition snapshot (w : World) (c : Coordinates) : bool * option Color :=
  (aliveAt w c, colorAt w c).

(** ** The loop of [tick] *)


(** The cell a reference stood for before the tick: the object itself, or,
    for an object materialized during the tick, a new cell. *)
Definition original (w0 : World) (cell : nat) (x : Cell) : Cell :=
  default (Cell_new (getCoordinates x)) (heap w0 !! cell).

Section TickInvariant.
Context {CS : ColorSpace}.

(** During the loop the heap is the pre-tick heap, extended with new dead
    cells, in which the dead cells listed for a switch hold the color they
    are born with. *)
Record tick_heap (w0 w : World) (cellsToSwitch : list nat) : Prop := mk_tick_heap {
  th_length : (length (heap w0) <= length (heap w))%nat;
  th_cell : forall cell x, heap w !! cell = Some x ->
    getCoordinates x = getCoordinates (original w0 cell x) /\
    isAlive x = isAlive (original w0 cell x) /\
    getColor x =
      if decide (cell ∈ cellsToSwitch /\ isAlive x = false)
      then birth_color w0 (getCoordinates x)
      else getColor (original w0 cell x)
}.

(** The invariant of the [while] loop, over the pre-tick world [w0]. *)
Record tick_inv (w0 w : World)
    (cellsChecked cellsToSwitch cellsToCheck : list nat) : Prop := mk_tick_inv {
  ti_wf : wf w;
  ti_maxX : maxX w = maxX w0;
  ti_maxY : maxY w = maxY w0;
  ti_grid : exists entries, grid w = grid w0 ++ entries /\
              Forall (fun kr => (length (heap w0) <= kr.2)%nat) entries;
  ti_heap : tick_heap w0 w cellsToSwitch;
  ti_owned : forall cell, cell ∈ cellsChecked ++ cellsToCheck ->
               exists c, owns w c cell;
  ti_switch : forall cell c, cell ∈ cellsChecked -> owns w c cell ->
                (cell ∈ cellsToSwitch <-> flips w0 c = true);
  ti_switch_checked : cellsToSwitch ⊆ cellsChecked;
  ti_switch_nodup : NoDup cellsToSwitch;
  ti_checked_nodup : NoDup cellsChecked;
  ti_live : forall c cell, owns w c cell -> aliveAt w0 c = true ->
              cell ∈ cellsChecked \/ cell ∈ cellsToCheck;
  ti_frontier : forall c cell n,
    cell ∈ cellsChecked -> owns w c cell -> aliveAt w0 c = true ->
    n ∈ moore w0 c ->
    exists cell', owns w n cell' /\ (cell' ∈ cellsChecked \/ cell' ∈ cellsToCheck);
  ti_near : forall cell c, cell ∈ cellsChecked ++ cellsToCheck -> owns w c cell ->
              aliveAt w0 c = true \/ (0 < liveCount w0 c)%nat
}.

(** The loop of [tick] for any order of visiting: [pick] takes the next
    cell out of [cellsToCheck]. The loop of the source is the one that pops
    the last element. *)
Fixpoint tick_loop_any (pick : list nat -> option (nat * list nat))
    (fuel : nat) (cellsChecked cellsToSwitch cellsToCheck : list nat)
  : M (list nat * list nat) :=
  match fuel with
  | O => fun _ => OutOfFuel
  | S fuel' =>
      match pick cellsToCheck with
      | None => ret (cellsChecked, cellsToSwitch)
      | Some (cell, cellsToCheck') =>
          if decide (cell ∈ cellsChecked)
          then tick_loop_any pick fuel' cellsChecked cellsToSwitch cellsToCheck'
          else
            r <- check cell cellsToSwitch ;;
            tick_loop_any pick fuel' (cell :: cellsChecked) r.1 (cellsToCheck' ++ r.2)
      end
  end.

(** The cells checked so far that are to be revived were given a valid
    color. *)
Definition checked_births_valid (w0 w : World) (cellsChecked : list nat) : Prop :=
  forall c cell,
    cell ∈ cellsChecked -> owns w c cell ->
    aliveAt w0 c = false -> liveCount w0 c = 3%nat ->
    exists color, birth_color w0 c = Some color /\ valid_color color = true.

(** [pick] takes exactly one element out of a non-empty list. *)
Definition takes_one (pick : list nat -> option (nat * list nat)) : Prop :=
  forall l, match pick l with
            | Some (cell, rest) => l ≡ₚ cell :: rest
            | None => l = []
            end.
End TickInvariant.

(** A cell after the callback of [cellsToSwitch.forEach] ran on it. *)
Definition switched (x : Cell) : Cell :=
  if isAlive x then mkCell (getCoordinates x) false None
  else mkCell (getCoordinates x) true (getColor x).

(** The cells of [live] that the loop has yet to check. *)
Definition unchecked (live cellsChecked : list nat) : list nat :=
  filter (fun cell => cell ∉ cellsChecked) live.

(** ** Placing a pattern *)

(** Every cell of the variation, placed around [c], is dead. *)
Definition fits (w : World) (c : Coordinates) (variation : list (Z * Z)) : Prop :=
  Forall (fun o => aliveAt w (offset_by c o) = false) variation.

(** A candidate center: a dead cell that the pattern's filter keeps. *)
Definition eligible (center : World -> Coordinates -> bool)
    (w : World) (c : Coordinates) : Prop :=
  in_bounds w c = true /\ center w c = true /\ aliveAt w c = false.

(** [w'] is [w] with the cells of the variation around [c] alive and of
    the given color, and every other position as it was. *)
Definition placed (w w' : World) (c : Coordinates) (variation : list (Z * Z))
    (color : Color) : Prop :=
  forall n, snapshot w' n =
            if decide (n ∈ map (offset_by c) variation)
            then (true, Some color) else snapshot w n.

(** The filter of a pattern keeps only centers around which every
    variation stays within the bounds. *)
Definition center_safe (center : World -> Coordinates -> bool)
    (variations : list (list (Z * Z))) : Prop :=
  forall w c, in_bounds w c = true -> center w c = true ->
    forall v, v ∈ variations ->
      Forall (fun o => in_bounds w (offset_by c o) = true) v.

(** The world after [Math.random] was called once. *)
Definition drawn (w : World) : World :=
  mkWorld (maxX w) (maxY w) (heap w) (grid w) (fun n => random w (S n)).

(** A cell after [setColor(color).setAlive()]. *)
Definition painted (color : Color) (x : Cell) : Cell :=
  mkCell (getCoordinates x) true (Some color).

(** The filter of a pattern looks at the bounds of the grid only. *)
Definition center_of_bounds (center : World -> Coordinates -> bool) : Prop :=
  forall w w' c, maxX w' = maxX w -> maxY w' = maxY w -> center w' c = center w c.

(** The three patterns of the grid. *)
Inductive Pattern : Type := Block | Blinker | Glider.

Definition center_of (p : Pattern) : World -> Coordinates -> bool :=
  match p with Block => block_center | Blinker | Glider => inner_center end.

Definition variations_of (p : Pattern) : list (list (Z * Z)) :=
  match p with
  | Block => block_variations
  | Blinker => blinker_variations
  | Glider => glider_variations
  end.

Definition tryGeneratePattern (p : Pattern) : Color -> M unit :=
  match p with
  | Block => tryGenerateBlock
  | Blinker => tryGenerateBlinker
  | Glider => tryGenerateGlider
  end.

(** Some variation of the pattern fits around some candidate center. *)
Definition placeable (p : Pattern) (w : World) : Prop :=
  exists c v, eligible (center_of p) w c /\ v ∈ variations_of p /\ fits w c v.

(** Nothing was placed: every position is in the state it was in. *)
Definition nothing_placed (w w' : World) : Prop :=
  forall n, snapshot w' n = snapshot w n.

(** ** The wire format *)

Definition digit_char (d : Z) : ascii := ascii_of_N (48 + Z.to_N d).

(** A number below one hundred, zero-padded to two digits. *)
Definition zero_padded (n : Z) : string :=
  String (digit_char (n / 10)) (String (digit_char (n mod 10)) EmptyString).

(** [HHMMSS] *)
Definition timestamp (hours minutes seconds : Z) : string :=
  zero_padded hours +:+ zero_padded minutes +:+ zero_padded seconds.

(** [x,y,r,g,b], each an unpadded decimal numeral. *)
Definition segment_of (x y r g b : Z) : string :=
  String.concat "," [pretty x; pretty y; pretty r; pretty g; pretty b].

(** [HHMMSS|x1,y1,r1,g1,b1|x2,y2,r2,g2,b2|...] *)
Definition wire (date : string) (segments : list string) : string :=
  String.concat "|" (date :: segments).

(** The segment of a live cell object. *)
Definition segment_for (w : World) (cell : nat) (seg : string) : Prop :=
  exists x r g b,
    heap w !! cell = Some x /\ isAlive x = true /\
    getColor x = Some [Integer r; Integer g; Integer b] /\
    seg = segment_of (getX (getCoordinates x)) (getY (getCoordinates x)) r g b.

(** ** Calls that do not replace a cell *)

(** A later call on the grid or on one of its cells, other than [setCell]. *)
Inductive Call : Type :=
| CallGetCell (c : Coordinates)
| CallMethod (cell : nat) (op : CellOp).

Definition perform (call : Call) : M unit :=
  match call with
  | CallGetCell c => getCell c ;;; ret tt
  | CallMethod cell op => method (Cell_apply op) cell
  end.

(** The world after a call; a call that throws does so before it assigns
    anything. *)
Definition after (w : World) (call : Call) : World :=
  match perform call w with Ok _ w' => w' | _ => w end.

Definition after_all (calls : list Call) (w : World) : World :=
  foldl after w calls.

Definition is_read (call : Call) : bool :=
  match call with CallGetCell _ => true | CallMethod _ _ => false end.

(** ** Checking that a concrete world is well formed *)

Definition wf_check (w : World) : bool :=
  bool_decide (NoDup (grid w).*1) &&
  forallb (fun kr =>
             match heap w !! kr.2 with
             | Some c => bool_decide (toString (getCoordinates c) = kr.1) &&
                         in_bounds w (getCoordinates c)
             | None => false
             end) (grid w) &&
  forallb (fun c => negb (isAlive c) ||
                    match getColor c with
                    | Some color => valid_color color
                    | None => false
                    end) (heap w).

(** ** Worlds to run the code on *)

Definition red : Color := [Integer 255; Integer 0; Integer 0].
Definition blue : Color := [Integer 0; Integer 0; Integer 255].

(** A 5 by 5 grid holding a horizontal blinker, its middle cell blue. *)
Definition blinker_world : World :=
  mkWorld 4 4
    [mkCell (mkCoordinates 1 2) true (Some red);
     mkCell (mkCoordinates 2 2) true (Some blue);
     mkCell (mkCoordinates 3 2) true (Some red)]
    [("1,2"%string, 0%nat); ("2,2"%string, 1%nat); ("3,2"%string, 2%nat)]
    (fun n => n).

(** A 3 by 3 grid on which nothing was ever touched. *)
Definition empty_world : World := mkWorld 2 2 [] [] (fun n => n).

(** The grid of a single cell. *)
Definition single_cell_world : World := mkWorld 0 0 [] [] (fun n => n).

(** A 3 by 3 grid whose center alone is alive. *)
Definition lone_center_world : World :=
  mkWorld 2 2 [mkCell (mkCoordinates 1 1) true (Some red)]
          [("1,1"%string, 0%nat)] (fun n => n).

(** ** The claims in the wording of the specification, where they differ
    from what the code does *)

(** On a grid whose cells are all dead, [tryGenerateBlock] leaves exactly
    four cells alive. *)
Definition block_always_placed (w : World) (color : Color) : Prop :=
  (forall c, aliveAt w c = false) ->
  exists w', tryGenerateBlock color w = Ok tt w' /\ length (live_cells w') = 4%nat.

(** * The rest of the engine, and the server that drives it *)

(** ** [Grid.prototype.toString] *)

Definition newline : string := String "010"%char EmptyString.

(** A [for] loop whose body runs once for each element of [l], in order,
    and updates [acc]. *)
Fixpoint foldM {A B} (f : B -> A -> M B) (l : list A) (acc : B) : M B :=
  match l with
  | [] => ret acc
  | a :: l' => acc' <- f acc a ;; foldM f l' acc'
  end.

(** The inner loop of [Grid.prototype.toString]: the row [y], appended to
    [str]. *)
Definition Grid_toString_row (mx y : Z) (str : string) : M string :=
  foldM (fun str x =>
           coordinates <- lift (Coordinates_new (Integer x) (Integer y)) ;;
           cell <- getCell coordinates ;;
           c <- deref cell ;;
           ret (str +:+ (if isAlive c then "+" else "-")))
        (seqZ 0 (mx + 1)) str.

(** [Grid.prototype.toString] *)
Definition Grid_toString : M string :=
  mx <- gets maxX ;;
  my <- gets maxY ;;
  foldM (fun str y =>
           str <- Grid_toString_row mx y str ;;
           ret (if y <? my then str +:+ newline else str))
        (seqZ 0 (my + 1)) EmptyString.

(** ** The server: [src/app.js] *)

(** *** [parseInt] on any string

    A character is a code unit below 256. [parseInt(string)] skips leading
    white space, reads a sign, takes the radix 16 after [0x] or [0X] and 10
    otherwise, and reads the longest run of digits; with no digit the result
    is [NaN]. Numbers are unbounded integers here: above 2^53 JavaScript
    rounds to a double, which is then still at least 2^53 or infinite. *)

(** Tab, line feed, vertical tab, form feed, carriage return, space and
    no-break space. *)
Definition is_white_space (a : ascii) : bool :=
  let n := N_of_ascii a in
  ((9 <=? n) && (n <=? 13) || (n =? 32) || (n =? 160))%N.

Fixpoint trim_start (s : string) : string :=
  match s with
  | EmptyString => EmptyString
  | String a s' => if is_white_space a then trim_start s' else s
  end.

Definition hex_value (a : ascii) : option N :=
  let n := N_of_ascii a in
  if ((48 <=? n) && (n <=? 57))%N then Some (n - 48)%N
  else if ((65 <=? n) && (n <=? 70))%N then Some (n - 55)%N
  else if ((97 <=? n) && (n <=? 102))%N then Some (n - 87)%N
  else None.

(** The longest prefix of hexadecimal digits of [s], read after [acc]. *)
Fixpoint parse_hex (s : string) (acc : N) (seen : bool) : N * bool :=
  match s with
  | EmptyString => (acc, seen)
  | String a s' =>
      match hex_value a with
      | Some d => parse_hex s' (acc * 16 + d)%N true
      | None => (acc, seen)
      end
  end.

(** The sign of the numeral and the string after it. *)
Definition strip_sign (s : string) : bool * string :=
  match s with
  | EmptyString => (false, s)
  | String a s' =>
      if Ascii.eqb a "-" then (true, s')
      else if Ascii.eqb a "+" then (false, s')
      else (false, s)
  end.

(** The string after [0x] or [0X], when it starts with one of them. *)
Definition strip_prefix (s : string) : option string :=
  match s with
  | String a (String b s') =>
      if Ascii.eqb a "0" && (Ascii.eqb b "x" || Ascii.eqb b "X")
      then Some s' else None
  | _ => None
  end.

Definition parseInt_any (s : string) : number :=
  let '(negative, s) := strip_sign (trim_start s) in
  let '(n, seen) :=
    match strip_prefix s with
    | Some s' => parse_hex s' 0%N false
    | None => parse_digits s 0%N false
    end in
  if seen then Integer (if negative then - Z.of_N n else Z.of_N n) else NaN.

(** *** The handler of a player's messages *)

(** [Number.isInteger(n) && n >= 0 && n <= max]; [None] is [undefined], the
    value of a missing array element. *)
Definition valid_index (n : option number) (max : Z) : bool :=
  match n with
  | Some n => Number_isInteger n && (0 <=? number_Z n) && (number_Z n <=? max)
  | None => false
  end.

(** The [Set] command once [x] and [y] are parsed. *)
Definition command_Set (x y : option number) (color : Color) : M unit :=
  mx <- gets maxX ;;
  my <- gets maxY ;;
  let validX := valid_index x mx in
  let validY := valid_index y my in
  if validX && validY then
    coordinates <- lift (Coordinates_new (default NaN x) (default NaN y)) ;;
    cell <- getCell coordinates ;;
    c <- deref cell ;;
    if negb (isAlive c) then
      fresh <- alloc (Cell_new coordinates) ;;
      setColor color fresh ;;;
      setAlive fresh ;;;
      setCell fresh ;;;
      ret tt
    else ret tt
  else ret tt.

(** The callback of [ws.on("message", ...)] for a player of the given
    color; [msg] is the text of the message. [command[1].split] raises a
    [TypeError] when the message has no second component. *)
Definition on_message (color : Color) (msg : string) : M unit :=
  let command := String_split pipe msg in
  let name := default EmptyString (command !! 0%nat) in
  if String.eqb name "Set" then
    argument <- lift (command !! 1%nat) ;;
    let numbers := map parseInt_any (String_split comma argument) in
    command_Set (numbers !! 0%nat) (numbers !! 1%nat) color
  else if String.eqb name "Block" then tryGenerateBlock color
  else if String.eqb name "Blinker" then tryGenerateBlinker color
  else if String.eqb name "Glider" then tryGenerateGlider color
  else ret tt.

(** What the page sends when the player clicks the cell in column [x] of
    row [y]. *)
Definition client_Set (x y : Z) : string :=
  "Set|" +:+ Number_toString x +:+ "," +:+ Number_toString y.

(** ** Vocabulary of the further properties *)

(** [Number.isSafeInteger]: below 2^53 in absolute value. There every
    integer is a double and [toString] prints its decimal numeral; from
    10^21 on it prints an exponent form. *)
Definition safe_integer (z : Z) : Prop := Z.abs z < 2 ^ 53.

Definition safe_coordinates (c : Coordinates) : Prop :=
  safe_integer (getX c) /\ safe_integer (getY c).

(** How [Grid.prototype.toString] shows the position in column [x] of row
    [y]. *)
Definition mark (w : World) (y x : Z) : ascii :=
  if aliveAt w (mkCoordinates x y) then "+"%char else "-"%char.

(** The row [y] of the grid as a line of [+] and [-]. *)
Definition picture_row (w : World) (y : Z) : string :=
  string_of_list_ascii (map (mark w y) (seqZ 0 (maxX w + 1))).

(** The rows [ys], each but the row [maxY] followed by a line break. *)
Definition picture_lines (w : World) (ys : list Z) : string :=
  fold_right (fun y rest =>
                picture_row w y +:+ (if y <? maxY w then newline else EmptyString)
                +:+ rest)
             EmptyString ys.

(** The grid drawn row by row. *)
Definition picture (w : World) : string :=
  String.concat newline (map (picture_row w) (seqZ 0 (maxY w + 1))).

(** The coordinates of the grid, row by row. *)
Definition row_major (w : World) : list Coordinates :=
  y ← seqZ 0 (maxY w + 1); x ← seqZ 0 (maxX w + 1); [mkCoordinates x y].

(** The number of positions of the grid. *)
Definition area (w : World) : nat :=
  (Z.to_nat (maxX w + 1) * Z.to_nat (maxY w + 1))%nat.

(** The map holds a cell for every position of the grid. *)
Definition dense (w : World) : Prop :=
  forall c, in_bounds w c = true -> exists cell, owns w c cell.

(** The size of a pattern. *)
Definition size_of (p : Pattern) : nat :=
  match p with Block => 4 | Blinker => 3 | Glider => 5 end%nat.

(** [w] after [setCell] stored the object [cell] under the key of [c]. *)
Definition replaced (w : World) (c : Coordinates) (cell : nat) : World :=
  mkWorld (maxX w) (maxY w) (heap w) (Map_set (toString c) cell (grid w))
          (random w).

(** How many of [i - 1], [i] and [i + 1] lie between 0 and [max], for [i]
    between 0 and [max]. *)
Definition span (i max : Z) : Z := Z.min (i + 1) max - Z.max (i - 1) 0 + 1.

(** The live positions of the grid, row by row. *)
Definition live_positions (w : World) : list Coordinates :=
  filter (fun c => aliveAt w c = true) (row_major w).

(** The dead positions of the grid, row by row. *)
Definition dead_positions (w : World) : list Coordinates :=
  filter (fun c => aliveAt w c = false) (row_major w).

(** The least [maxX] and [maxY] for which the filter of a generator keeps
    some position. *)
Definition min_side (p : Pattern) : Z :=
  match p with Block => 1 | Blinker | Glider => 2 end.

(** A 4 by 4 grid holding a block in its middle. *)
Definition block_world : World :=
  mkWorld 3 3
    [mkCell (mkCoordinates 1 1) true (Some red);
     mkCell (mkCoordinates 2 1) true (Some red);
     mkCell (mkCoordinates 1 2) true (Some blue);
     mkCell (mkCoordinates 2 2) true (Some blue)]
    [("1,1"%string, 0%nat); ("2,1"%string, 1%nat);
     ("1,2"%string, 2%nat); ("2,2"%string, 3%nat)]
    (fun n => n).

(** [w] after the [Set] command made the dead position [c] alive: a new
    cell object, alive and of the player's color, is stored for [c]. *)
Definition set_alive (w : World) (c : Coordinates) (color : Color) : World :=
  mkWorld (maxX w) (maxY w) (heap w ++ [mkCell c true (Some color)])
          (Map_set (toString c) (length (heap w)) (grid w)) (random w).

(** The grid of [lone_center_world] with a second cell object for the
    center, not stored in the map. *)
Definition spare_cell_world : World :=
  mkWorld 2 2
    [mkCell (mkCoordinates 1 1) true (Some red); Cell_new (mkCoordinates 1 1)]
    [("1,1"%string, 0%nat)] (fun n => n).

(** A conversion gone wrong, for evaluating the failure of [tick]: as
    [exact_space], but the red channel that [lab_rgb] returns overshoots
    by 256. *)
Definition overshooting_space : ColorSpace := {|
  flt := Z;
  flt_add := Z.add;
  flt_div := Z.div;
  flt_of_Z := fun z => z;
  rgb_lab := fun color =>
    (number_Z (default NaN (color !! 0%nat)),
     number_Z (default NaN (color !! 1%nat)),
     number_Z (default NaN (color !! 2%nat)));
  lab_rgb := fun '(l, a, b) => [l + 256; a; b];
  Math_round := Integer
|}.

(** *** The heartbeat *)

Section EverySecond.
Context {CS : ColorSpace}.

(** The callback of [setInterval], for one open socket: the grid ticks,
    and the socket is sent [ws.color], a pipe and the serialized grid.
    [ws_color] is the string [ws.color]; [hours], [minutes] and [seconds]
    are the readings of the clock in [serialize]. *)
Definition every_second (ws_color : string) (hours minutes seconds : Z)
  : M string :=
  tick ;;;
  data <- serialize hours minutes seconds ;;
  ret (ws_color +:+ "|" +:+ data).
End EverySecond.


(** ** The package [color-space], over the real numbers

    [space.rgb.lab] and [space.lab.rgb] come from the npm package
    [color-space], which [game.js] requires and the repository does not
    contain. They are rendered here as the package computes them (sRGB to
    CIE XYZ to CIE Lab and back), with one idealisation: a double is a real
    number, so the arithmetic is exact where JavaScript rounds the result
    of each operation to a double. Every power with a fractional exponent
    is taken of a positive number. *)

Module Package.
Local Open Scope R_scope.

(** [rgb.xyz], one channel: from sRGB to linear light. *)
Definition expand (c : R) : R :=
  if Rlt_dec 0.04045 c then Rpower ((c + 0.055) / 1.055) 2.4 else c / 12.92.

(** [rgb.xyz]; the white point is the default one, [100, 100, 100]. *)
Definition rgb_xyz (r g b : R) : R * R * R :=
  let r := expand (r / 255) in
  let g := expand (g / 255) in
  let b := expand (b / 255) in
  let x := r * 0.41239079926595 + g * 0.35758433938387 + b * 0.18048078840183 in
  let y := r * 0.21263900587151 + g * 0.71516867876775 + b * 0.072192315360733 in
  let z := r * 0.019330818715591 + g * 0.11919477979462 + b * 0.95053215224966 in
  (x * 100, y * 100, z * 100).

(** [xyz.lab], one coordinate. *)
Definition lab_f (t : R) : R :=
  if Rlt_dec 0.008856 t then Rpower t (1 / 3) else 7.787 * t + 16 / 116.

(** [xyz.lab] *)
Definition xyz_lab (xyz : R * R * R) : R * R * R :=
  let '(x, y, z) := xyz in
  let x := lab_f (x / 95.047) in
  let y := lab_f (y / 100) in
  let z := lab_f (z / 108.883) in
  (116 * y - 16, 500 * (x - y), 200 * (y - z)).

(** [u / d <= bound] for a variable [u] that may still be [undefined]
    ([None]): the quotient is then [NaN], and no comparison with [NaN]
    holds. *)
Definition quotient_le (u : option R) (d bound : R) : bool :=
  match u with
  | Some v => if Rle_dec (v / d) bound then true else false
  | None => false
  end.

(** [lab.xyz]. The source declares [x] and [z] and tests [x / 95.047] and
    [z / 108.883] before it assigns them. *)
Definition lab_xyz (lab : R * R * R) : R * R * R :=
  let '(l, a, b) := lab in
  let x : option R := None in
  let z : option R := None in
  let '(y, y2) :=
    if Rle_dec l 8
    then let y := l * 100 / 903.3 in (y, 7.787 * (y / 100) + 16 / 116)
    else let y := 100 * ((l + 16) / 116) ^ 3 in (y, Rpower (y / 100) (1 / 3)) in
  let x :=
    if quotient_le x 95.047 0.008856
    then 95.047 * (a / 500 + y2 - 16 / 116) / 7.787
    else 95.047 * (a / 500 + y2) ^ 3 in
  let z :=
    if quotient_le z 108.883 0.008859
    then 108.883 * (y2 - b / 200 - 16 / 116) / 7.787
    else 108.883 * (y2 - b / 200) ^ 3 in
  (x, y, z).

(** [xyz.rgb], one channel: from linear light to sRGB. *)
Definition compress (c : R) : R :=
  if Rlt_dec 0.0031308 c then 1.055 * Rpower c (1 / 2.4) - 0.055 else c * 12.92.

(** [Math.min(Math.max(0, c), 1)] *)
Definition clamp01 (c : R) : R := Rmin (Rmax 0 c) 1.

(** [xyz.rgb], with the default white point. *)
Definition xyz_rgb (xyz : R * R * R) : list R :=
  let '(x, y, z) := xyz in
  let x := x / 100 in
  let y := y / 100 in
  let z := z / 100 in
  let r := x * 3.240969941904521 + y * -1.537383177570093 + z * -0.498610760293 in
  let g := x * -0.96924363628087 + y * 1.87596750150772 + z * 0.041555057407175 in
  let b := x * 0.055630079696993 + y * -0.20397695888897 + z * 1.056971514242878 in
  [clamp01 (compress r) * 255; clamp01 (compress g) * 255; clamp01 (compress b) * 255].

(** A channel of a color; the colors that cells hold are integers. *)
Definition channel (color : Color) (i : nat) : R :=
  IZR (number_Z (default NaN (color !! i))).

(** [Math.round]: the greatest integer that is not above [x + 1/2]. *)
Definition round (x : R) : number := Integer (Int_part (x + / 2)).
End Package.

(** [space] and [Math.round] as [tick] uses them. *)
Definition package_space : ColorSpace := {|
  flt := R;
  flt_add := Rplus;
  flt_div := Rdiv;
  flt_of_Z := IZR;
  rgb_lab := fun color =>
    Package.xyz_lab
      (Package.rgb_xyz (Package.channel color 0) (Package.channel color 1)
                       (Package.channel color 2));
  lab_rgb := fun lab => Package.xyz_rgb (Package.lab_xyz lab);
  Math_round := Package.round
|}.

Definition black : Color := [Integer 0; Integer 0; Integer 0].

(** A 3 by 3 grid holding a horizontal blinker of three black cells. *)
Definition black_row_world : World :=
  mkWorld 2 2
    [mkCell (mkCoordinates 0 1) true (Some black);
     mkCell (mkCoordinates 1 1) true (Some black);
     mkCell (mkCoordinates 2 1) true (Some black)]
    [("0,1"%string, 0%nat); ("1,1"%string, 1%nat); ("2,1"%string, 2%nat)]
    (fun n => n).

(** * Properties *)

(** ** Strings *)

Lemma digit_value_char d : (d < 10)%N -> digit_value (pretty_N_char d) = Some d.
Proof.
  intros Hd.
  assert (d = 0 \/ d = 1 \/ d = 2 \/ d = 3 \/ d = 4 \/ d = 5 \/ d = 6 \/ d = 7 \/ d = 8 \/ d = 9)%N
    as H by lia.
  repeat (destruct H as [->|H]; [done|]). by subst.
Qed.

Lemma char_not_numeral a d :
  not_numeral_char a = true -> Ascii.eqb (pretty_N_char d) a = false.
Proof.
  intros [_ Hd]%andb_true_iff. rewrite forallb_forall in Hd.
  assert (forall k, In k [0; 1; 2; 3; 4; 5; 6; 7; 8; 9]%N ->
                    Ascii.eqb (pretty_N_char k) a = false) as Hk.
  { intros k Hin. apply negb_true_iff. by apply Hd. }
  unfold pretty_N_char. repeat case_match; subst;
    first [ apply (Hk 0%N) | apply (Hk 1%N) | apply (Hk 2%N) | apply (Hk 3%N)
          | apply (Hk 4%N) | apply (Hk 5%N) | apply (Hk 6%N) | apply (Hk 7%N)
          | apply (Hk 8%N) | apply (Hk 9%N) ]; simpl; tauto.
Qed.

Lemma lacks_go a x :
  not_numeral_char a = true ->
  forall s, lacks a s = true -> lacks a (pretty_N_go x s) = true.
Proof.
  intros Ha. induction (N.lt_wf_0 x) as [x _ IH]; intros s Hs.
  destruct (decide (x = 0)%N) as [->|Hx]; [by rewrite pretty_N_go_0|].
  rewrite pretty_N_go_step by lia. apply IH.
  - apply N.div_lt; lia.
  - simpl. by rewrite char_not_numeral.
Qed.

Lemma lacks_pretty_N a (x : N) :
  not_numeral_char a = true -> lacks a (pretty x) = true.
Proof.
  intros Ha. unfold pretty, pretty_N. case_decide.
  - pose proof (char_not_numeral a 0%N Ha) as H0.
    change (pretty_N_char 0) with "0"%char in H0.
    cbn [lacks]. by rewrite H0.
  - by apply lacks_go.
Qed.

(** A numeral consists of digits and at most a minus sign. *)
Lemma lacks_toString a z :
  not_numeral_char a = true -> lacks a (Number_toString z) = true.
Proof.
  intros Ha. unfold Number_toString, pretty, pretty_Z.
  destruct z as [|p|p].
  - apply (lacks_pretty_N a 0%N Ha).
  - by apply lacks_pretty_N.
  - apply andb_true_iff in Ha as Ha'. destruct Ha' as [Hm _].
    change (lacks a (String "-" (pretty (Npos p))) = true).
    cbn [lacks]. rewrite Hm. by apply lacks_pretty_N.
Qed.

Lemma lacks_app a s1 s2 :
  lacks a (s1 +:+ s2) = lacks a s1 && lacks a s2.
Proof.
  induction s1 as [|b s1 IH]; simpl; [done|]. by rewrite IH, andb_assoc.
Qed.

Lemma parse_digits_go x :
  exists k : N, forall s acc seen,
    parse_digits (pretty_N_go x s) acc seen =
    if decide (x = 0)%N then parse_digits s acc seen
    else parse_digits s (acc * 10 ^ k + x)%N true.
Proof.
  induction (N.lt_wf_0 x) as [x _ IH].
  destruct (decide (x = 0)%N) as [->|Hx].
  { exists 0%N. intros. by rewrite pretty_N_go_0. }
  destruct (IH (x `div` 10)%N) as [k Hk]. { apply N.div_lt; lia. }
  exists (if decide (x `div` 10 = 0)%N then 1 else k + 1)%N. intros s acc seen.
  rewrite pretty_N_go_step by lia. rewrite Hk.
  pose proof (N.div_mod x 10 ltac:(lia)) as Hdm.
  destruct (decide (x `div` 10 = 0)%N) as [H0|H0]; simpl;
    rewrite digit_value_char by (apply N.mod_lt; lia); f_equal.
  - rewrite H0 in Hdm. lia.
  - rewrite N.pow_add_r. lia.
Qed.

Lemma parse_digits_pretty_N (x : N) :
  parse_digits (pretty x) 0%N false = (x, true).
Proof.
  unfold pretty, pretty_N. case_decide as Hx; [by subst|].
  destruct (parse_digits_go x) as [k Hk]. rewrite Hk.
  rewrite decide_False by done. done.
Qed.

Lemma pretty_N_first x : exists a s, pretty (A:=N) x = String a s /\ a <> "-"%char.
Proof.
  assert (forall x s, (0 < x)%N -> exists a s', pretty_N_go x s = String a s' /\ a <> "-"%char) as Hgo.
  { clear x. intros x. induction (N.lt_wf_0 x) as [x _ IH]. intros s Hx.
    rewrite pretty_N_go_step by done.
    destruct (decide (x `div` 10 = 0)%N) as [H0|H0].
    - rewrite H0, pretty_N_go_0. eexists _, _. split; [done|].
      unfold pretty_N_char. by repeat case_match.
    - apply IH; [apply N.div_lt; lia|]. destruct (x `div` 10)%N; [done|lia]. }
  unfold pretty, pretty_N. case_decide as Hx.
  - by eexists _, _.
  - apply Hgo. lia.
Qed.

Lemma parseInt_toString z : parseInt (Some (Number_toString z)) = Integer z.
Proof.
  unfold Number_toString, pretty, pretty_Z. destruct z as [|p|p]; [done|..].
  - change (pretty p) with (pretty (Npos p)).
    destruct (pretty_N_first (Npos p)) as (a & s & Hs & Ha).
    unfold parseInt. rewrite Hs.
    assert (parse_digits (String a s) 0%N false = (Npos p, true)) as ->.
    { rewrite <- Hs. apply parse_digits_pretty_N. }
    destruct a as [[] [] [] [] [] [] [] []]; try done.
  - change (parseInt (Some (String "-" (pretty (Npos p)))) = Integer (Z.neg p)).
    unfold parseInt. by rewrite parse_digits_pretty_N.
Qed.

Lemma String_split_lacks sep s :
  lacks sep s = true -> String_split sep s = [s].
Proof.
  induction s as [|a s IH]; simpl; [done|].
  intros [Ha Hs]%andb_true_iff. apply negb_true_iff in Ha. rewrite Ha.
  by rewrite IH.
Qed.

Lemma String_split_app sep s1 s2 :
  lacks sep s1 = true ->
  String_split sep (s1 +:+ String sep s2) = s1 :: String_split sep s2.
Proof.
  induction s1 as [|a s IH]; simpl; [by rewrite Ascii.eqb_refl|].
  intros [Ha Hs]%andb_true_iff. apply negb_true_iff in Ha. rewrite Ha.
  by rewrite IH.
Qed.

(** Splitting what [join] made of parts without the separator gives the
    parts back. *)
Lemma String_split_concat sep x xs :
  Forall (fun s => lacks sep s = true) (x :: xs) ->
  String_split sep (String.concat (String sep EmptyString) (x :: xs)) = x :: xs.
Proof.
  revert x. induction xs as [|y ys IH]; intros x Hall.
  - simpl. apply String_split_lacks. by inversion Hall.
  - inversion Hall as [|? ? Hx Hrest]; subst.
    change (String.concat (String sep EmptyString) (x :: y :: ys))
      with (x +:+ String sep (String.concat (String sep EmptyString) (y :: ys))).
    rewrite String_split_app by done. by rewrite IH.
Qed.

Lemma split_comma_toString c :
  String_split comma (toString c)
    = [Number_toString (getX c); Number_toString (getY c)].
Proof.
  unfold toString.
  change ("," +:+ Number_toString (getY c))%string
    with (String comma (Number_toString (getY c))).
  rewrite String_split_app by by apply lacks_toString.
  by rewrite String_split_lacks by by apply lacks_toString.
Qed.

Global Instance toString_inj : Inj (=) (=) toString.
Proof.
  intros [x1 y1] [x2 y2] H.
  assert (String_split comma (toString (mkCoordinates x1 y1)) =
          String_split comma (toString (mkCoordinates x2 y2))) as Hs by by rewrite H.
  rewrite !split_comma_toString in Hs. simpl in Hs.
  injection Hs as Hx Hy.
  apply (inj pretty) in Hx, Hy. by subst.
Qed.

(** The coordinates a key of [allCoordinates] is parsed back to. *)
Lemma parse_key c :
  let parts := String_split comma (toString c) in
  Coordinates_new (parseInt (parts !! 0%nat)) (parseInt (parts !! 1%nat)) = Some c.
Proof.
  cbv zeta. rewrite split_comma_toString.
  change (Coordinates_new (parseInt (Some (Number_toString (getX c))))
                          (parseInt (Some (Number_toString (getY c)))) = Some c).
  rewrite !parseInt_toString. by destruct c.
Qed.

(** ** Coordinates *)

Lemma addOffsets_eq c offsets :
  addOffsets c offsets =
  Some (map (fun o => mkCoordinates (getX c + o.1) (getY c + o.2)) offsets).
Proof.
  induction offsets as [|o offsets IH]; simpl; [done|]. by rewrite IH.
Qed.

(** C5, as stated, fails: [new Coordinates(-1, 0)] is constructed. *)
Lemma Coordinates_new_accepts_negative :
  ~ rejects_negative_or_fractional (Integer (-1)) (Integer 0).
Proof.
  unfold rejects_negative_or_fractional. simpl. intros [_ H].
  discriminate H. by left.
Qed.

(** C5, amended: constructing [Coordinates] fails exactly when [x] or [y] is
    not an integer; every pair of integers, negative ones included, is
    accepted, and [getX] and [getY] return the given values. *)
Theorem Coordinates_new_spec (x y : number) :
  (Coordinates_new x y = None <->
   Number_isInteger x = false \/ Number_isInteger y = false) /\
  (forall c, Coordinates_new x y = Some c ->
             Integer (getX c) = x /\ Integer (getY c) = y) /\
  (forall a b, Coordinates_new (Integer a) (Integer b) = Some (mkCoordinates a b)).
Proof.
  split; [|split].
  - unfold Coordinates_new.
    destruct x, y; simpl; split; intros H; try done; try (by left); try (by right);
      by destruct H.
  - intros c. unfold Coordinates_new.
    destruct x, y; simpl; intros H; try done. by injection H as <-.
  - done.
Qed.

(** ** Cell *)

Lemma Cell_apply_inv op c c' last :
  Cell_inv c last -> Cell_apply op c = Some c' -> Cell_inv c' (Some op).
Proof.
  intros [Ha Hd] Hop. destruct op as [newColor| |]; simpl in Hop.
  - unfold Cell_setColor in Hop.
    destruct (valid_color newColor) eqn:Hv; [|done].
    injection Hop as <-. split; simpl; intros _.
    + by exists newColor.
    + done.
  - unfold Cell_setAlive in Hop.
    destruct (getColor c) as [color|] eqn:Hc; [|done].
    injection Hop as <-. split; simpl; [|done]. intros _.
    exists color. split; [done|].
    destruct (isAlive c) eqn:Hal.
    + destruct (Ha eq_refl) as (color' & Hc' & Hv). congruence.
    + specialize (Hd eq_refl). unfold dead_color in Hd.
      destruct last as [[newColor| |]|]; [|congruence..].
      destruct Hd as [Hc' Hv]. congruence.
  - by injection Hop as <-.
Qed.

Lemma Cell_run_inv ops : forall c last,
  Cell_inv c last -> Cell_inv (Cell_run ops c) (last_applied ops c last).
Proof.
  induction ops as [|op ops IH]; intros c last Hinv; simpl; [done|].
  destruct (Cell_apply op c) as [c'|] eqn:Hop.
  - apply IH. by eapply Cell_apply_inv.
  - by apply IH.
Qed.

(** C3, as stated, fails: after [setColor] alone the cell is dead and holds
    a color. *)
Lemma Cell_dead_with_color :
  ~ alive_iff_colored
      (Cell_run [OpSetColor [Integer 1; Integer 2; Integer 3]]
                (Cell_new (mkCoordinates 0 0))).
Proof. intros [_ H]. simpl in H. by specialize (H eq_refl). Qed.

(** C3, amended: after any sequence of [setColor], [setAlive] and [setDead]
    on a new cell, an alive cell has a color of three integers in [0, 255];
    a dead cell has no color, unless the last call that did not fail was
    [setColor], in which case it holds the color given to that call, a
    valid one; [setAlive] fails when no color is set, and [setDead] never
    fails and clears the color. *)
Theorem Cell_invariant (coordinates : Coordinates) (ops : list CellOp) :
  let c := Cell_run ops (Cell_new coordinates) in
  (isAlive c = true -> has_valid_color c) /\
  (isAlive c = false ->
   match last_applied ops (Cell_new coordinates) None with
   | Some (OpSetColor newColor) =>
       getColor c = Some newColor /\ valid_color newColor = true
   | _ => getColor c = None
   end) /\
  (getColor c = None -> Cell_setAlive c = None) /\
  (exists c', Cell_setDead c = Some c' /\ isAlive c' = false /\ getColor c' = None).
Proof.
  intros c.
  destruct (Cell_run_inv ops (Cell_new coordinates) None) as [Ha Hd]; [done|].
  split; [done|]. split; [done|]. split.
  - intros Hn. unfold Cell_setAlive. by rewrite Hn.
  - by eexists.
Qed.

(** * Grid: maps, well-formed worlds, materialization *)

(** ** The monad *)

Lemma bind_ok {A B} (m : M A) (f : A -> M B) w a w1 :
  m w = Ok a w1 -> bind m f w = f a w1.
Proof. intros H. unfold bind. by rewrite H. Qed.

Lemma bind_inv {A B} (m : M A) (f : A -> M B) w b w2 :
  bind m f w = Ok b w2 -> exists a w1, m w = Ok a w1 /\ f a w1 = Ok b w2.
Proof.
  unfold bind. destruct (m w) as [a w1| |]; [|done..]. intros H. by exists a, w1.
Qed.

(** ** The [Map] *)

Lemma Map_get_app k m1 m2 :
  Map_get k (m1 ++ m2) =
  match Map_get k m1 with Some v => Some v | None => Map_get k m2 end.
Proof.
  induction m1 as [|[k' v'] m1 IH]; simpl; [done|]. by case_decide.
Qed.

Lemma Map_get_Some k v m : Map_get k m = Some v -> (k, v) ∈ m.
Proof.
  induction m as [|[k' v'] m IH]; simpl; [done|].
  case_decide as Hk.
  - intros [= ->]. subst. left.
  - intros H. right. by apply IH.
Qed.

Lemma Map_get_None k m : Map_get k m = None <-> k ∉ m.*1.
Proof.
  induction m as [|[k' v'] m IH]; simpl.
  - split; [|done]. intros _. apply not_elem_of_nil.
  - rewrite not_elem_of_cons. case_decide as Hk.
    + split; [done|]. intros [H _]. by subst.
    + rewrite IH. split; [|tauto]. intros H. split; [congruence|done].
Qed.

Lemma Map_get_elem k v m : NoDup m.*1 -> (k, v) ∈ m -> Map_get k m = Some v.
Proof.
  induction m as [|[k' v'] m IH]; simpl; intros Hnd Hin.
  - by apply elem_of_nil in Hin.
  - apply NoDup_cons in Hnd as [Hk' Hnd].
    apply elem_of_cons in Hin as [[= -> ->]|Hin].
    + by rewrite decide_True.
    + case_decide as Hk; [|by apply IH]. subst.
      destruct Hk'. apply list_elem_of_fmap. by exists (k, v).
Qed.

Lemma Map_set_fresh k v m : Map_get k m = None -> Map_set k v m = m ++ [(k, v)].
Proof.
  induction m as [|[k' v'] m IH]; simpl; [done|].
  case_decide; [done|]. intros Hn. by rewrite IH.
Qed.

(** ** Bounds and neighborhoods *)

Lemma in_bounds_spec w c :
  in_bounds w c = true <->
  0 <= getX c <= maxX w /\ 0 <= getY c <= maxY w.
Proof. unfold in_bounds. rewrite !andb_true_iff, !Z.leb_le. lia. Qed.

Lemma in_bounds_ext w w' c :
  maxX w' = maxX w -> maxY w' = maxY w -> in_bounds w' c = in_bounds w c.
Proof. unfold in_bounds. by intros -> ->. Qed.

(** ** Well-formed worlds *)

Lemma Grid_new_wf mx my rnd w : Grid_new mx my rnd = Some w -> wf w.
Proof.
  unfold Grid_new. repeat case_match; try done. intros [= <-].
  split; simpl.
  - constructor.
  - intros k cell Hin. by apply elem_of_nil in Hin.
  - intros cell c Hin. by rewrite lookup_nil in Hin.
Qed.

Lemma owns_elem w c cell : owns w c cell -> (toString c, cell) ∈ grid w.
Proof. apply Map_get_Some. Qed.

Lemma owns_lookup w c cell :
  wf w -> owns w c cell ->
  exists x, heap w !! cell = Some x /\ getCoordinates x = c /\ in_bounds w c = true.
Proof.
  intros Hwf Ho. destruct (wf_entry w Hwf _ _ (owns_elem _ _ _ Ho)) as (x & Hx & Hk & Hb).
  apply (inj toString) in Hk. subst. by exists x.
Qed.

Lemma elem_owns w k cell :
  wf w -> (k, cell) ∈ grid w ->
  exists x, heap w !! cell = Some x /\ k = toString (getCoordinates x) /\
            owns w (getCoordinates x) cell /\ in_bounds w (getCoordinates x) = true.
Proof.
  intros Hwf Hin. destruct (wf_entry w Hwf _ _ Hin) as (x & Hx & Hk & Hb).
  exists x. split; [done|]. split; [done|]. split; [|done].
  unfold owns. rewrite Hk. apply Map_get_elem; [apply Hwf|done].
Qed.

Lemma owns_inj w c1 c2 cell : wf w -> owns w c1 cell -> owns w c2 cell -> c1 = c2.
Proof.
  intros Hwf H1 H2.
  destruct (owns_lookup w c1 cell Hwf H1) as (x1 & Hx1 & <- & _).
  destruct (owns_lookup w c2 cell Hwf H2) as (x2 & Hx2 & <- & _).
  congruence.
Qed.

(** ** Materialization *)

Lemma grows_refl w : grows w w.
Proof.
  split; try done.
  - exists []. by rewrite app_nil_r.
  - exists []. by rewrite app_nil_r.
Qed.

Lemma grows_trans w1 w2 w3 : grows w1 w2 -> grows w2 w3 -> grows w1 w3.
Proof.
  intros [Hx1 Hy1 (n1 & Hh1 & Hn1) (e1 & Hg1 & He1)]
         [Hx2 Hy2 (n2 & Hh2 & Hn2) (e2 & Hg2 & He2)].
  split; try congruence.
  - exists (n1 ++ n2). split; [by rewrite Hh2, Hh1, app_assoc|].
    by apply Forall_app.
  - exists (e1 ++ e2). split; [by rewrite Hg2, Hg1, app_assoc|].
    apply Forall_app. split; [done|].
    eapply Forall_impl; [done|]. intros [k r] Hr. simpl in *.
    rewrite Hh1, length_app in Hr. lia.
Qed.

Lemma grows_lookup w w' cell c :
  grows w w' -> heap w !! cell = Some c -> heap w' !! cell = Some c.
Proof.
  intros [_ _ (new & -> & _) _] H. by apply lookup_app_l_Some.
Qed.

Lemma grows_lookup_new w w' cell c :
  grows w w' -> heap w' !! cell = Some c -> heap w !! cell = None ->
  isAlive c = false /\ getColor c = None.
Proof.
  intros [_ _ (new & Hh & Hnew) _] H Hn. rewrite Hh in H.
  apply lookup_app_Some in H as [H|[_ H]]; [congruence|].
  rewrite Forall_forall in Hnew. apply Hnew. by eapply list_elem_of_lookup_2.
Qed.

Lemma grows_owns w w' c cell : grows w w' -> owns w c cell -> owns w' c cell.
Proof.
  intros [_ _ _ (entries & Hg & _)] H. unfold owns in *.
  by rewrite Hg, Map_get_app, H.
Qed.

Lemma grows_in_bounds w w' c : grows w w' -> in_bounds w' c = in_bounds w c.
Proof. intros H. apply in_bounds_ext; apply H. Qed.

Lemma grows_alive_ref w w' cell : grows w w' -> alive_ref w' cell = alive_ref w cell.
Proof.
  intros Hg. unfold alive_ref.
  destruct (heap w !! cell) as [c|] eqn:Hc.
  - by rewrite (grows_lookup _ _ _ _ Hg Hc).
  - destruct (heap w' !! cell) as [c'|] eqn:Hc'; [|done].
    by destruct (grows_lookup_new _ _ _ _ Hg Hc' Hc).
Qed.

Lemma grows_cellAt_new w w' c x :
  grows w w' -> cellAt w c = None -> cellAt w' c = Some x ->
  isAlive x = false /\ getColor x = None.
Proof.
  intros Hg. unfold cellAt.
  destruct (Map_get (toString c) (grid w)) as [cell|] eqn:Hm.
  - rewrite (grows_owns _ _ _ _ Hg Hm). intros Hn Hx.
    by apply (grows_lookup_new _ _ _ _ Hg Hx).
  - intros _. destruct Hg as [_ _ (new & Hh & Hnew) (entries & Hgr & Hent)].
    rewrite Hgr, Map_get_app, Hm.
    destruct (Map_get (toString c) entries) as [cell|] eqn:Hm'; [|done].
    apply Map_get_Some in Hm'. rewrite Forall_forall in Hent.
    specialize (Hent _ Hm'). simpl in Hent.
    rewrite Hh. intros Hx.
    apply lookup_app_Some in Hx as [Hx|[_ Hx]].
    + apply lookup_lt_Some in Hx. lia.
    + rewrite Forall_forall in Hnew. apply Hnew. by eapply list_elem_of_lookup_2.
Qed.

Lemma grows_cellAt w w' c x :
  grows w w' -> cellAt w c = Some x -> cellAt w' c = Some x.
Proof.
  intros Hg. unfold cellAt.
  destruct (Map_get (toString c) (grid w)) as [cell|] eqn:Hm; [|done].
  rewrite (grows_owns _ _ _ _ Hg Hm). apply (grows_lookup _ _ _ _ Hg).
Qed.

Lemma grows_snapshot w w' c : grows w w' -> snapshot w' c = snapshot w c.
Proof.
  intros Hg. unfold snapshot, aliveAt, colorAt.
  destruct (cellAt w c) as [x|] eqn:Hx.
  - by rewrite (grows_cellAt _ _ _ _ Hg Hx).
  - destruct (cellAt w' c) as [x'|] eqn:Hx'; [|done].
    by destruct (grows_cellAt_new _ _ _ _ Hg Hx Hx') as [-> ->].
Qed.

Lemma grows_aliveAt w w' c : grows w w' -> aliveAt w' c = aliveAt w c.
Proof. intros Hg. by injection (grows_snapshot _ _ c Hg). Qed.

Lemma grows_colorAt w w' c : grows w w' -> colorAt w' c = colorAt w c.
Proof. intros Hg. by injection (grows_snapshot _ _ c Hg). Qed.

(** ** [getCell] *)

Arguments bind : simpl never.

Lemma deref_ok w cell x : heap w !! cell = Some x -> deref cell w = Ok x w.
Proof. unfold deref. by intros ->. Qed.

Lemma getCell_out_of_bounds w c : in_bounds w c = false -> getCell c w = Throw.
Proof.
  unfold in_bounds, getCell, bind, gets, assert. intros H.
  destruct ((0 <=? getX c) && (getX c <=? maxX w)) eqn:Hx; [|done].
  simpl in H. by rewrite H.
Qed.

Lemma getCell_owned w c cell :
  in_bounds w c = true -> owns w c cell -> getCell c w = Ok cell w.
Proof.
  unfold in_bounds, getCell, bind, gets, assert, owns. intros H Ho.
  rewrite <- andb_assoc in H. apply andb_true_iff in H as [-> ->].
  by rewrite Ho.
Qed.

Lemma getCell_fresh w c :
  in_bounds w c = true -> Map_get (toString c) (grid w) = None ->
  getCell c w = Ok (length (heap w)) (materialize w c).
Proof.
  unfold in_bounds, getCell, bind, gets, assert. intros H Ho.
  rewrite <- andb_assoc in H. apply andb_true_iff in H as [Hx Hy].
  rewrite Hx, Hy, Ho. unfold alloc, setCell, bind, deref, gets, assert. simpl.
  rewrite lookup_app_r, Nat.sub_diag by done. simpl.
  apply andb_true_iff in Hx as [-> ->]. apply andb_true_iff in Hy as [-> ->].
  unfold materialize. by rewrite Map_set_fresh.
Qed.

Lemma materialize_grows w c : grows w (materialize w c).
Proof.
  split; try done; simpl.
  - exists [Cell_new c]. split; [done|]. by repeat constructor.
  - exists [(toString c, length (heap w))]. split; [done|]. by repeat constructor.
Qed.

Lemma materialize_wf w c :
  wf w -> in_bounds w c = true -> Map_get (toString c) (grid w) = None ->
  wf (materialize w c).
Proof.
  intros Hwf Hb Hn. split; simpl.
  - rewrite fmap_app. apply NoDup_app. split; [apply Hwf|]. split.
    + intros k Hk [->|[]%elem_of_nil]%elem_of_cons.
      by apply Map_get_None in Hn.
    + apply NoDup_singleton.
  - intros k cell [Hin|[[= -> ->]|[]%elem_of_nil]%elem_of_cons]%elem_of_app.
    + destruct (wf_entry w Hwf _ _ Hin) as (x & Hx & Hk & Hbx).
      exists x. split; [by apply lookup_app_l_Some|done].
    + exists (Cell_new c). split; [|done].
      by rewrite lookup_app_r, Nat.sub_diag.
  - intros cell x [Hx|[_ Hx]]%lookup_app_Some.
    + by apply (wf_alive w Hwf cell).
    + apply list_lookup_singleton_Some in Hx as [_ <-]. done.
Qed.

Lemma materialize_owns w c : 
  Map_get (toString c) (grid w) = None -> owns (materialize w c) c (length (heap w)).
Proof.
  intros Hn. unfold owns. simpl. rewrite Map_get_app, Hn. simpl.
  by rewrite decide_True.
Qed.

(** [getCell] within the bounds returns the cell the grid owns for the
    coordinates, after materializing it if need be. *)
Lemma getCell_spec w c :
  wf w -> in_bounds w c = true ->
  exists cell w', getCell c w = Ok cell w' /\ grows w w' /\ wf w' /\ owns w' c cell.
Proof.
  intros Hwf Hb. destruct (Map_get (toString c) (grid w)) as [cell|] eqn:Hm.
  - exists cell, w. split; [by apply getCell_owned|].
    split; [apply grows_refl|done].
  - exists (length (heap w)), (materialize w c).
    split; [by apply getCell_fresh|].
    split; [apply materialize_grows|].
    split; [by apply materialize_wf|by apply materialize_owns].
Qed.

Lemma mapM_getCell_spec cs : forall w,
  wf w -> Forall (fun c => in_bounds w c = true) cs ->
  exists cells w', mapM getCell cs w = Ok cells w' /\ grows w w' /\ wf w' /\
                   Forall2 (owns w') cs cells.
Proof.
  induction cs as [|c cs IH]; intros w Hwf Hb.
  - exists [], w. split; [done|]. split; [apply grows_refl|]. split; [done|constructor].
  - apply Forall_cons in Hb as [Hc Hcs].
    destruct (getCell_spec w c Hwf Hc) as (cell & w1 & Hget & Hg1 & Hwf1 & Ho1).
    destruct (IH w1 Hwf1) as (cells & w2 & Hmap & Hg2 & Hwf2 & Ho2).
    { eapply Forall_impl; [done|]. intros x Hx. by rewrite (grows_in_bounds _ _ _ Hg1). }
    exists (cell :: cells), w2. split.
    { simpl. rewrite (bind_ok _ _ _ _ _ Hget), (bind_ok _ _ _ _ _ Hmap). done. }
    split; [by eapply grows_trans|]. split; [done|].
    constructor; [by eapply grows_owns|done].
Qed.

(** ** [neighbors] *)

Lemma moore_in_bounds w c : Forall (fun n => in_bounds w n = true) (moore w c).
Proof. apply Forall_forall. intros n Hn. by apply list_elem_of_filter in Hn as [Hn _]. Qed.

Lemma neighbors_spec w cell x :
  wf w -> heap w !! cell = Some x ->
  exists nbs w', neighbors cell w = Ok nbs w' /\ grows w w' /\ wf w' /\
                 Forall2 (owns w') (moore w (getCoordinates x)) nbs.
Proof.
  intros Hwf Hx.
  destruct (mapM_getCell_spec (moore w (getCoordinates x)) w Hwf (moore_in_bounds _ _))
    as (nbs & w' & Hmap & Hg & Hwf' & Ho).
  exists nbs, w'. split; [|done].
  unfold neighbors, bind, deref, lift, gets. rewrite Hx, addOffsets_eq. done.
Qed.

(** ** Filters reading the heap *)

Lemma filterAlive_spec cells w :
  Forall (fun cell => is_Some (heap w !! cell)) cells ->
  filterAlive cells w = Ok (filter (fun cell => alive_ref w cell = true) cells) w.
Proof.
  induction cells as [|cell cells IH]; intros Hall; [done|].
  apply Forall_cons in Hall as [[x Hx] Hall]. simpl.
  rewrite (bind_ok _ _ _ _ _ (deref_ok _ _ _ Hx)), (bind_ok _ _ _ _ _ (IH Hall)).
  unfold ret. f_equal.
  rewrite filter_cons.
  assert (alive_ref w cell = isAlive x) as -> by (unfold alive_ref; by rewrite Hx).
  destruct (isAlive x); [by rewrite decide_True|by rewrite decide_False].
Qed.

Lemma filterDead_spec cells w :
  Forall (fun cell => is_Some (heap w !! cell)) cells ->
  filterDead cells w = Ok (filter (fun cell => alive_ref w cell = false) cells) w.
Proof.
  induction cells as [|cell cells IH]; intros Hall; [done|].
  apply Forall_cons in Hall as [[x Hx] Hall]. simpl.
  rewrite (bind_ok _ _ _ _ _ (deref_ok _ _ _ Hx)), (bind_ok _ _ _ _ _ (IH Hall)).
  unfold ret. f_equal.
  rewrite filter_cons.
  assert (alive_ref w cell = isAlive x) as -> by (unfold alive_ref; by rewrite Hx).
  destruct (isAlive x); [by rewrite decide_False|by rewrite decide_True].
Qed.

Lemma owns_alive_ref w c cell : owns w c cell -> alive_ref w cell = aliveAt w c.
Proof. unfold owns, alive_ref, aliveAt, cellAt. by intros ->. Qed.

Lemma Forall2_owns_filter w cs cells :
  Forall2 (owns w) cs cells ->
  Forall2 (owns w) (filter (fun c => aliveAt w c = true) cs)
                   (filter (fun cell => alive_ref w cell = true) cells).
Proof.
  induction 1 as [|c cell cs cells Ho Hall IH]; [constructor|].
  rewrite !filter_cons. rewrite (owns_alive_ref _ _ _ Ho).
  destruct (aliveAt w c) eqn:Ha.
  - rewrite !decide_True by done. by constructor.
  - rewrite !decide_False by done. done.
Qed.

(** ** The Moore neighborhood *)

Lemma elem_of_moore w c n :
  n ∈ moore w c <->
  in_bounds w n = true /\ n <> c /\
  -1 <= getX n - getX c <= 1 /\ -1 <= getY n - getY c <= 1.
Proof.
  unfold moore. rewrite list_elem_of_filter, list_elem_of_fmap. split.
  - intros [Hb (o & -> & Ho)]. split; [done|].
    unfold neighbor_offsets in Ho. destruct c as [cx cy]. unfold offset_by. simpl.
    repeat (apply elem_of_cons in Ho as [->|Ho]; [split; [intros [=]; lia|simpl; lia]|]).
    by apply elem_of_nil in Ho.
  - intros (Hb & Hne & Hx & Hy). split; [done|].
    exists (getX n - getX c, getY n - getY c). split.
    + destruct n as [nx ny]. unfold offset_by. simpl. f_equal; lia.
    + assert (getX n - getX c = -1 \/ getX n - getX c = 0 \/ getX n - getX c = 1)
        as Hdx by lia.
      assert (getY n - getY c = -1 \/ getY n - getY c = 0 \/ getY n - getY c = 1)
        as Hdy by lia.
      destruct Hdx as [Hdx|[Hdx|Hdx]], Hdy as [Hdy|[Hdy|Hdy]];
        rewrite Hdx, Hdy; unfold neighbor_offsets;
        try (repeat first [by left | right]).
      destruct Hne. destruct n, c. simpl in *. f_equal; lia.
Qed.

Lemma moore_sym w c n : in_bounds w c = true -> n ∈ moore w c -> c ∈ moore w n.
Proof.
  rewrite !elem_of_moore. intros Hc (Hn & Hne & Hx & Hy).
  split; [done|]. split; [congruence|lia].
Qed.

Lemma moore_ext w w' c :
  maxX w' = maxX w -> maxY w' = maxY w -> moore w' c = moore w c.
Proof.
  intros Hx Hy. unfold moore. apply list_filter_iff. intros n.
  by rewrite (in_bounds_ext _ _ _ Hx Hy).
Qed.

Lemma moore_length w c : (length (moore w c) <= 8)%nat.
Proof.
  unfold moore. etrans; [apply length_filter|]. by rewrite length_map.
Qed.

(** ** Arrays *)

Lemma Array_pop_Some {A} (l l' : list A) a :
  Array_pop l = Some (a, l') <-> l = l' ++ [a].
Proof.
  unfold Array_pop. split.
  - destruct (reverse l) as [|b r] eqn:Hr.
    { done. }
    intros [= -> <-].
    rewrite <- (reverse_involutive l), Hr. by rewrite reverse_cons.
  - intros ->. rewrite reverse_app. simpl. by rewrite reverse_involutive.
Qed.

Lemma Array_pop_None {A} (l : list A) : Array_pop l = None <-> l = [].
Proof.
  unfold Array_pop. split.
  - destruct (reverse l) as [|b r] eqn:Hr; [|done]. intros _.
    by rewrite <- (reverse_involutive l), Hr.
  - by intros ->.
Qed.

(** ** Methods of [Cell] on the heap *)

Lemma method_ok f w cell x x' :
  heap w !! cell = Some x -> f x = Some x' ->
  method f cell w = Ok tt (update w cell x').
Proof.
  intros Hx Hf. unfold method. rewrite (bind_ok _ _ _ _ _ (deref_ok _ _ _ Hx)).
  by rewrite Hf.
Qed.

Lemma method_Throw f w cell x :
  heap w !! cell = Some x -> f x = None -> method f cell w = Throw.
Proof.
  intros Hx Hf. unfold method. rewrite (bind_ok _ _ _ _ _ (deref_ok _ _ _ Hx)).
  by rewrite Hf.
Qed.

Lemma update_lookup w cell x cell' :
  (cell < length (heap w))%nat ->
  heap (update w cell x) !! cell' = if decide (cell = cell') then Some x else heap w !! cell'.
Proof.
  intros Hlt. simpl. case_decide as Heq.
  - subst. by apply list_lookup_insert_eq.
  - by apply list_lookup_insert_ne.
Qed.

(** Changing a cell that keeps its coordinates and is valid keeps the world
    well formed. *)
Lemma update_wf w cell x x' :
  wf w -> heap w !! cell = Some x ->
  getCoordinates x' = getCoordinates x ->
  (isAlive x' = true -> has_valid_color x') ->
  wf (update w cell x').
Proof.
  intros Hwf Hx Hc Hv. pose proof (lookup_lt_Some _ _ _ Hx) as Hlt.
  split.
  - apply Hwf.
  - intros k cell' Hin. simpl in Hin.
    destruct (wf_entry w Hwf _ _ Hin) as (y & Hy & Hk & Hb).
    rewrite update_lookup by done. case_decide as Heq.
    + subst. exists x'. rewrite Hc. split; [done|]. 
      assert (y = x) as -> by congruence. done.
    + by exists y.
  - intros cell' y. rewrite update_lookup by done. case_decide as Heq.
    + by intros [= <-].
    + apply (wf_alive w Hwf).
Qed.

(** ** The loop of [tick] *)

Section TickInvariantProofs.
Context {CS : ColorSpace}.

(** *** What the loop leaves unchanged *)

Lemma tick_heap_cellAt w0 w sw c :
  wf w0 ->
  (exists entries, grid w = grid w0 ++ entries /\
     Forall (fun kr => (length (heap w0) <= kr.2)%nat) entries) ->
  tick_heap w0 w sw ->
  aliveAt w c = aliveAt w0 c /\
  (aliveAt w0 c = true -> colorAt w c = colorAt w0 c).
Proof.
  intros Hwf0 (entries & Hgr & Hent) [Hlen Hcell].
  unfold aliveAt, colorAt, cellAt. rewrite Hgr, Map_get_app.
  destruct (Map_get (toString c) (grid w0)) as [cell|] eqn:Hm.
  - destruct (wf_entry w0 Hwf0 _ _ (Map_get_Some _ _ _ Hm)) as (x0 & Hx0 & _).
    rewrite Hx0.
    destruct (lookup_lt_is_Some_2 (heap w) cell) as [x Hx].
    { apply lookup_lt_Some in Hx0. lia. }
    rewrite Hx. destruct (Hcell _ _ Hx) as (_ & Ha & Hc).
    unfold original in *. rewrite Hx0 in *. simpl in *. split; [done|].
    intros Hal. rewrite Hc. rewrite decide_False; [done|]. intros [_ ?]. congruence.
  - split; [|done].
    destruct (Map_get (toString c) entries) as [cell|] eqn:Hm'; [|done].
    destruct (heap w !! cell) as [x|] eqn:Hx; [|done].
    destruct (Hcell _ _ Hx) as (_ & Ha & _).
    rewrite Forall_forall in Hent. specialize (Hent _ (Map_get_Some _ _ _ Hm')).
    simpl in Hent. unfold original in Ha.
    by rewrite (lookup_ge_None_2 (heap w0) cell) in Ha.
Qed.

Lemma tick_inv_aliveAt w0 w ch sw tc c :
  wf w0 -> tick_inv w0 w ch sw tc -> aliveAt w c = aliveAt w0 c.
Proof.
  intros Hwf0 Hinv.
  apply (tick_heap_cellAt w0 w sw c Hwf0 (ti_grid _ _ _ _ _ Hinv) (ti_heap _ _ _ _ _ Hinv)).
Qed.

Lemma tick_inv_colorAt w0 w ch sw tc c :
  wf w0 -> tick_inv w0 w ch sw tc -> aliveAt w0 c = true ->
  colorAt w c = colorAt w0 c.
Proof.
  intros Hwf0 Hinv.
  apply (tick_heap_cellAt w0 w sw c Hwf0 (ti_grid _ _ _ _ _ Hinv) (ti_heap _ _ _ _ _ Hinv)).
Qed.

Lemma tick_inv_moore w0 w ch sw tc c :
  tick_inv w0 w ch sw tc -> moore w c = moore w0 c.
Proof. intros Hinv. apply moore_ext; apply Hinv. Qed.

Lemma tick_inv_liveNeighborsAt w0 w ch sw tc c :
  wf w0 -> tick_inv w0 w ch sw tc -> liveNeighborsAt w c = liveNeighborsAt w0 c.
Proof.
  intros Hwf0 Hinv. unfold liveNeighborsAt.
  rewrite (tick_inv_moore _ _ _ _ _ _ Hinv).
  apply list_filter_iff. intros n.
  by rewrite (tick_inv_aliveAt _ _ _ _ _ _ Hwf0 Hinv).
Qed.

(** A position alive before the tick is owned by the same object since. *)
Lemma tick_inv_owns_alive w0 w ch sw tc c :
  tick_inv w0 w ch sw tc -> aliveAt w0 c = true ->
  exists cell, owns w0 c cell /\ owns w c cell /\ alive_ref w0 cell = true.
Proof.
  intros Hinv Hal. unfold aliveAt, cellAt in Hal.
  destruct (Map_get (toString c) (grid w0)) as [cell|] eqn:Hm; [|done].
  exists cell. split; [done|]. split.
  - destruct (ti_grid _ _ _ _ _ Hinv) as (entries & Hgr & _).
    unfold owns. by rewrite Hgr, Map_get_app, Hm.
  - done.
Qed.

Lemma owns_fun w c cell cell' : owns w c cell -> owns w c cell' -> cell = cell'.
Proof. unfold owns. congruence. Qed.

(** *** The invariant holds at the start *)

Lemma elem_of_Map_values cell (m : list (string * nat)) :
  cell ∈ Map_values m <-> exists k, (k, cell) ∈ m.
Proof.
  unfold Map_values. rewrite list_elem_of_fmap. split.
  - intros ([k v] & -> & Hin). by exists k.
  - intros (k & Hin). by exists (k, cell).
Qed.

Lemma tick_inv_init w0 : wf w0 -> tick_inv w0 w0 [] [] (live_cells w0).
Proof.
  intros Hwf0. split.
  - done.
  - done.
  - done.
  - exists []. by rewrite app_nil_r.
  - split; [done|]. intros cell x Hx. unfold original. rewrite Hx. simpl.
    done.
  - intros cell Hin. simpl in Hin. apply list_elem_of_filter in Hin as [_ Hin].
    apply elem_of_Map_values in Hin as [k Hin].
    destruct (elem_owns w0 k cell Hwf0 Hin) as (x & _ & _ & Ho & _). by eexists.
  - intros cell c []%elem_of_nil.
  - done.
  - constructor.
  - constructor.
  - intros c cell Ho Hal. right. apply list_elem_of_filter. split.
    + by rewrite (owns_alive_ref _ _ _ Ho).
    + apply elem_of_Map_values. exists (toString c). by apply owns_elem.
  - intros c cell n []%elem_of_nil.
  - intros cell c Hin Ho. simpl in Hin. apply list_elem_of_filter in Hin as [Hal _].
    left. by rewrite <- (owns_alive_ref _ _ _ Ho).
Qed.

(** *** Materializing cells keeps the invariant *)

Lemma tick_inv_owns_back w0 w w1 ch sw tc c cell :
  tick_inv w0 w ch sw tc -> grows w w1 -> wf w1 ->
  cell ∈ ch ++ tc -> owns w1 c cell -> owns w c cell.
Proof.
  intros Hinv Hg Hwf1 Hin Ho1.
  destruct (ti_owned _ _ _ _ _ Hinv cell Hin) as [c' Ho].
  by rewrite (owns_inj w1 c c' cell Hwf1 Ho1 (grows_owns _ _ _ _ Hg Ho)).
Qed.

Lemma tick_inv_grows w0 w w1 ch sw tc :
  tick_inv w0 w ch sw tc -> grows w w1 -> wf w1 -> tick_inv w0 w1 ch sw tc.
Proof.
  intros Hinv Hg Hwf1.
  pose proof (ti_heap _ _ _ _ _ Hinv) as [Hlen Hcell].
  assert (forall c cell, cell ∈ ch -> owns w1 c cell -> owns w c cell) as Hback.
  { intros c cell Hin. apply (tick_inv_owns_back _ _ _ _ _ _ _ _ Hinv Hg Hwf1).
    apply elem_of_app. by left. }
  split.
  - done.
  - rewrite (gr_maxX _ _ Hg). apply Hinv.
  - rewrite (gr_maxY _ _ Hg). apply Hinv.
  - destruct (ti_grid _ _ _ _ _ Hinv) as (e0 & Hg0 & He0).
    destruct (gr_grid _ _ Hg) as (e1 & Hg1 & He1).
    exists (e0 ++ e1). split; [by rewrite Hg1, Hg0, app_assoc|].
    apply Forall_app. split; [done|].
    eapply Forall_impl; [done|]. intros kr Hkr. simpl in *. lia.
  - destruct (gr_heap _ _ Hg) as (new & Hh & Hnew). split.
    + rewrite Hh, length_app. lia.
    + intros cell x Hx. rewrite Hh in Hx.
      apply lookup_app_Some in Hx as [Hx|[Hge Hx]]; [by apply Hcell|].
      rewrite Forall_forall in Hnew.
      destruct (Hnew x (list_elem_of_lookup_2 _ _ _ Hx)) as [Hd Hc].
      unfold original. rewrite (lookup_ge_None_2 (heap w0) cell) by lia. simpl.
      split; [done|]. split; [done|]. rewrite decide_False; [done|].
      intros [Hin _]. apply (ti_switch_checked _ _ _ _ _ Hinv) in Hin.
      destruct (ti_owned _ _ _ _ _ Hinv cell) as [c Ho].
      { apply elem_of_app. by left. }
      destruct (owns_lookup w c cell (ti_wf _ _ _ _ _ Hinv) Ho) as (y & Hy & _).
      apply lookup_lt_Some in Hy. lia.
  - intros cell Hin. destruct (ti_owned _ _ _ _ _ Hinv cell Hin) as [c Ho].
    exists c. by eapply grows_owns.
  - intros cell c Hin Ho. apply (ti_switch _ _ _ _ _ Hinv); [done|]. by apply Hback.
  - apply Hinv.
  - apply Hinv.
  - apply Hinv.
  - intros c cell Ho Hal.
    destruct (tick_inv_owns_alive _ _ _ _ _ c Hinv Hal) as (cell0 & _ & Ho0 & _).
    rewrite (owns_fun w1 c cell cell0 Ho (grows_owns _ _ _ _ Hg Ho0)).
    by apply (ti_live _ _ _ _ _ Hinv c).
  - intros c cell n Hin Ho Hal Hn.
    destruct (ti_frontier _ _ _ _ _ Hinv c cell n Hin (Hback _ _ Hin Ho) Hal Hn)
      as (cell' & Ho' & Hin').
    exists cell'. split; [by eapply grows_owns|done].
  - intros cell c Hin Ho. apply (ti_near _ _ _ _ _ Hinv cell c Hin).
    by apply (tick_inv_owns_back _ _ _ _ _ _ _ _ Hinv Hg Hwf1).
Qed.
End TickInvariantProofs.

Section TickStep.
Context {CS : ColorSpace}.

(** *** Listing a cell for a switch *)

Lemma tick_heap_switch_alive w0 w sw cell x :
  tick_heap w0 w sw -> heap w !! cell = Some x -> isAlive x = true ->
  tick_heap w0 w (sw ++ [cell]).
Proof.
  intros [Hlen Hcell] Hx Hal. split; [done|].
  intros cell' x' Hx'. destruct (Hcell _ _ Hx') as (Hc & Ha & Hcol).
  split; [done|]. split; [done|]. rewrite Hcol.
  destruct (decide (cell' ∈ sw /\ isAlive x' = false)) as [[Hin Hd]|Hn].
  - rewrite decide_True; [done|]. split; [|done]. apply elem_of_app. by left.
  - rewrite decide_False; [done|]. intros [Hin Hd]. apply Hn. split; [|done].
    apply elem_of_app in Hin as [Hin|Hin]; [done|].
    apply list_elem_of_singleton in Hin. subst. congruence.
Qed.

Lemma tick_heap_birth w0 w sw cell x color :
  tick_heap w0 w sw -> heap w !! cell = Some x -> isAlive x = false ->
  birth_color w0 (getCoordinates x) = Some color ->
  tick_heap w0 (update w cell (mkCell (getCoordinates x) (isAlive x) (Some color)))
            (sw ++ [cell]).
Proof.
  intros [Hlen Hcell] Hx Hd Hb. pose proof (lookup_lt_Some _ _ _ Hx) as Hlt.
  split; [by simpl; rewrite length_insert|].
  intros cell' x'. rewrite update_lookup by done. case_decide as Heq.
  - intros [= <-]. subst cell'. simpl.
    destruct (Hcell _ _ Hx) as (Hc & Ha & _). unfold original in *. simpl.
    split; [done|]. split; [done|].
    rewrite decide_True; [done|]. split; [|done]. apply elem_of_app. right. left.
  - intros Hx'. destruct (Hcell _ _ Hx') as (Hc & Ha & Hcol).
    split; [done|]. split; [done|]. rewrite Hcol.
    destruct (decide (cell' ∈ sw /\ isAlive x' = false)) as [[Hin Hd']|Hn].
    + rewrite decide_True; [done|]. split; [|done]. apply elem_of_app. by left.
    + rewrite decide_False; [done|]. intros [Hin Hd']. apply Hn. split; [|done].
      apply elem_of_app in Hin as [Hin|Hin]; [done|].
      apply list_elem_of_singleton in Hin. by subst.
Qed.

(** *** One iteration on a cell not checked before *)

Lemma Forall2_owns_elem w cs cells n :
  Forall2 (owns w) cs cells -> n ∈ cs -> exists cell, cell ∈ cells /\ owns w n cell.
Proof.
  induction 1 as [|c cell cs cells Ho Hall IH]; [by intros []%elem_of_nil|].
  intros [->|Hin]%elem_of_cons.
  - exists cell. split; [left|done].
  - destruct (IH Hin) as (cell' & Hin' & Ho'). exists cell'. split; [by right|done].
Qed.

Lemma Forall2_owns_elem_r w cs cells cell :
  Forall2 (owns w) cs cells -> cell ∈ cells -> exists n, n ∈ cs /\ owns w n cell.
Proof.
  induction 1 as [|c cell0 cs cells Ho Hall IH]; [by intros []%elem_of_nil|].
  intros [->|Hin]%elem_of_cons.
  - exists c. split; [left|done].
  - destruct (IH Hin) as (n & Hin' & Ho'). exists n. split; [by right|done].
Qed.

Lemma liveCount_pos w c n :
  n ∈ moore w c -> aliveAt w n = true -> (0 < liveCount w c)%nat.
Proof.
  intros Hn Hal. unfold liveCount.
  assert (n ∈ liveNeighborsAt w c) as Hin by by apply list_elem_of_filter.
  destruct (liveNeighborsAt w c); [by apply elem_of_nil in Hin|simpl; lia].
Qed.

(** The bookkeeping of one iteration: [cell] moves from [cellsToCheck] to
    [cellsChecked], is listed for a switch when the rule flips it, and
    brings its neighbors when it is alive. *)
Lemma tick_inv_advance w0 w1 w' ch sw rest cell c nbs :
  wf w0 ->
  tick_inv w0 w1 ch sw (rest ++ [cell]) ->
  cell ∉ ch -> owns w1 c cell ->
  Forall2 (owns w1) (moore w0 c) nbs ->
  let sw' := if flips w0 c then sw ++ [cell] else sw in
  let nbs' := if aliveAt w0 c then nbs else [] in
  grid w' = grid w1 -> maxX w' = maxX w1 -> maxY w' = maxY w1 ->
  wf w' -> tick_heap w0 w' sw' ->
  tick_inv w0 w' (cell :: ch) sw' (rest ++ nbs').
Proof.
  intros Hwf0 Hinv Hnc Hown Hall sw' nbs' Hgr Hmx Hmy Hwf' Hheap.
  assert (forall c cell, owns w' c cell <-> owns w1 c cell) as Hiff.
  { intros ??. unfold owns. by rewrite Hgr. }
  pose proof (ti_wf _ _ _ _ _ Hinv) as Hwf1.
  assert (cell ∉ sw) as Hnsw.
  { intros Hin. by apply Hnc, (ti_switch_checked _ _ _ _ _ Hinv). }
  assert (forall cell0, cell0 ∈ ch \/ cell0 ∈ rest ++ [cell] ->
                        cell0 ∈ cell :: ch \/ cell0 ∈ rest ++ nbs') as Hmem.
  { intros cell0 [Hin|[Hin|Hin]%elem_of_app].
    - left. by right.
    - right. apply elem_of_app. by left.
    - apply list_elem_of_singleton in Hin. subst. left. left. }
  assert (forall cell0, cell0 ∈ ch -> cell0 ∈ sw' <-> cell0 ∈ sw) as Hsw.
  { intros cell0 Hin. unfold sw'. destruct (flips w0 c); [|done].
    rewrite elem_of_app, list_elem_of_singleton. split; [|by left].
    intros [?|?]; [done|]. by subst. }
  split.
  - done.
  - rewrite Hmx. apply Hinv.
  - rewrite Hmy. apply Hinv.
  - rewrite Hgr. apply Hinv.
  - done.
  - intros cell0 Hin. setoid_rewrite Hiff.
    apply elem_of_app in Hin as [[->|Hin]%elem_of_cons|[Hin|Hin]%elem_of_app].
    + by exists c.
    + apply (ti_owned _ _ _ _ _ Hinv). apply elem_of_app. by left.
    + apply (ti_owned _ _ _ _ _ Hinv). rewrite !elem_of_app. right. by left.
    + unfold nbs' in Hin. destruct (aliveAt w0 c); [|by apply elem_of_nil in Hin].
      destruct (Forall2_owns_elem_r _ _ _ _ Hall Hin) as (n & _ & Ho). by exists n.
  - intros cell0 c0 Hin Ho. apply Hiff in Ho.
    apply elem_of_cons in Hin as [->|Hin].
    + rewrite (owns_inj w1 c0 c cell Hwf1 Ho Hown). unfold sw'.
      destruct (flips w0 c) eqn:Hf.
      * split; [done|]. intros _. apply elem_of_app. right. left.
      * split; [by intros ?|done].
    + rewrite (Hsw _ Hin). by apply (ti_switch _ _ _ _ _ Hinv).
  - intros cell0 Hin. unfold sw' in Hin.
    destruct (flips w0 c).
    + apply elem_of_app in Hin as [Hin|Hin].
      * right. by apply (ti_switch_checked _ _ _ _ _ Hinv).
      * apply list_elem_of_singleton in Hin. subst. left.
    + right. by apply (ti_switch_checked _ _ _ _ _ Hinv).
  - unfold sw'. destruct (flips w0 c); [|apply Hinv].
    apply NoDup_app. split; [apply Hinv|]. split; [|apply NoDup_singleton].
    intros cell0 Hin ->%list_elem_of_singleton. done.
  - apply NoDup_cons. split; [done|apply Hinv].
  - intros c0 cell0 Ho Hal. apply Hiff in Ho. apply Hmem.
    by apply (ti_live _ _ _ _ _ Hinv c0).
  - intros c0 cell0 n Hin Ho Hal Hn. apply Hiff in Ho. setoid_rewrite Hiff.
    apply elem_of_cons in Hin as [->|Hin].
    + rewrite (owns_inj w1 c0 c cell Hwf1 Ho Hown) in *.
      destruct (Forall2_owns_elem _ _ _ _ Hall Hn) as (nb & Hnb & Hon).
      exists nb. split; [done|]. right. apply elem_of_app. right.
      unfold nbs'. by rewrite Hal.
    + destruct (ti_frontier _ _ _ _ _ Hinv c0 cell0 n Hin Ho Hal Hn)
        as (cell' & Ho' & Hin').
      exists cell'. split; [done|]. by apply Hmem.
  - intros cell0 c0 Hin Ho. apply Hiff in Ho.
    apply elem_of_app in Hin as [[->|Hin]%elem_of_cons|[Hin|Hin]%elem_of_app].
    + apply (ti_near _ _ _ _ _ Hinv cell c0); [|done].
      rewrite !elem_of_app. right. right. left.
    + apply (ti_near _ _ _ _ _ Hinv cell0 c0); [|done]. apply elem_of_app. by left.
    + apply (ti_near _ _ _ _ _ Hinv cell0 c0); [|done].
      rewrite !elem_of_app. right. by left.
    + unfold nbs' in Hin. destruct (aliveAt w0 c) eqn:Hal; [|by apply elem_of_nil in Hin].
      destruct (Forall2_owns_elem_r _ _ _ _ Hall Hin) as (n & Hn & Hon).
      rewrite (owns_inj w1 c0 n cell0 Hwf1 Ho Hon). right.
      apply (liveCount_pos w0 n c); [|done].
      apply moore_sym; [|done].
      destruct (owns_lookup w1 c cell Hwf1 Hown) as (x & _ & _ & Hb).
      by rewrite <- (in_bounds_ext w0 w1 c (ti_maxX _ _ _ _ _ Hinv) (ti_maxY _ _ _ _ _ Hinv)).
Qed.
End TickStep.

Section TickCheck.
Context {CS : ColorSpace}.

Lemma rule_alive n : xorb true (rule true n) = (n <? 2)%nat || (3 <? n)%nat.
Proof.
  unfold rule. simpl.
  destruct (n =? 2)%nat eqn:H2, (n =? 3)%nat eqn:H3, (n <? 2)%nat eqn:Hl,
           (3 <? n)%nat eqn:Hg; simpl; try done;
    rewrite ?Nat.eqb_eq, ?Nat.eqb_neq, ?Nat.ltb_lt, ?Nat.ltb_ge in *; lia.
Qed.

Lemma rule_dead n : xorb false (rule false n) = (n =? 3)%nat.
Proof. done. Qed.

Lemma Forall2_owns_is_Some w cs cells :
  wf w -> Forall2 (owns w) cs cells ->
  Forall (fun cell => is_Some (heap w !! cell)) cells.
Proof.
  intros Hwf. induction 1 as [|c cell cs cells Ho Hall IH]; constructor; [|done].
  destruct (owns_lookup w c cell Hwf Ho) as (x & Hx & _). by exists x.
Qed.

Lemma owns_colorAt w c cell x :
  owns w c cell -> heap w !! cell = Some x -> colorAt w c = getColor x.
Proof. unfold owns, colorAt, cellAt. by intros -> ->. Qed.

Lemma owns_aliveAt w c cell x :
  owns w c cell -> heap w !! cell = Some x -> aliveAt w c = isAlive x.
Proof. unfold owns, aliveAt, cellAt. by intros -> ->. Qed.

(** The color of a live cell the grid owns. *)
Lemma colorOf_alive w c cell :
  wf w -> owns w c cell -> aliveAt w c = true ->
  exists color, colorOf cell w = Ok color w /\ colorAt w c = Some color /\
                valid_color color = true.
Proof.
  intros Hwf Ho Hal. destruct (owns_lookup w c cell Hwf Ho) as (x & Hx & _).
  rewrite (owns_aliveAt _ _ _ _ Ho Hx) in Hal.
  destruct (wf_alive w Hwf cell x Hx Hal) as (color & Hc & Hv).
  exists color. split; [|split; [|done]].
  - unfold colorOf. rewrite (bind_ok _ _ _ _ _ (deref_ok _ _ _ Hx)). by rewrite Hc.
  - by rewrite (owns_colorAt _ _ _ _ Ho Hx).
Qed.

(** A dead cell with exactly three live neighbors has a color to be born
    with. *)
Lemma birth_color_some w c :
  wf w -> aliveAt w c = false -> flips w c = true ->
  exists color, birth_color w c = Some color.
Proof.
  intros Hwf Hd Hf. unfold flips in Hf. rewrite Hd in Hf. simpl in Hf.
  apply Nat.eqb_eq in Hf. unfold liveCount in Hf. unfold birth_color.
  assert (forall p, p ∈ liveNeighborsAt w c -> exists color, colorAt w p = Some color) as Hcol.
  { intros p [Hal _]%list_elem_of_filter. unfold aliveAt, colorAt in *.
    unfold cellAt in *.
    destruct (Map_get (toString p) (grid w)) as [cell|] eqn:Hm; [|done].
    destruct (heap w !! cell) as [x|] eqn:Hx; [|done].
    destruct (wf_alive w Hwf cell x Hx Hal) as (color & Hc & _). by exists color. }
  destruct (liveNeighborsAt w c) as [|p0 [|p1 [|p2 [|]]]]; try done.
  destruct (Hcol p0) as [c0 ->]; [left|].
  destruct (Hcol p1) as [c1 ->]; [right; left|].
  destruct (Hcol p2) as [c2 ->]; [do 2 right; left|].
  by eexists.
Qed.

Lemma birth_color_blend w c color :
  birth_color w c = Some color -> exists c0 c1 c2, color = blend c0 c1 c2.
Proof.
  unfold birth_color. destruct (liveNeighborsAt w c) as [|p0 [|p1 [|p2 ps]]]; try done.
  destruct (colorAt w p0) as [c0|]; [|done]. destruct (colorAt w p1) as [c1|]; [|done].
  destruct (colorAt w p2) as [c2|]; [|done]. intros [= <-]. by exists c0, c1, c2.
Qed.

(** The colors of the package are valid, when its conversion stays within
    the range. *)
Lemma rgb_in_range_births_valid w : rgb_in_range CS -> births_valid w.
Proof.
  intros Hrange c color _ _ _ (c0 & c1 & c2 & ->)%birth_color_blend.
  unfold blend. destruct (rgb_lab c0) as [[??]?], (rgb_lab c1) as [[??]?],
    (rgb_lab c2) as [[??]?]. apply Hrange.
Qed.

Lemma birth_color_valid w c :
  rgb_in_range CS -> wf w -> aliveAt w c = false -> flips w c = true ->
  exists color, birth_color w c = Some color /\ valid_color color = true.
Proof.
  intros Hrange Hwf Hd Hf. destruct (birth_color_some w c Hwf Hd Hf) as [color Hb].
  exists color. split; [done|].
  destruct (birth_color_blend w c color Hb) as (c0 & c1 & c2 & ->).
  unfold blend. destruct (rgb_lab c0) as [[??]?], (rgb_lab c1) as [[??]?],
    (rgb_lab c2) as [[??]?]. apply Hrange.
Qed.

(** One iteration of the loop on a cell not checked before: it keeps the
    invariant, or it throws at the [setColor] of a cell to revive whose
    color is not valid. *)
Lemma check_outcome w0 w ch sw rest cell :
  wf w0 ->
  tick_inv w0 w ch sw (rest ++ [cell]) -> cell ∉ ch ->
  (exists sw' nbs' w',
     check cell sw w = Ok (sw', nbs') w' /\
     tick_inv w0 w' (cell :: ch) sw' (rest ++ nbs') /\
     (length nbs' <= 8)%nat /\
     (nbs' = [] \/ cell ∈ live_cells w0) /\
     (forall c cell', owns w c cell' -> owns w' c cell') /\
     (forall c, owns w c cell -> aliveAt w0 c = false -> liveCount w0 c = 3%nat ->
        exists color, birth_color w0 c = Some color /\ valid_color color = true)) \/
  (check cell sw w = Throw /\
   exists c color,
     in_bounds w0 c = true /\ aliveAt w0 c = false /\ liveCount w0 c = 3%nat /\
     birth_color w0 c = Some color /\ valid_color color = false).
Proof.
  intros Hwf0 Hinv Hnc.
  destruct (ti_owned _ _ _ _ _ Hinv cell) as [c Hown].
  { rewrite !elem_of_app. right. right. left. }
  destruct (owns_lookup w c cell (ti_wf _ _ _ _ _ Hinv) Hown) as (x & Hx & Hcx & Hbc).
  destruct (neighbors_spec w cell x (ti_wf _ _ _ _ _ Hinv) Hx)
    as (nbs & w1 & Hnb & Hg & Hwf1 & Hall).
  rewrite Hcx, (tick_inv_moore _ _ _ _ _ _ Hinv) in Hall.
  pose proof (tick_inv_grows _ _ _ _ _ _ Hinv Hg Hwf1) as Hinv1.
  pose proof (grows_owns _ _ _ _ Hg Hown) as Hown1.
  pose proof (grows_lookup _ _ _ _ Hg Hx) as Hx1.
  pose proof (filterAlive_spec nbs w1 (Forall2_owns_is_Some _ _ _ Hwf1 Hall)) as Hlive.
  set (live := filter (fun cell => alive_ref w1 cell = true) nbs) in *.
  assert (Forall2 (owns w1) (liveNeighborsAt w0 c) live) as Hlv.
  { rewrite <- (tick_inv_liveNeighborsAt _ _ _ _ _ c Hwf0 Hinv1).
    unfold liveNeighborsAt. rewrite (tick_inv_moore _ _ _ _ _ _ Hinv1).
    by apply Forall2_owns_filter. }
  assert (length live = liveCount w0 c) as Hn.
  { symmetry. by eapply Forall2_length. }
  assert (isAlive x = aliveAt w0 c) as Hax.
  { by rewrite <- (tick_inv_aliveAt _ _ _ _ _ c Hwf0 Hinv1),
               (owns_aliveAt _ _ _ _ Hown1 Hx1). }
  assert (length nbs <= 8)%nat as Hlen.
  { rewrite <- (Forall2_length _ _ _ Hall). apply moore_length. }
  assert (aliveAt w0 c = true -> cell ∈ live_cells w0) as Hlc.
  { intros Hal. destruct (tick_inv_owns_alive _ _ _ _ _ c Hinv1 Hal)
      as (cell0 & Ho0 & Ho1 & Hal0).
    rewrite (owns_fun _ _ _ _ Hown1 Ho1). apply list_elem_of_filter. split; [done|].
    apply elem_of_Map_values. exists (toString c). by apply owns_elem. }
  assert (forall sw' w',
    (if flips w0 c then sw ++ [cell] else sw) = sw' ->
    grid w' = grid w1 -> maxX w' = maxX w1 -> maxY w' = maxY w1 ->
    wf w' -> tick_heap w0 w' sw' ->
    (aliveAt w0 c = false -> liveCount w0 c = 3%nat ->
     exists color, birth_color w0 c = Some color /\ valid_color color = true) ->
    tick_inv w0 w' (cell :: ch) sw' (rest ++ if isAlive x then nbs else []) /\
    (length (if isAlive x then nbs else []) <= 8)%nat /\
    ((if isAlive x then nbs else []) = [] \/ cell ∈ live_cells w0) /\
    (forall c cell', owns w c cell' -> owns w' c cell') /\
    (forall c, owns w c cell -> aliveAt w0 c = false -> liveCount w0 c = 3%nat ->
       exists color, birth_color w0 c = Some color /\ valid_color color = true))
    as Hfinish.
  { intros sw' w' <- Hgr Hmx Hmy Hwf' Hheap Hbirth. split; [|split; [|split; [|split]]].
    - rewrite Hax.
      by apply (tick_inv_advance w0 w1 w' ch sw rest cell c nbs).
    - destruct (isAlive x); [done|simpl; lia].
    - rewrite Hax. destruct (aliveAt w0 c); [right; by apply Hlc|by left].
    - intros c' cell' Ho. apply (grows_owns _ _ _ _ Hg) in Ho.
      unfold owns in *. by rewrite Hgr.
    - intros c' Ho. rewrite (owns_inj w c' c cell (ti_wf _ _ _ _ _ Hinv) Ho Hown).
      apply Hbirth. }
  unfold check.
  rewrite (bind_ok _ _ _ _ _ Hnb), (bind_ok _ _ _ _ _ Hlive),
          (bind_ok _ _ _ _ _ (deref_ok _ _ _ Hx1)).
  rewrite Hn. unfold flips in Hfinish. rewrite <- Hax in Hfinish.
  destruct (isAlive x) eqn:Hal.
  - (* a live cell *)
    rewrite rule_alive in Hfinish. simpl. left.
    destruct ((liveCount w0 c <? 2)%nat || (3 <? liveCount w0 c)%nat) eqn:Hc.
    + exists (sw ++ [cell]), nbs, w1. split; [done|].
      apply Hfinish; try done.
      by apply (tick_heap_switch_alive _ _ _ _ x (ti_heap _ _ _ _ _ Hinv1)).
    + exists sw, nbs, w1. split; [done|].
      apply Hfinish; try done. apply Hinv1.
  - (* a dead cell *)
    rewrite rule_dead in Hfinish. simpl.
    destruct (liveCount w0 c =? 3)%nat eqn:Hc.
    + apply Nat.eqb_eq in Hc. pose proof Hc as Hc3. rewrite <- Hn in Hc.
      destruct live as [|n0 [|n1 [|n2 [|]]]]; try done.
      apply Forall2_cons_inv_r in Hlv as (p0 & ps0 & Ho0 & Hlv & Hl0).
      apply Forall2_cons_inv_r in Hlv as (p1 & ps1 & Ho1 & Hlv & Hl1).
      apply Forall2_cons_inv_r in Hlv as (p2 & ps2 & Ho2 & Hlv & Hl2).
      apply Forall2_nil_inv_r in Hlv. subst ps2 ps1 ps0.
      assert (forall p, p ∈ liveNeighborsAt w0 c -> aliveAt w1 p = true) as Halive.
      { intros p Hp. rewrite (tick_inv_aliveAt _ _ _ _ _ p Hwf0 Hinv1).
        by apply list_elem_of_filter in Hp as [Hp _]. }
      rewrite Hl0 in Halive.
      destruct (colorOf_alive w1 p0 n0 Hwf1 Ho0) as (c0 & Hc0 & Hk0 & Hv0).
      { apply Halive. left. }
      destruct (colorOf_alive w1 p1 n1 Hwf1 Ho1) as (c1 & Hc1 & Hk1 & Hv1).
      { apply Halive. right. left. }
      destruct (colorOf_alive w1 p2 n2 Hwf1 Ho2) as (c2 & Hc2 & Hk2 & Hv2).
      { apply Halive. do 2 right. left. }
      assert (birth_color w0 (getCoordinates x) = Some (blend c0 c1 c2)) as Hbirth.
      { unfold birth_color. rewrite Hcx, Hl0.
        rewrite <- (tick_inv_colorAt _ _ _ _ _ p0 Hwf0 Hinv1), Hk0.
        2:{ rewrite <- (tick_inv_aliveAt _ _ _ _ _ p0 Hwf0 Hinv1). apply Halive. left. }
        rewrite <- (tick_inv_colorAt _ _ _ _ _ p1 Hwf0 Hinv1), Hk1.
        2:{ rewrite <- (tick_inv_aliveAt _ _ _ _ _ p1 Hwf0 Hinv1). apply Halive.
            right. left. }
        rewrite <- (tick_inv_colorAt _ _ _ _ _ p2 Hwf0 Hinv1), Hk2.
        2:{ rewrite <- (tick_inv_aliveAt _ _ _ _ _ p2 Hwf0 Hinv1). apply Halive.
            do 2 right. left. }
        done. }
      destruct (valid_color (blend c0 c1 c2)) eqn:Hvalid.
      * set (x' := mkCell (getCoordinates x) (isAlive x) (Some (blend c0 c1 c2))).
        assert (setColor (blend c0 c1 c2) cell w1 = Ok tt (update w1 cell x')) as Hset.
        { apply (method_ok _ _ _ x); [done|]. unfold Cell_setColor. by rewrite Hvalid. }
        left. exists (sw ++ [cell]), [], (update w1 cell x'). split.
        { erewrite bind_ok; [done|].
          rewrite (bind_ok _ _ _ _ _ Hc0), (bind_ok _ _ _ _ _ Hc1),
                  (bind_ok _ _ _ _ _ Hc2), (bind_ok _ _ _ _ _ Hset). done. }
        apply Hfinish; try done.
        -- apply (update_wf w1 cell x x' Hwf1 Hx1); [done|].
           unfold x'. simpl. congruence.
        -- unfold x'. by apply tick_heap_birth; [apply Hinv1|..].
        -- intros _ _. exists (blend c0 c1 c2). by rewrite <- Hcx.
      * right. split.
        { unfold bind at 1.
          rewrite (bind_ok _ _ _ _ _ Hc0), (bind_ok _ _ _ _ _ Hc1),
                  (bind_ok _ _ _ _ _ Hc2).
          unfold bind at 1. unfold setColor.
          rewrite (method_Throw _ w1 cell x Hx1); [done|].
          unfold Cell_setColor. by rewrite Hvalid. }
        exists c, (blend c0 c1 c2).
        rewrite (in_bounds_ext w0 w c (ti_maxX _ _ _ _ _ Hinv) (ti_maxY _ _ _ _ _ Hinv)) in Hbc.
        split; [done|]. split; [by rewrite <- Hax|]. split; [done|].
        split; [by rewrite <- Hcx|done].
    + left. exists sw, [], w1. split; [done|].
      apply Hfinish; try done; [apply Hinv1|].
      intros _ H3. rewrite H3 in Hc. done.
Qed.

Lemma check_step w0 w ch sw rest cell :
  rgb_in_range CS -> wf w0 ->
  tick_inv w0 w ch sw (rest ++ [cell]) -> cell ∉ ch ->
  exists sw' nbs' w',
    check cell sw w = Ok (sw', nbs') w' /\
    tick_inv w0 w' (cell :: ch) sw' (rest ++ nbs') /\
    (length nbs' <= 8)%nat /\
    (nbs' = [] \/ cell ∈ live_cells w0).
Proof.
  intros Hrange Hwf0 Hinv Hnc.
  destruct (check_outcome w0 w ch sw rest cell Hwf0 Hinv Hnc)
    as [(sw' & nbs' & w' & Hcheck & Hinv' & Hlen & Hlive & _)
       |[_ (c & color & Hb & Hd & Hn & Hbirth & Hv)]].
  - by exists sw', nbs', w'.
  - rewrite (rgb_in_range_births_valid w0 Hrange c color Hb Hd Hn Hbirth) in Hv. done.
Qed.
End TickCheck.

Section TickLoop.
Context {CS : ColorSpace}.

Lemma unchecked_cons_le live ch cell :
  (length (unchecked live (cell :: ch)) <= length (unchecked live ch))%nat.
Proof.
  unfold unchecked. induction live as [|a live IH]; [done|].
  rewrite !filter_cons. destruct (decide (a ∉ cell :: ch)) as [Hn|Hn].
  - rewrite decide_True; [simpl; lia|]. intros Hin. apply Hn. by right.
  - case_decide; simpl; lia.
Qed.

Lemma unchecked_cons_lt live ch cell :
  cell ∈ live -> cell ∉ ch ->
  (length (unchecked live (cell :: ch)) < length (unchecked live ch))%nat.
Proof.
  unfold unchecked. induction live as [|a live IH]; [by intros []%elem_of_nil|].
  intros Hin Hnc. rewrite !filter_cons.
  pose proof (unchecked_cons_le live ch cell) as Hle. unfold unchecked in Hle.
  destruct (decide (a = cell)) as [->|Hne].
  - rewrite decide_False; [|intros Hn; apply Hn; left].
    rewrite decide_True by done. simpl. lia.
  - apply elem_of_cons in Hin as [->|Hin]; [done|]. specialize (IH Hin Hnc).
    destruct (decide (a ∉ cell :: ch)) as [Hn|Hn].
    + rewrite decide_True; [simpl; lia|]. intros Hin'. apply Hn. by right.
    + case_decide; simpl; lia.
Qed.

Lemma tick_inv_perm w0 w ch sw tc tc' :
  tc ≡ₚ tc' -> tick_inv w0 w ch sw tc -> tick_inv w0 w ch sw tc'.
Proof.
  intros Hp [Hwf Hmx Hmy Hgr Hheap Howned Hswitch Hsub Hnd Hndc Hlive Hfront Hnear].
  split; try done.
  - intros cell Hin. apply Howned. by rewrite Hp.
  - intros c cell Ho Hal. rewrite <- Hp. by apply (Hlive c).
  - intros c cell n Hin Ho Hal Hn.
    destruct (Hfront c cell n Hin Ho Hal Hn) as (cell' & Ho' & Hin').
    exists cell'. split; [done|]. by rewrite <- Hp.
  - intros cell c Hin. apply Hnear. by rewrite Hp.
Qed.

(** A cell popped again after it was checked is dropped. *)
Lemma tick_inv_skip w0 w ch sw rest cell :
  tick_inv w0 w ch sw (cell :: rest) -> cell ∈ ch -> tick_inv w0 w ch sw rest.
Proof.
  intros [Hwf Hmx Hmy Hgr Hheap Howned Hswitch Hsub Hnd Hndc Hlive Hfront Hnear] Hch.
  split; try done.
  - intros cell0 Hin. apply Howned. rewrite elem_of_app, elem_of_cons in *. tauto.
  - intros c cell0 Ho Hal.
    destruct (Hlive c cell0 Ho Hal) as [?|[->|?]%elem_of_cons]; [by left|by left|by right].
  - intros c cell0 n Hin Ho Hal Hn.
    destruct (Hfront c cell0 n Hin Ho Hal Hn) as (cell' & Ho' & Hin').
    exists cell'. split; [done|].
    destruct Hin' as [?|[->|?]%elem_of_cons]; [by left|by left|by right].
  - intros cell0 c Hin. apply Hnear. rewrite elem_of_app, elem_of_cons in *. tauto.
Qed.

(** With fuel above nine per unchecked live cell plus the length of
    [cellsToCheck], the loop returns, in whatever order it visits, and the
    invariant holds with nothing left to check. *)
(** The loop, for any order of visiting: it returns with the invariant,
    or it throws because a cell to revive is given a color that is not
    valid. It never runs out of the fuel it is given. *)
Lemma tick_loop_any_outcome pick w0 fuel : forall w ch sw tc,
  takes_one pick -> wf w0 ->
  tick_inv w0 w ch sw tc -> checked_births_valid w0 w ch ->
  (9 * length (unchecked (live_cells w0) ch) + length tc < fuel)%nat ->
  (exists ch' sw' w',
     tick_loop_any pick fuel ch sw tc w = Ok (ch', sw') w' /\
     tick_inv w0 w' ch' sw' [] /\ checked_births_valid w0 w' ch') \/
  (tick_loop_any pick fuel ch sw tc w = Throw /\ ~ births_valid w0).
Proof.
  induction fuel as [|fuel IH]; intros w ch sw tc Hpick Hwf0 Hinv Hvalid Hfuel; [lia|].
  simpl. pose proof (Hpick tc) as Htc.
  destruct (pick tc) as [[cell rest]|].
  - rewrite Htc in Hfuel. simpl in Hfuel.
    apply (tick_inv_perm _ _ _ _ _ _ Htc) in Hinv.
    case_decide as Hch.
    + apply IH; [done..| |done|lia]. by apply (tick_inv_skip _ _ _ _ _ cell).
    + assert (cell :: rest ≡ₚ rest ++ [cell]) as Hp by by rewrite Permutation_app_comm.
      apply (tick_inv_perm _ _ _ _ _ _ Hp) in Hinv.
      destruct (check_outcome w0 w ch sw rest cell Hwf0 Hinv Hch)
        as [(sw' & nbs' & w' & Hcheck & Hinv' & Hlen & Hlive & Hkeep & Hborn)
           |[Hthrow (c & color & Hb & Hd & Hn & Hbirth & Hv)]].
      * rewrite (bind_ok _ _ _ _ _ Hcheck). simpl.
        apply IH; [done..| |].
        -- intros c cell0 Hin Ho Hd Hn.
           destruct (ti_owned _ _ _ _ _ Hinv cell0) as [c1 Ho1].
           { rewrite elem_of_app. apply elem_of_cons in Hin as [->|Hin]; [|by left].
             right. rewrite elem_of_app. right. left. }
           rewrite (owns_inj w' c c1 cell0 (ti_wf _ _ _ _ _ Hinv') Ho (Hkeep _ _ Ho1))
             in Hd, Hn |- *.
           apply elem_of_cons in Hin as [->|Hin].
           ++ by apply Hborn.
           ++ by apply (Hvalid c1 cell0).
        -- rewrite length_app.
           pose proof (unchecked_cons_le (live_cells w0) ch cell) as Hle.
           destruct Hlive as [->|Hlive]; [simpl; lia|].
           pose proof (unchecked_cons_lt (live_cells w0) ch cell Hlive Hch). lia.
      * right. split; [unfold bind; by rewrite Hthrow|].
        intros Hall. by rewrite (Hall c color Hb Hd Hn Hbirth) in Hv.
  - subst tc. left. by exists ch, sw, w.
Qed.

Lemma tick_loop_any_spec pick w0 fuel : forall w ch sw tc,
  takes_one pick -> rgb_in_range CS -> wf w0 ->
  tick_inv w0 w ch sw tc ->
  (9 * length (unchecked (live_cells w0) ch) + length tc < fuel)%nat ->
  exists ch' sw' w',
    tick_loop_any pick fuel ch sw tc w = Ok (ch', sw') w' /\
    tick_inv w0 w' ch' sw' [].
Proof.
  intros w ch sw tc Hpick Hrange Hwf0 Hinv Hfuel.
  destruct (tick_loop_any_outcome pick w0 fuel w ch sw tc Hpick Hwf0 Hinv)
    as [(ch' & sw' & w' & Hloop & Hinv' & _)|[_ Hnot]]; [|done|..].
  - intros c cell _ _ Hd Hn. apply birth_color_valid; [done..|].
    unfold flips. rewrite Hd, Hn. done.
  - by exists ch', sw', w'.
  - destruct Hnot. by apply rgb_in_range_births_valid.
Qed.

Lemma Array_pop_takes_one : takes_one Array_pop.
Proof.
  intros l. destruct (Array_pop l) as [[cell rest]|] eqn:Hpop.
  - apply Array_pop_Some in Hpop as ->. by rewrite Permutation_app_comm.
  - by apply Array_pop_None.
Qed.

(** The loop of the source is the loop that pops the last element. *)
Lemma tick_loop_any_pop fuel : forall ch sw tc w,
  tick_loop_any Array_pop fuel ch sw tc w = tick_loop fuel ch sw tc w.
Proof.
  induction fuel as [|fuel IH]; intros ch sw tc w; [done|].
  simpl. destruct (Array_pop tc) as [[cell rest]|]; [|done].
  case_decide; [done|]. unfold bind. by destruct (check cell sw w).
Qed.

Lemma tick_loop_spec w0 fuel w ch sw tc :
  rgb_in_range CS -> wf w0 ->
  tick_inv w0 w ch sw tc ->
  (9 * length (unchecked (live_cells w0) ch) + length tc < fuel)%nat ->
  exists ch' sw' w',
    tick_loop fuel ch sw tc w = Ok (ch', sw') w' /\ tick_inv w0 w' ch' sw' [].
Proof.
  intros Hrange Hwf0 Hinv Hfuel. rewrite <- tick_loop_any_pop.
  by apply tick_loop_any_spec; [apply Array_pop_takes_one|..].
Qed.

(** *** Applying the switches *)

Lemma switch_ok w cell x :
  heap w !! cell = Some x ->
  (isAlive x = false -> is_Some (getColor x)) ->
  switch cell w = Ok tt (update w cell (switched x)).
Proof.
  intros Hx Hc. unfold switch. rewrite (bind_ok _ _ _ _ _ (deref_ok _ _ _ Hx)).
  unfold switched. destruct (isAlive x) eqn:Hal.
  - by apply (method_ok _ _ _ x).
  - destruct (Hc eq_refl) as [color Hcol].
    apply (method_ok _ _ _ x); [done|]. unfold Cell_setAlive. by rewrite Hcol.
Qed.

Lemma forEach_switch sw : forall w,
  wf w -> NoDup sw ->
  (forall cell, cell ∈ sw ->
     exists x, heap w !! cell = Some x /\ (isAlive x = false -> has_valid_color x)) ->
  exists w', forEach switch sw w = Ok tt w' /\ wf w' /\
    grid w' = grid w /\ maxX w' = maxX w /\ maxY w' = maxY w /\
    random w' = random w /\
    forall cell, heap w' !! cell =
      if decide (cell ∈ sw) then switched <$> heap w !! cell else heap w !! cell.
Proof.
  induction sw as [|cell sw IH]; intros w Hwf Hnd Hall.
  - exists w. do 6 (split; [done|]).
    intros cell. rewrite decide_False; [done|]. apply not_elem_of_nil.
  - apply NoDup_cons in Hnd as [Hnin Hnd].
    destruct (Hall cell) as (x & Hx & Hc); [left|].
    pose proof (lookup_lt_Some _ _ _ Hx) as Hlt.
    assert (switch cell w = Ok tt (update w cell (switched x))) as Hsw.
    { apply switch_ok; [done|]. intros Hd. destruct (Hc Hd) as (color & -> & _). by eexists. }
    destruct (IH (update w cell (switched x))) as (w' & Hrest & Hwf' & Hg & Hmx & Hmy & Hr & Hheap).
    + apply (update_wf w cell x); [done..| |].
      * unfold switched. by destruct (isAlive x).
      * unfold switched. destruct (isAlive x) eqn:Hal; [done|]. intros _.
        destruct (Hc eq_refl) as (color & Hcol & Hv). by exists color.
    + done.
    + intros cell' Hin. destruct (Hall cell') as (x' & Hx' & Hc'); [by right|].
      exists x'. split; [|done]. rewrite update_lookup by done.
      rewrite decide_False; [done|]. intros ->. done.
    + exists w'. split.
      { simpl. by rewrite (bind_ok _ _ _ _ _ Hsw). }
      split; [done|]. split; [done|]. split; [done|]. split; [done|]. split; [done|].
      intros cell'. rewrite Hheap, update_lookup by done.
      destruct (decide (cell = cell')) as [->|Hne].
      * rewrite decide_False by done. rewrite decide_True by left. by rewrite Hx.
      * destruct (decide (cell' ∈ sw)) as [Hin|Hin].
        -- rewrite decide_True by by right. done.
        -- rewrite decide_False; [done|]. by intros [?|?]%elem_of_cons.
Qed.
End TickLoop.

Section TickCorrect.
Context {CS : ColorSpace}.

Lemma bind_gets {A B} (f : World -> A) (k : A -> M B) w :
  bind (gets f) k w = k (f w) w.
Proof. done. Qed.

Lemma tick_loop_mono fuel : forall fuel' ch sw tc w r w',
  tick_loop fuel ch sw tc w = Ok r w' -> (fuel <= fuel')%nat ->
  tick_loop fuel' ch sw tc w = Ok r w'.
Proof.
  induction fuel as [|fuel IH]; intros fuel' ch sw tc w r w' Hrun Hle; [done|].
  destruct fuel' as [|fuel']; [lia|]. simpl in *.
  destruct (Array_pop tc) as [[cell rest]|]; [|done].
  case_decide.
  - apply IH; [done|lia].
  - apply bind_inv in Hrun as (p & w1 & Hcheck & Hrun).
    rewrite (bind_ok _ _ _ _ _ Hcheck). apply IH; [done|lia].
Qed.

Lemma live_cells_ok w : wf w -> filterAlive (Map_values (grid w)) w = Ok (live_cells w) w.
Proof.
  intros Hwf. apply filterAlive_spec. apply Forall_forall. intros cell Hin.
  apply elem_of_Map_values in Hin as [k Hin].
  destruct (wf_entry w Hwf _ _ Hin) as (x & Hx & _). by exists x.
Qed.

Lemma unchecked_nil live : unchecked live [] = live.
Proof.
  unfold unchecked. induction live as [|a live IH]; [done|].
  rewrite filter_cons, decide_True by apply not_elem_of_nil. by rewrite IH.
Qed.

(** When the loop is over, the cells listed for a switch are the cells
    the rule flips, and a position the rule flips was materialized. *)
Lemma tick_inv_final w0 w ch sw c :
  wf w0 -> tick_inv w0 w ch sw [] -> in_bounds w0 c = true ->
  flips w0 c = true -> exists cell, owns w c cell /\ cell ∈ sw.
Proof.
  intros Hwf0 Hinv Hb Hf.
  assert (exists cell, owns w c cell /\ cell ∈ ch) as (cell & Ho & Hin).
  { destruct (aliveAt w0 c) eqn:Hal.
    - destruct (tick_inv_owns_alive _ _ _ _ _ c Hinv Hal) as (cell & _ & Ho & _).
      exists cell. split; [done|].
      by destruct (ti_live _ _ _ _ _ Hinv c cell Ho Hal) as [?|[]%elem_of_nil].
    - unfold flips in Hf. rewrite Hal in Hf. simpl in Hf. apply Nat.eqb_eq in Hf.
      unfold liveCount in Hf.
      destruct (liveNeighborsAt w0 c) as [|p ps] eqn:Hl; [done|].
      assert (p ∈ liveNeighborsAt w0 c) as [Halp Hp]%list_elem_of_filter
        by (rewrite Hl; left).
      destruct (tick_inv_owns_alive _ _ _ _ _ p Hinv Halp) as (cellp & _ & Hop & _).
      destruct (ti_live _ _ _ _ _ Hinv p cellp Hop Halp) as [Hinp|[]%elem_of_nil].
      destruct (ti_frontier _ _ _ _ _ Hinv p cellp c Hinp Hop Halp)
        as (cell & Ho & [Hin|[]%elem_of_nil]).
      { by apply moore_sym. }
      by exists cell. }
  exists cell. split; [done|]. by apply (ti_switch _ _ _ _ _ Hinv cell c).
Qed.

Lemma original_color w0 w ch sw tc c cell x :
  wf w0 -> tick_inv w0 w ch sw tc -> owns w c cell -> heap w !! cell = Some x ->
  colorAt w0 c = getColor (original w0 cell x).
Proof.
  intros Hwf0 Hinv Ho Hx. destruct (ti_grid _ _ _ _ _ Hinv) as (entries & Hgr & Hent).
  unfold colorAt, cellAt, original. unfold owns in Ho. rewrite Hgr, Map_get_app in Ho.
  destruct (Map_get (toString c) (grid w0)) as [cell0|] eqn:Hm.
  - injection Ho as ->.
    destruct (wf_entry w0 Hwf0 _ _ (Map_get_Some _ _ _ Hm)) as (x0 & Hx0 & _).
    by rewrite Hx0.
  - rewrite Forall_forall in Hent. specialize (Hent _ (Map_get_Some _ _ _ Ho)).
    simpl in Hent. by rewrite (lookup_ge_None_2 (heap w0) cell).
Qed.

(** Once the loop is over, applying the switches puts every position of
    the grid in the state the classical rule gives it from the pre-tick
    world. *)
Lemma tick_finish_valid w0 w1 visited sw :
  births_valid w0 -> wf w0 -> tick_inv w0 w1 visited sw [] ->
  exists w',
    forEach switch sw w1 = Ok tt w' /\
    wf w' /\ maxX w' = maxX w0 /\ maxY w' = maxY w0 /\
    grid w' = grid w1 /\
    (forall c, in_bounds w0 c = true -> snapshot w' c = classical_tick w0 c) /\
    (forall c, in_bounds w0 c = false -> snapshot w' c = (false, None)).
Proof.
  intros Hvalid Hwf0 Hinv.
  pose proof (ti_wf _ _ _ _ _ Hinv) as Hwf1.
  pose proof (ti_heap _ _ _ _ _ Hinv) as [_ Hcell].
  assert (forall c cell, owns w1 c cell -> cell ∈ sw <-> flips w0 c = true) as Hsw.
  { intros c cell Ho. split.
    - intros Hin. apply (ti_switch _ _ _ _ _ Hinv cell c); [|done..].
      by apply (ti_switch_checked _ _ _ _ _ Hinv).
    - intros Hf. destruct (owns_lookup w1 c cell Hwf1 Ho) as (_ & _ & _ & Hb).
      rewrite (in_bounds_ext w0 w1 c (ti_maxX _ _ _ _ _ Hinv) (ti_maxY _ _ _ _ _ Hinv)) in Hb.
      destruct (tick_inv_final w0 w1 visited sw c Hwf0 Hinv Hb Hf) as (cell' & Ho' & Hin).
      by rewrite (owns_fun _ _ _ _ Ho Ho'). }
  destruct (forEach_switch sw w1 Hwf1 (ti_switch_nodup _ _ _ _ _ Hinv))
    as (w' & Hfor & Hwf' & Hgr & Hmx & Hmy & Hrnd & Hheap).
  { intros cell Hin.
    destruct (ti_owned _ _ _ _ _ Hinv cell) as [c Ho].
    { rewrite app_nil_r. by apply (ti_switch_checked _ _ _ _ _ Hinv). }
    destruct (owns_lookup w1 c cell Hwf1 Ho) as (x & Hx & Hcx & Hb1).
    rewrite (in_bounds_ext w0 w1 c (ti_maxX _ _ _ _ _ Hinv) (ti_maxY _ _ _ _ _ Hinv)) in Hb1.
    exists x. split; [done|]. intros Hd.
    destruct (Hcell _ _ Hx) as (_ & _ & Hcol). rewrite decide_True in Hcol by done.
    assert (aliveAt w0 c = false) as Hd0.
    { by rewrite <- (tick_inv_aliveAt _ _ _ _ _ c Hwf0 Hinv), (owns_aliveAt _ _ _ _ Ho Hx). }
    assert (flips w0 c = true) as Hf by (by apply (Hsw c cell)).
    destruct (birth_color_some w0 c Hwf0 Hd0 Hf) as [color Hb].
    assert (liveCount w0 c = 3%nat) as Hn.
    { unfold flips in Hf. rewrite Hd0 in Hf. by apply Nat.eqb_eq in Hf. }
    exists color. rewrite Hcol, Hcx. split; [done|]. by apply (Hvalid c color). }
  exists w'. split; [done|]. split; [done|].
  split; [by rewrite Hmx; apply Hinv|]. split; [by rewrite Hmy; apply Hinv|].
  split; [done|]. split.
  - intros c Hb. unfold snapshot, aliveAt, colorAt, cellAt. rewrite Hgr.
    destruct (Map_get (toString c) (grid w1)) as [cell|] eqn:Hm.
    + destruct (owns_lookup w1 c cell Hwf1 Hm) as (x & Hx & Hcx & _).
      destruct (Hcell _ _ Hx) as (_ & _ & Hcol).
      pose proof (original_color w0 w1 _ _ _ c cell x Hwf0 Hinv Hm Hx) as Horig.
      assert (aliveAt w0 c = isAlive x) as Hal.
      { by rewrite <- (tick_inv_aliveAt _ _ _ _ _ c Hwf0 Hinv), (owns_aliveAt _ _ _ _ Hm Hx). }
      rewrite Hheap, Hx. unfold classical_tick. rewrite Hal.
      specialize (Hsw c cell Hm). unfold flips in Hsw. rewrite Hal in Hsw.
      destruct (decide (cell ∈ sw)) as [Hin|Hin]; simpl.
      * apply Hsw in Hin. unfold switched.
        destruct (isAlive x) eqn:Hax; simpl in *.
        -- apply negb_true_iff in Hin. by rewrite Hin.
        -- rewrite Hin. rewrite decide_True in Hcol by (split; [by apply Hsw|done]).
           by rewrite Hcol, Hcx.
      * assert (xorb (isAlive x) (rule (isAlive x) (liveCount w0 c)) = false) as Hf.
        { destruct (xorb _ _); [|done]. destruct Hin. by apply Hsw. }
        rewrite decide_False in Hcol by (intros [? _]; done).
        rewrite Hcol, <- Horig.
        destruct (isAlive x) eqn:Hax; simpl in *.
        -- apply negb_false_iff in Hf. by rewrite Hf.
        -- by rewrite Hf.
    + assert (flips w0 c = false) as Hf.
      { destruct (flips w0 c) eqn:Hf; [|done].
        destruct (tick_inv_final w0 w1 visited sw c Hwf0 Hinv Hb Hf) as (cell & Ho & _).
        unfold owns in Ho. congruence. }
      assert (cellAt w0 c = None) as Hc0.
      { unfold cellAt. destruct (ti_grid _ _ _ _ _ Hinv) as (entries & Hg1 & _).
        rewrite Hg1, Map_get_app in Hm.
        by destruct (Map_get (toString c) (grid w0)). }
      assert (aliveAt w0 c = false) as Hal by (unfold aliveAt; by rewrite Hc0).
      assert (colorAt w0 c = None) as Hcol by (unfold colorAt; by rewrite Hc0).
      unfold classical_tick. unfold flips in Hf. rewrite Hal in *. simpl in Hf.
      unfold rule. by rewrite Hf, Hcol.
  - intros c Hb. unfold snapshot, aliveAt, colorAt, cellAt. rewrite Hgr.
    destruct (Map_get (toString c) (grid w1)) as [cell|] eqn:Hm; [|done].
    destruct (owns_lookup w1 c cell Hwf1 Hm) as (_ & _ & _ & Hb1).
    rewrite (in_bounds_ext w0 w1 c (ti_maxX _ _ _ _ _ Hinv) (ti_maxY _ _ _ _ _ Hinv)) in Hb1.
    congruence.
Qed.

Lemma tick_finish w0 w1 visited sw :
  rgb_in_range CS -> wf w0 -> tick_inv w0 w1 visited sw [] ->
  exists w',
    forEach switch sw w1 = Ok tt w' /\
    wf w' /\ maxX w' = maxX w0 /\ maxY w' = maxY w0 /\
    grid w' = grid w1 /\
    (forall c, in_bounds w0 c = true -> snapshot w' c = classical_tick w0 c) /\
    (forall c, in_bounds w0 c = false -> snapshot w' c = (false, None)).
Proof.
  intros Hrange. by apply tick_finish_valid, rgb_in_range_births_valid.
Qed.

(** The loop of [tick] returns when the conversion gives every birth a
    valid color, and throws otherwise; it never runs out of fuel. *)
Lemma tick_loop_outcome w0 :
  wf w0 ->
  (births_valid w0 /\
   exists visited sw w1,
     tick_loop (enough_fuel w0) [] [] (live_cells w0) w0 = Ok (visited, sw) w1 /\
     tick_inv w0 w1 visited sw []) \/
  (~ births_valid w0 /\
   tick_loop (enough_fuel w0) [] [] (live_cells w0) w0 = Throw).
Proof.
  intros Hwf0. rewrite <- tick_loop_any_pop.
  destruct (tick_loop_any_outcome Array_pop w0 (enough_fuel w0) w0 [] []
              (live_cells w0) Array_pop_takes_one Hwf0 (tick_inv_init w0 Hwf0))
    as [(visited & sw & w1 & Hloop & Hinv & Hchecked)|[Hloop Hnot]].
  - by intros c cell []%elem_of_nil.
  - rewrite unchecked_nil. unfold enough_fuel. lia.
  - left. split; [|by exists visited, sw, w1].
    intros c color Hb Hd Hn Hcolor.
    assert (flips w0 c = true) as Hf.
    { unfold flips. rewrite Hd, Hn. done. }
    destruct (tick_inv_final w0 w1 visited sw c Hwf0 Hinv Hb Hf) as (cell & Ho & Hin).
    apply (ti_switch_checked _ _ _ _ _ Hinv) in Hin.
    destruct (Hchecked c cell Hin Ho Hd Hn) as (color' & Hcolor' & Hv). congruence.
  - by right.
Qed.

(** When the conversion gives every birth a valid color, [tick] returns,
    and every position of the grid is then in the state the classical rule
    gives it from the pre-tick world. *)
Lemma tick_run_valid w0 :
  births_valid w0 -> wf w0 ->
  exists visited sw w1 w',
    tick_loop (enough_fuel w0) [] [] (live_cells w0) w0 = Ok (visited, sw) w1 /\
    forEach switch sw w1 = Ok tt w' /\
    tick w0 = Ok tt w' /\
    tick_inv w0 w1 visited sw [] /\
    wf w' /\ maxX w' = maxX w0 /\ maxY w' = maxY w0 /\
    grid w' = grid w1 /\
    (forall c, in_bounds w0 c = true -> snapshot w' c = classical_tick w0 c) /\
    (forall c, in_bounds w0 c = false -> snapshot w' c = (false, None)).
Proof.
  intros Hvalid Hwf0.
  destruct (tick_loop_outcome w0 Hwf0)
    as [(_ & visited & sw & w1 & Hloop & Hinv)|[Hnot _]]; [|done].
  destruct (tick_finish_valid w0 w1 visited sw Hvalid Hwf0 Hinv) as (w' & Hfor & Hrest).
  exists visited, sw, w1, w'. split; [done|]. split; [done|]. split; [|by split].
  unfold tick, tick_fuel.
  rewrite bind_gets, (bind_ok _ _ _ _ _ (live_cells_ok w0 Hwf0)).
  by rewrite (bind_ok _ _ _ _ _ Hloop).
Qed.

(** When the conversion gives some birth an invalid color, [tick] throws. *)
Lemma tick_throws w0 : wf w0 -> ~ births_valid w0 -> tick w0 = Throw.
Proof.
  intros Hwf0 Hnot.
  destruct (tick_loop_outcome w0 Hwf0) as [[Hvalid _]|[_ Hloop]]; [done|].
  unfold tick, tick_fuel.
  rewrite bind_gets, (bind_ok _ _ _ _ _ (live_cells_ok w0 Hwf0)).
  unfold bind. by rewrite Hloop.
Qed.

(** [tick] returns, and every position of the grid is then in the state
    the classical rule gives it from the pre-tick world. *)
Lemma tick_run w0 :
  rgb_in_range CS -> wf w0 ->
  exists visited sw w1 w',
    tick_loop (enough_fuel w0) [] [] (live_cells w0) w0 = Ok (visited, sw) w1 /\
    forEach switch sw w1 = Ok tt w' /\
    tick w0 = Ok tt w' /\
    tick_inv w0 w1 visited sw [] /\
    wf w' /\ maxX w' = maxX w0 /\ maxY w' = maxY w0 /\
    grid w' = grid w1 /\
    (forall c, in_bounds w0 c = true -> snapshot w' c = classical_tick w0 c) /\
    (forall c, in_bounds w0 c = false -> snapshot w' c = (false, None)).
Proof.
  intros Hrange. by apply tick_run_valid, rgb_in_range_births_valid.
Qed.

(** More fuel than [enough_fuel] changes nothing. *)
Lemma tick_fuel_enough w0 fuel :
  rgb_in_range CS -> wf w0 -> (enough_fuel w0 <= fuel)%nat ->
  tick_fuel fuel w0 = tick w0.
Proof.
  intros Hrange Hwf0 Hfuel.
  destruct (tick_run w0 Hrange Hwf0)
    as (visited & sw & w1 & w' & Hloop & Hfor & Htick & _).
  rewrite Htick. unfold tick_fuel.
  rewrite bind_gets, (bind_ok _ _ _ _ _ (live_cells_ok w0 Hwf0)).
  by rewrite (bind_ok _ _ _ _ _ (tick_loop_mono _ _ _ _ _ _ _ _ Hloop Hfuel)).
Qed.

(** In whatever order the loop visits the cells, the result is the same. *)
Lemma tick_any_order pick w0 :
  takes_one pick -> rgb_in_range CS -> wf w0 ->
  exists visited sw w1 w',
    tick_loop_any pick (enough_fuel w0) [] [] (live_cells w0) w0
      = Ok (visited, sw) w1 /\
    forEach switch sw w1 = Ok tt w' /\
    wf w' /\
    (forall c, in_bounds w0 c = true -> snapshot w' c = classical_tick w0 c) /\
    (forall c, in_bounds w0 c = false -> snapshot w' c = (false, None)).
Proof.
  intros Hpick Hrange Hwf0.
  destruct (tick_loop_any_spec pick w0 (enough_fuel w0) w0 [] []
              (live_cells w0) Hpick Hrange Hwf0 (tick_inv_init w0 Hwf0))
    as (visited & sw & w1 & Hloop & Hinv).
  { rewrite unchecked_nil. unfold enough_fuel. lia. }
  destruct (tick_finish w0 w1 visited sw Hrange Hwf0 Hinv)
    as (w' & Hfor & Hwf' & _ & _ & _ & Hin & Hout).
  by exists visited, sw, w1, w'.
Qed.
End TickCorrect.

(** ** The package: its colors are valid, and black does not come back *)

Section PackageFacts.
Import Package.
Local Open Scope R_scope.

Lemma clamp01_range c : 0 <= clamp01 c <= 1.
Proof.
  unfold clamp01, Rmin, Rmax.
  destruct (Rle_dec 0 c); destruct (Rle_dec _ 1); lra.
Qed.

Lemma Int_part_eq (x : R) (k : Z) : IZR k <= x < IZR k + 1 -> Int_part x = k.
Proof.
  intros [Hlo Hhi]. destruct (base_Int_part x) as [Hle Hgt].
  assert (IZR (Int_part x) < IZR (k + 1)) as H1%lt_IZR by (rewrite plus_IZR; lra).
  assert (IZR k < IZR (Int_part x + 1)) as H2%lt_IZR by (rewrite plus_IZR; lra).
  lia.
Qed.

Lemma round_range (x : R) : 0 <= x <= 255 -> channel_ok (round x) = true.
Proof.
  intros [Hlo Hhi]. unfold round, channel_ok.
  destruct (base_Int_part (x + / 2)) as [Hle Hgt].
  assert (IZR (-1) < IZR (Int_part (x + / 2))) as H1%lt_IZR by lra.
  assert (IZR (Int_part (x + / 2)) < IZR 256) as H2%lt_IZR by lra.
  apply andb_true_iff. split; [apply Z.leb_le|apply Z.leb_le]; lia.
Qed.

Lemma round_clamped c : channel_ok (round (clamp01 c * 255)) = true.
Proof. apply round_range. pose proof (clamp01_range c). lra. Qed.

(** Whatever [lab.rgb] is given, rounding its result gives three integers
    in [0, 255]: the channels are clamped before they are scaled. *)
Lemma package_space_in_range : rgb_in_range package_space.
Proof.
  intros [[l a] b]. cbn [lab_rgb Math_round package_space].
  unfold xyz_rgb. destruct (lab_xyz (l, a, b)) as [[x y] z].
  cbn [map valid_color Number_isInteger round]. 
  by rewrite !round_clamped.
Qed.

(** The power [1 / 2.4] is the twelfth root of the fifth power, so bounds
    on it are comparisons of rational numbers. *)
Lemma Rpower_root_bounds c lo hi :
  0 < c -> 0 < lo -> 0 < hi -> lo ^ 12 <= c ^ 5 -> c ^ 5 < hi ^ 12 ->
  lo <= Rpower c (1 / 2.4) < hi.
Proof.
  intros Hc Hlo Hhi Hle Hlt.
  assert (forall x, 0 < x -> Rpower (x ^ 12) (/ 12) = x) as Hroot.
  { intros x Hx. rewrite <- (Rpower_pow 12 x Hx), Rpower_mult.
    replace (INR 12 * / 12) with 1 by (simpl; lra). by apply Rpower_1. }
  assert (Rpower c (1 / 2.4) = Rpower (c ^ 5) (/ 12)) as ->.
  { rewrite <- (Rpower_pow 5 c Hc), Rpower_mult. f_equal. simpl. lra. }
  assert (0 < lo ^ 12) as Hlo12 by (by apply pow_lt).
  assert (0 < c ^ 5) as Hc5 by (by apply pow_lt).
  split.
  - rewrite <- (Hroot lo Hlo) at 1. apply Rle_Rpower_l; lra.
  - rewrite <- (Hroot hi Hhi) at 1. apply Rlt_Rpower_l; lra.
Qed.

Lemma expand_zero : expand (0 / 255) = 0.
Proof. unfold expand. destruct (Rlt_dec 0.04045 (0 / 255)); lra. Qed.

Lemma lab_f_zero t : t = 0 -> lab_f t = 16 / 116.
Proof. intros ->. unfold lab_f. destruct (Rlt_dec 0.008856 0); lra. Qed.

Lemma rgb_lab_black : rgb_lab (ColorSpace := package_space) black = (0, 0, 0).
Proof.
  cbn [rgb_lab package_space]. unfold channel, black.
  cbn [lookup list_lookup default from_option id number_Z].
  unfold rgb_xyz, xyz_lab. rewrite expand_zero. cbv zeta.
  rewrite !lab_f_zero by lra. f_equal; [f_equal|]; lra.
Qed.

(** What [lab.xyz] makes of the Lab coordinates of black: not the XYZ
    coordinates of black, which are all zero. *)
Lemma lab_xyz_black :
  lab_xyz (0, 0, 0) = (95.047 * (4 / 29) ^ 3, 0, 108.883 * (4 / 29) ^ 3).
Proof.
  unfold lab_xyz, quotient_le. destruct (Rle_dec 0 8); [|lra].
  f_equal; [f_equal|]; lra.
Qed.

Lemma compress_bounds c lo hi :
  0.0031308 < c -> 0 < lo -> 0 < hi -> lo ^ 12 <= c ^ 5 -> c ^ 5 < hi ^ 12 ->
  1.055 * lo - 0.055 <= compress c < 1.055 * hi - 0.055.
Proof.
  intros Hc Hlo Hhi Hle Hlt. unfold compress.
  destruct (Rlt_dec 0.0031308 c); [|lra].
  destruct (Rpower_root_bounds c lo hi); [lra|done..|lra].
Qed.

Lemma round_eq (v : R) (k : Z) :
  IZR k <= v * 255 + / 2 < IZR k + 1 -> 0 <= v <= 1 ->
  round (clamp01 v * 255) = Integer k.
Proof.
  intros Hk Hv. unfold round. f_equal. apply Int_part_eq.
  unfold clamp01, Rmin, Rmax. destruct (Rle_dec 0 v); [|lra].
  destruct (Rle_dec v 1); lra.
Qed.

Lemma round_negative (v : R) : v <= 0 -> round (clamp01 v * 255) = Integer 0.
Proof.
  intros Hv. unfold round. f_equal. apply Int_part_eq.
  unfold clamp01, Rmin, Rmax. destruct (Rle_dec 0 v).
  - destruct (Rle_dec v 1); lra.
  - destruct (Rle_dec 0 1); lra.
Qed.

(** Three black neighbors do not give a black cell. *)
Lemma blend_black :
  blend (CS := package_space) black black black
    = [Integer 19; Integer 0; Integer 10].
Proof.
  unfold blend. rewrite rgb_lab_black. unfold average.
  cbn [flt_add flt_div flt_of_Z lab_rgb Math_round package_space].
  change (map round
            (xyz_rgb (lab_xyz ((0 + 0 + 0) / 3, (0 + 0 + 0) / 3, (0 + 0 + 0) / 3)))
          = [Integer 19; Integer 0; Integer 10]).
  replace ((0 + 0 + 0) / 3) with 0 by lra. rewrite lab_xyz_black.
  unfold xyz_rgb. cbv zeta. cbn [map].
  set (x := 95.047 * (4 / 29) ^ 3 / 100).
  set (z := 108.883 * (4 / 29) ^ 3 / 100).
  f_equal; [|f_equal; [|f_equal]].
  - set (r := x * _ + _ + _).
    destruct (compress_bounds r 0.121 0.1246) as [Hlo Hhi];
      [unfold r, x, z; lra..|].
    apply round_eq; lra.
  - set (g := x * _ + _ + _).
    apply round_negative. unfold compress.
    destruct (Rlt_dec 0.0031308 g) as [Hg|Hg]; unfold g, x, z in *; lra.
  - set (b := x * _ + _ + _).
    destruct (compress_bounds b 0.0875 0.0911) as [Hlo Hhi];
      [unfold b, x, z; lra..|].
    apply round_eq; lra.
Qed.
End PackageFacts.

(** ** The candidates of a pattern *)

Lemma elem_of_Set_add k k' s : k ∈ Set_add k' s <-> k = k' \/ k ∈ s.
Proof.
  unfold Set_add. case_decide as Hin.
  - split; [by right|]. intros [->|?]; done.
  - rewrite elem_of_app, list_elem_of_singleton. tauto.
Qed.

Lemma NoDup_Set_add k s : NoDup s -> NoDup (Set_add k s).
Proof.
  intros Hnd. unfold Set_add. case_decide as Hin; [done|].
  apply NoDup_app. split; [done|]. split; [|apply NoDup_singleton].
  intros x Hx ->%list_elem_of_singleton. done.
Qed.

Lemma elem_of_allCoordinates_row xs y : forall set k,
  k ∈ allCoordinates_row xs y set <->
  k ∈ set \/ exists x, x ∈ xs /\ k = toString (mkCoordinates x y).
Proof.
  unfold allCoordinates_row.
  induction xs as [|x xs IH]; intros set k; simpl.
  - split; [by left|]. intros [?|(x & []%elem_of_nil & _)]. done.
  - rewrite IH, elem_of_Set_add. split.
    + intros [[->|?]|(x' & Hx' & ->)].
      * right. exists x. split; [left|done].
      * by left.
      * right. exists x'. split; [by right|done].
    + intros [?|(x' & [->|Hx']%elem_of_cons & ->)].
      * left. by right.
      * left. by left.
      * right. by exists x'.
Qed.

Lemma NoDup_allCoordinates_row xs y : forall set,
  NoDup set -> NoDup (allCoordinates_row xs y set).
Proof.
  unfold allCoordinates_row. induction xs as [|x xs IH]; intros set Hnd; simpl; [done|].
  by apply IH, NoDup_Set_add.
Qed.

Lemma elem_of_allCoordinates w k :
  k ∈ allCoordinates w <-> exists c, in_bounds w c = true /\ k = toString c.
Proof.
  unfold allCoordinates.
  assert (forall ys set,
    k ∈ foldl (fun set y => allCoordinates_row (seqZ 0 (maxX w + 1)) y set) set ys <->
    k ∈ set \/ exists x y, x ∈ seqZ 0 (maxX w + 1) /\ y ∈ ys /\
                           k = toString (mkCoordinates x y)) as Hfold.
  { induction ys as [|y ys IH]; intros set; simpl.
    - split; [by left|]. intros [?|(x & y & _ & []%elem_of_nil & _)]. done.
    - rewrite IH, elem_of_allCoordinates_row. split.
      + intros [[?|(x & Hx & ->)]|(x & y' & Hx & Hy & ->)].
        * by left.
        * right. exists x, y. split; [done|]. split; [left|done].
        * right. exists x, y'. split; [done|]. split; [by right|done].
      + intros [?|(x & y' & Hx & [->|Hy]%elem_of_cons & ->)].
        * left. by left.
        * left. right. by exists x.
        * right. by exists x, y'. }
  rewrite Hfold. split.
  - intros [[]%elem_of_nil|(x & y & Hx & Hy & ->)].
    exists (mkCoordinates x y). split; [|done].
    apply elem_of_seqZ in Hx, Hy. apply in_bounds_spec. simpl. lia.
  - intros ([x y] & Hb & ->). right. exists x, y.
    apply in_bounds_spec in Hb. simpl in Hb.
    rewrite !elem_of_seqZ. split; [lia|]. split; [lia|done].
Qed.

Lemma NoDup_allCoordinates w : NoDup (allCoordinates w).
Proof.
  unfold allCoordinates.
  assert (forall ys set, NoDup set ->
    NoDup (foldl (fun set y => allCoordinates_row (seqZ 0 (maxX w + 1)) y set) set ys))
    as Hfold.
  { induction ys as [|y ys IH]; intros set Hnd; simpl; [done|].
    by apply IH, NoDup_allCoordinates_row. }
  apply Hfold. constructor.
Qed.

(** The keys left after the keys of the live cells were deleted. *)
Lemma elem_of_deadCoordinates cells : forall set k,
  k ∈ foldl (fun set c =>
               if isAlive c then Set_delete (toString (getCoordinates c)) set
               else set) set cells <->
  k ∈ set /\ forall x, x ∈ cells -> isAlive x = true -> toString (getCoordinates x) <> k.
Proof.
  induction cells as [|c cells IH]; intros set k; simpl.
  - split; [|by intros [? _]]. intros Hk. split; [done|]. by intros x []%elem_of_nil.
  - rewrite IH. destruct (isAlive c) eqn:Hal.
    + unfold Set_delete. rewrite list_elem_of_filter. split.
      * intros [[Hne Hin] Hall]. split; [done|].
        intros x [->|Hx]%elem_of_cons; [congruence|by apply Hall].
      * intros [Hin Hall]. split; [split; [|done]|].
        -- intros Heq. by apply (Hall c); [left| |].
        -- intros x Hx. apply Hall. by right.
    + split.
      * intros [Hin Hall]. split; [done|].
        intros x [->|Hx]%elem_of_cons; [congruence|by apply Hall].
      * intros [Hin Hall]. split; [done|]. intros x Hx. apply Hall. by right.
Qed.

Lemma NoDup_deadCoordinates cells : forall set,
  NoDup set ->
  NoDup (foldl (fun set c =>
                  if isAlive c then Set_delete (toString (getCoordinates c)) set
                  else set) set cells).
Proof.
  induction cells as [|c cells IH]; intros set Hnd; simpl; [done|].
  apply IH. destruct (isAlive c); [|done]. by apply NoDup_filter.
Qed.

Lemma mapM_deref cells w :
  Forall (fun cell => is_Some (heap w !! cell)) cells ->
  exists xs, mapM deref cells w = Ok xs w /\
             Forall2 (fun cell x => heap w !! cell = Some x) cells xs.
Proof.
  induction cells as [|cell cells IH]; intros Hall.
  - exists []. split; [done|constructor].
  - apply Forall_cons in Hall as [[x Hx] Hall].
    destruct (IH Hall) as (xs & Hmap & Hxs).
    exists (x :: xs). split; [|by constructor].
    simpl. by rewrite (bind_ok _ _ _ _ _ (deref_ok _ _ _ Hx)), (bind_ok _ _ _ _ _ Hmap).
Qed.

(** A key of [allCoordinates] is parsed back to its coordinates, which are
    then looked up. *)
Lemma mapM_parse_getCell cs : forall w,
  wf w -> Forall (fun c => in_bounds w c = true) cs ->
  exists cells w',
    mapM (fun s =>
            let parts := String_split comma s in
            coordinates <- lift (Coordinates_new (parseInt (parts !! 0%nat))
                                                 (parseInt (parts !! 1%nat))) ;;
            getCell coordinates)
         (map toString cs) w = Ok cells w' /\
    grows w w' /\ wf w' /\ Forall2 (owns w') cs cells.
Proof.
  induction cs as [|c cs IH]; intros w Hwf Hb.
  - exists [], w. split; [done|]. split; [apply grows_refl|]. split; [done|constructor].
  - apply Forall_cons in Hb as [Hc Hcs].
    destruct (getCell_spec w c Hwf Hc) as (cell & w1 & Hget & Hg1 & Hwf1 & Ho1).
    destruct (IH w1 Hwf1) as (cells & w2 & Hmap & Hg2 & Hwf2 & Ho2).
    { eapply Forall_impl; [done|]. intros x Hx. by rewrite (grows_in_bounds _ _ _ Hg1). }
    exists (cell :: cells), w2. split.
    { cbn [map mapM]. erewrite bind_ok; [|].
      2:{ cbv zeta. unfold lift. rewrite (parse_key c). unfold bind at 1. exact Hget. }
      by rewrite (bind_ok _ _ _ _ _ Hmap). }
    split; [by eapply grows_trans|]. split; [done|].
    constructor; [by eapply grows_owns|done].
Qed.

Lemma getAllDeadCells_spec w :
  wf w ->
  exists cs cells w',
    getAllDeadCells w = Ok cells w' /\ grows w w' /\ wf w' /\
    Forall2 (owns w') cs cells /\ NoDup cs /\
    (forall c, c ∈ cs <-> in_bounds w c = true /\ aliveAt w c = false).
Proof.
  intros Hwf.
  destruct (mapM_deref (Map_values (grid w)) w) as (xs & Hxs & Hall).
  { apply Forall_forall. intros cell [k Hin]%elem_of_Map_values.
    destruct (wf_entry w Hwf _ _ Hin) as (x & Hx & _). by exists x. }
  set (ks := foldl (fun set c =>
               if isAlive c then Set_delete (toString (getCoordinates c)) set
               else set) (allCoordinates w) xs).
  assert (forall k, k ∈ ks <->
            exists c, k = toString c /\ in_bounds w c = true /\ aliveAt w c = false) as Hks.
  { intros k. unfold ks. rewrite elem_of_deadCoordinates, elem_of_allCoordinates. split.
    - intros [(c & Hb & ->) Hdead]. exists c. split; [done|]. split; [done|].
      destruct (aliveAt w c) eqn:Hal; [|done]. exfalso.
      unfold aliveAt, cellAt in Hal.
      destruct (Map_get (toString c) (grid w)) as [cell|] eqn:Hm; [|done].
      destruct (heap w !! cell) as [x|] eqn:Hx; [|done].
      destruct (owns_lookup w c cell Hwf Hm) as (x' & Hx' & Hcx & _).
      assert (x' = x) as -> by congruence.
      apply (Hdead x); [|done|by rewrite Hcx].
      apply Map_get_Some, (list_elem_of_fmap_2 snd) in Hm. simpl in Hm.
      destruct (proj1 (list_elem_of_lookup _ _) Hm) as [i Hi].
      destruct (Forall2_lookup_l _ _ _ _ _ Hall Hi) as (y & Hy & Hcy).
      assert (y = x) as -> by congruence. by eapply list_elem_of_lookup_2.
    - intros (c & -> & Hb & Hd). split; [by exists c|].
      intros x Hx Hal Hk.
      destruct (proj1 (list_elem_of_lookup _ _) Hx) as [i Hi].
      destruct (Forall2_lookup_r _ _ _ _ _ Hall Hi) as (cell & Hcell & Hhx).
      apply list_elem_of_lookup_2, elem_of_Map_values in Hcell as [k Hin].
      destruct (elem_owns w k cell Hwf Hin) as (x' & Hx' & -> & Ho & _).
      assert (x' = x) as -> by congruence.
      apply (inj toString) in Hk. rewrite Hk in Ho.
      rewrite (owns_aliveAt _ _ _ _ Ho Hhx) in Hd. congruence. }
  assert (exists cs, ks = map toString cs) as [cs Hcs].
  { assert (Forall (fun k => exists c, k = toString c) ks) as Hpre.
    { apply Forall_forall. intros k (c & -> & _)%Hks. by exists c. }
    clear -Hpre. induction Hpre as [|k ks [c ->] _ [cs ->]].
    - by exists [].
    - by exists (c :: cs). }
  assert (forall c, c ∈ cs <-> in_bounds w c = true /\ aliveAt w c = false) as Hmem.
  { intros c. split.
    - intros Hin. destruct (proj1 (Hks (toString c))) as (c' & Hk & Hb & Hd).
      { rewrite Hcs. by apply list_elem_of_fmap_2. }
      apply (inj toString) in Hk. by subst.
    - intros [Hb Hd]. assert (toString c ∈ ks) as Hin by (apply Hks; by exists c).
      rewrite Hcs in Hin. apply list_elem_of_fmap in Hin as (c' & Hk & Hin).
      apply (inj toString) in Hk. by subst. }
  destruct (mapM_parse_getCell cs w Hwf) as (cells & w' & Hmap & Hg & Hwf' & Hown).
  { apply Forall_forall. intros c Hc. by apply Hmem. }
  exists cs, cells, w'. split.
  { unfold getAllDeadCells. rewrite !bind_gets, (bind_ok _ _ _ _ _ Hxs).
    change (allCoordinates (id w)) with (allCoordinates w). fold ks. by rewrite Hcs. }
  split; [done|]. split; [done|]. split; [done|]. split; [|done].
  apply (NoDup_fmap_1 toString). change (NoDup (map toString cs)).
  rewrite <- Hcs. unfold ks.
  apply NoDup_deadCoordinates, NoDup_allCoordinates.
Qed.

(** ** Placing a pattern *)

Lemma Forall2_owns_grows w w' cs cells :
  grows w w' -> Forall2 (owns w) cs cells -> Forall2 (owns w') cs cells.
Proof.
  intros Hg Hall. eapply Forall2_impl; [done|]. intros c cell. by apply grows_owns.
Qed.

Lemma fits_grows w w' c v : grows w w' -> fits w' c v <-> fits w c v.
Proof.
  intros Hg. unfold fits. apply Forall_proper; [|done]. intros o.
  by rewrite (grows_aliveAt _ _ _ Hg).
Qed.

Lemma filterCells_spec keep w cs cells :
  wf w -> Forall2 (owns w) cs cells ->
  exists cells', filterCells keep cells w = Ok cells' w /\
                 Forall2 (owns w) (filter (fun c => keep c = true) cs) cells'.
Proof.
  intros Hwf. induction 1 as [|c cell cs cells Ho Hall (cells' & Hrun & IH)].
  - exists []. split; [done|constructor].
  - destruct (owns_lookup w c cell Hwf Ho) as (x & Hx & Hcx & _).
    exists (if keep c then cell :: cells' else cells'). split.
    + simpl. rewrite (bind_ok _ _ _ _ _ (deref_ok _ _ _ Hx)), (bind_ok _ _ _ _ _ Hrun).
      by rewrite Hcx.
    + rewrite filter_cons. destruct (keep c) eqn:Hk.
      * rewrite decide_True by done. by constructor.
      * by rewrite decide_False by done.
Qed.

Lemma drawn_grows w : grows w (drawn w).
Proof.
  split; try done.
  - exists []. by rewrite app_nil_r.
  - exists []. by rewrite app_nil_r.
Qed.

Lemma drawn_wf w : wf w -> wf (drawn w).
Proof. intros [H1 H2 H3]. by split. Qed.

Lemma randomPop_spec {A} (array : list A) w :
  array <> [] ->
  exists i a, array !! i = Some a /\
              randomPop array w = Ok (Some a, delete i array) (drawn w).
Proof.
  intros Hne. unfold randomPop, random_index, bind, ret.
  destruct (length array) as [|n] eqn:Hlen; [by destruct array|].
  set (i := (random w 0 mod S n)%nat).
  destruct (lookup_lt_is_Some_2 array i) as [a Ha].
  { rewrite Hlen. apply Nat.mod_upper_bound. lia. }
  exists i, a. split; [done|]. unfold drawn. by rewrite Ha.
Qed.

Lemma length_filter_all {A} (P : A -> Prop) `{!forall x, Decision (P x)} (l : list A) :
  length (filter P l) = length l <-> Forall P l.
Proof.
  induction l as [|a l IH].
  - split; [constructor|done].
  - rewrite filter_cons. pose proof (length_filter P l) as Hle.
    destruct (decide (P a)) as [Ha|Ha]; simpl.
    + rewrite Forall_cons. split.
      * intros [= Hl]. split; [done|]. by apply IH.
      * intros [_ Hl]. f_equal. by apply IH.
    + split; [lia|]. intros [? _]%Forall_cons. done.
Qed.

Lemma Forall2_owns_dead w cs cells :
  Forall2 (owns w) cs cells ->
  Forall (fun cell => alive_ref w cell = false) cells <->
  Forall (fun c => aliveAt w c = false) cs.
Proof.
  induction 1 as [|c cell cs cells Ho Hall IH]; [done|].
  rewrite !Forall_cons, IH, (owns_alive_ref _ _ _ Ho). done.
Qed.

(** The first pass of [filterValidVariations]: the cells of every
    variation around the cell drawn. *)
Lemma variation_cells_spec cell c variations : forall w,
  wf w -> owns w c cell ->
  Forall (fun v => Forall (fun o => in_bounds w (offset_by c o) = true) v) variations ->
  exists cellss w',
    mapM (fun variation =>
            x <- deref cell ;;
            cs <- lift (addOffsets (getCoordinates x) variation) ;;
            mapM getCell cs) variations w = Ok cellss w' /\
    grows w w' /\ wf w' /\
    Forall2 (fun v cells => Forall2 (owns w') (map (offset_by c) v) cells)
            variations cellss.
Proof.
  induction variations as [|v variations IH]; intros w Hwf Ho Hb.
  - exists [], w. split; [done|]. split; [apply grows_refl|]. split; [done|constructor].
  - apply Forall_cons in Hb as [Hv Hvs].
    destruct (owns_lookup w c cell Hwf Ho) as (x & Hx & Hcx & _).
    destruct (mapM_getCell_spec (map (offset_by c) v) w Hwf)
      as (cells & w1 & Hmap & Hg1 & Hwf1 & Ho1).
    { by apply Forall_fmap. }
    destruct (IH w1 Hwf1 (grows_owns _ _ _ _ Hg1 Ho)) as (cellss & w2 & Hrest & Hg2 & Hwf2 & Ho2).
    { eapply Forall_impl; [done|]. intros v' Hv'.
      eapply Forall_impl; [done|]. intros o Hbo. by rewrite (grows_in_bounds _ _ _ Hg1). }
    exists (cells :: cellss), w2. split.
    { cbn [mapM]. erewrite bind_ok; [|].
      2:{ rewrite (bind_ok _ _ _ _ _ (deref_ok _ _ _ Hx)), addOffsets_eq, Hcx.
          unfold lift. unfold bind at 1. exact Hmap. }
      by rewrite (bind_ok _ _ _ _ _ Hrest). }
    split; [by eapply grows_trans|]. split; [done|].
    constructor; [by eapply Forall2_owns_grows|done].
Qed.

(** The second pass: the variations whose cells are all dead. *)
Lemma keep_dead_spec w c : forall variations cellss,
  wf w ->
  Forall2 (fun v cells => Forall2 (owns w) (map (offset_by c) v) cells)
          variations cellss ->
  exists kept,
    mapM (fun variation =>
            dead <- filterDead variation ;;
            ret (if (length dead =? length variation)%nat
                 then [variation] else [])) cellss w = Ok kept w /\
    Forall2 (fun v cells => Forall2 (owns w) (map (offset_by c) v) cells)
            (filter (fits w c) variations) (concat kept).
Proof.
  intros variations cellss Hwf.
  induction 1 as [|v cells variations cellss Ho Hall (kept & Hrun & IH)].
  - exists []. split; [done|constructor].
  - pose proof (filterDead_spec cells w (Forall2_owns_is_Some _ _ _ Hwf Ho)) as Hdead.
    set (dead := filter (fun cell => alive_ref w cell = false) cells) in *.
    exists ((if (length dead =? length cells)%nat then [cells] else []) :: kept). split.
    { cbn [mapM]. erewrite bind_ok; [|by rewrite (bind_ok _ _ _ _ _ Hdead)].
      by rewrite (bind_ok _ _ _ _ _ Hrun). }
    rewrite filter_cons. cbn [concat].
    assert (fits w c v <-> length dead = length cells) as Hfit.
    { unfold dead. rewrite length_filter_all, (Forall2_owns_dead _ _ _ Ho).
      unfold fits. by rewrite Forall_fmap. }
    destruct (length dead =? length cells)%nat eqn:Hlen.
    + apply Nat.eqb_eq in Hlen. rewrite decide_True by by apply Hfit.
      by constructor.
    + apply Nat.eqb_neq in Hlen. rewrite decide_False; [done|]. by rewrite Hfit.
Qed.

Lemma filterValidVariations_spec cell c variations w :
  wf w -> owns w c cell ->
  Forall (fun v => Forall (fun o => in_bounds w (offset_by c o) = true) v) variations ->
  exists vv w',
    filterValidVariations cell variations w = Ok vv w' /\
    grows w w' /\ wf w' /\
    Forall2 (fun v cells => Forall2 (owns w') (map (offset_by c) v) cells)
            (filter (fits w c) variations) vv.
Proof.
  intros Hwf Ho Hb.
  destruct (variation_cells_spec cell c variations w Hwf Ho Hb)
    as (cellss & w' & Hfirst & Hg & Hwf' & Hall).
  destruct (keep_dead_spec w' c variations cellss Hwf' Hall) as (kept & Hsecond & Hkept).
  exists (concat kept), w'. split.
  { unfold filterValidVariations.
    by rewrite (bind_ok _ _ _ _ _ Hfirst), (bind_ok _ _ _ _ _ Hsecond). }
  split; [done|]. split; [done|].
  rewrite (list_filter_iff (fits w c) (fits w' c)); [done|].
  intros v. by rewrite (fits_grows _ _ _ _ Hg).
Qed.

Lemma elem_of_delete_or {A} (l : list A) i a b :
  l !! i = Some a -> b ∈ l -> b = a \/ b ∈ delete i l.
Proof.
  revert i. induction l as [|x l IH]; intros i Hi Hb; [by apply elem_of_nil in Hb|].
  destruct i as [|i]; simpl in *.
  - injection Hi as ->. apply elem_of_cons in Hb as [->|Hb]; [by left|by right].
  - apply elem_of_cons in Hb as [->|Hb]; [right; left|].
    destruct (IH i Hi Hb) as [->|Hin]; [by left|right; by right].
Qed.

Lemma elem_of_delete_sub {A} (l : list A) i b : b ∈ delete i l -> b ∈ l.
Proof.
  revert i. induction l as [|x l IH]; intros i Hb; [done|].
  destruct i as [|i]; simpl in *; [by right|].
  apply elem_of_cons in Hb as [->|Hb]; [left|right; by eapply IH].
Qed.

(** The loop of [tryInstantiatePattern] returns: with the cells of a
    variation that fits around one of the candidates, or with nothing when
    no variation fits around any of them. *)
Lemma place_loop_spec variations fuel : forall w cands ccs,
  wf w -> Forall2 (owns w) ccs cands ->
  (forall c, c ∈ ccs ->
     Forall (fun v => Forall (fun o => in_bounds w (offset_by c o) = true) v) variations) ->
  (length cands < fuel)%nat ->
  exists res w',
    place_loop fuel cands variations w = Ok res w' /\ grows w w' /\ wf w' /\
    match res with
    | Some cells =>
        exists c v, c ∈ ccs /\ v ∈ variations /\ fits w c v /\
                    Forall2 (owns w') (map (offset_by c) v) cells
    | None => forall c v, c ∈ ccs -> v ∈ variations -> ~ fits w c v
    end.
Proof.
  induction fuel as [|fuel IH]; intros w cands ccs Hwf Hall Hb Hfuel; [lia|].
  cbn [place_loop]. destruct (decide (cands = [])) as [->|Hne].
  { apply Forall2_nil_inv_r in Hall. subst ccs.
    exists None, w. split; [done|]. split; [apply grows_refl|]. split; [done|].
    by intros c v []%elem_of_nil. }
  assert ((0 <? length cands)%nat = true) as ->.
  { apply Nat.ltb_lt. destruct cands; [done|simpl; lia]. }
  destruct (randomPop_spec cands w Hne) as (i & cell & Hi & Hpop).
  destruct (Forall2_lookup_r _ _ _ _ _ Hall Hi) as (c & Hci & Ho).
  rewrite (bind_ok _ _ _ _ _ Hpop). cbn [fst snd].
  unfold lift at 1. unfold bind at 1.
  destruct (filterValidVariations_spec cell c variations (drawn w))
    as (vv & w1 & Hvalid & Hg1 & Hwf1 & Hvv).
  { by apply drawn_wf. }
  { done. }
  { apply Hb. by eapply list_elem_of_lookup_2. }
  rewrite (bind_ok _ _ _ _ _ Hvalid).
  pose proof (grows_trans _ _ _ (drawn_grows w) Hg1) as Hg.
  assert (filter (fits (drawn w) c) variations = filter (fits w c) variations) as Hfilter.
  { apply list_filter_iff. intros v. apply (fits_grows _ _ _ _ (drawn_grows w)). }
  rewrite Hfilter in Hvv.
  destruct vv as [|cells0 vv'] eqn:Hvveq.
  - (* no variation fits around this candidate *)
    cbn [length]. change (0 <? 0)%nat with false. cbv iota.
    apply Forall2_nil_inv_r in Hvv.
    destruct (IH w1 (delete i cands) (delete i ccs) Hwf1)
      as (res & w2 & Hrun & Hg2 & Hwf2 & Hres).
    + apply Forall2_delete. by eapply Forall2_owns_grows.
    + intros c' Hc'. apply elem_of_delete_sub in Hc'.
      eapply Forall_impl; [by apply Hb|]. intros v Hv.
      eapply Forall_impl; [done|]. intros o Ho'. by rewrite (grows_in_bounds _ _ _ Hg).
    + rewrite length_delete by by eexists. destruct cands; simpl in *; [done|lia].
    + exists res, w2. split; [done|]. split; [by eapply grows_trans|]. split; [done|].
      destruct res as [cells|].
      * destruct Hres as (c' & v & Hc' & Hv & Hfit & Hown).
        exists c', v. split; [by eapply elem_of_delete_sub|]. split; [done|].
        split; [by apply (fits_grows _ _ _ _ Hg)|done].
      * intros c' v Hc' Hv Hfit.
        destruct (elem_of_delete_or _ _ _ _ Hci Hc') as [->|Hin].
        -- assert (v ∈ filter (fits w c) variations) as Hin by by apply list_elem_of_filter.
           rewrite Hvv in Hin. by apply elem_of_nil in Hin.
        -- apply (Hres c' v Hin Hv). by apply (fits_grows _ _ _ _ Hg).
  - (* a variation fits: one is drawn *)
    rewrite <- Hvveq in *.
    assert (vv <> []) as Hvne by (by rewrite Hvveq).
    assert ((0 <? length vv)%nat = true) as ->.
    { apply Nat.ltb_lt. rewrite Hvveq. simpl. lia. }
    destruct (randomPop_spec vv w1 Hvne) as (j & cells & Hj & Hpop2).
    rewrite (bind_ok _ _ _ _ _ Hpop2). cbn [fst].
    destruct (Forall2_lookup_r _ _ _ _ _ Hvv Hj) as (v & Hvj & Hown).
    apply list_elem_of_lookup_2, list_elem_of_filter in Hvj as [Hfit Hv].
    exists (Some cells), (drawn w1). split; [done|].
    split; [eapply grows_trans; [done|apply drawn_grows]|].
    split; [by apply drawn_wf|].
    exists c, v. split; [by eapply list_elem_of_lookup_2|]. split; [done|].
    split; [done|]. by eapply Forall2_owns_grows; [apply drawn_grows|].
Qed.

(** ** Painting the cells of the chosen variation *)

Lemma update_update w cell x y : update (update w cell x) cell y = update w cell y.
Proof. unfold update. simpl. by rewrite list_insert_insert_eq. Qed.

Lemma paint_ok color w cell x :
  valid_color color = true -> heap w !! cell = Some x ->
  (setColor color cell ;;; setAlive cell) w = Ok tt (update w cell (painted color x)).
Proof.
  intros Hv Hx. pose proof (lookup_lt_Some _ _ _ Hx) as Hlt.
  erewrite bind_ok.
  2:{ apply (method_ok _ _ _ x); [done|]. unfold Cell_setColor. by rewrite Hv. }
  set (y := mkCell (getCoordinates x) (isAlive x) (Some color)).
  unfold setAlive. rewrite (method_ok Cell_setAlive _ cell y (painted color x)).
  - by rewrite update_update.
  - rewrite update_lookup by done. by rewrite decide_True.
  - done.
Qed.

Lemma forEach_paint color cells : forall w,
  wf w -> valid_color color = true ->
  Forall (fun cell => is_Some (heap w !! cell)) cells ->
  exists w',
    forEach (fun cell => setColor color cell ;;; setAlive cell) cells w = Ok tt w' /\
    wf w' /\ grid w' = grid w /\ maxX w' = maxX w /\ maxY w' = maxY w /\
    forall cell, heap w' !! cell =
      if decide (cell ∈ cells) then painted color <$> heap w !! cell
      else heap w !! cell.
Proof.
  induction cells as [|cell cells IH]; intros w Hwf Hv Hall.
  - exists w. do 5 (split; [done|]). intros cell.
    rewrite decide_False; [done|]. apply not_elem_of_nil.
  - apply Forall_cons in Hall as [[x Hx] Hall].
    pose proof (lookup_lt_Some _ _ _ Hx) as Hlt.
    destruct (IH (update w cell (painted color x))) as (w' & Hrun & Hwf' & Hg & Hmx & Hmy & Hheap).
    + apply (update_wf w cell x); [done..|]. intros _. by exists color.
    + done.
    + eapply Forall_impl; [done|]. intros cell' [y Hy].
      rewrite update_lookup by done. case_decide; by eexists.
    + exists w'. split.
      { cbn [forEach]. by rewrite (bind_ok _ _ _ _ _ (paint_ok color w cell x Hv Hx)). }
      do 4 (split; [done|]). intros cell'.
      rewrite Hheap, update_lookup by done.
      destruct (decide (cell = cell')) as [->|Hne].
      * rewrite (decide_True (P := cell' ∈ cell' :: cells)) by left.
        rewrite Hx. by case_decide.
      * destruct (decide (cell' ∈ cells)) as [Hin|Hin].
        -- by rewrite decide_True by by right.
        -- rewrite decide_False; [done|]. by intros [?|?]%elem_of_cons.
Qed.

(** ** The generators *)

Lemma tryGenerate_spec center variations color w :
  wf w -> valid_color color = true ->
  center_safe center variations -> center_of_bounds center ->
  exists w',
    tryGenerate center variations color w = Ok tt w' /\ wf w' /\
    maxX w' = maxX w /\ maxY w' = maxY w /\
    ((exists c v, eligible center w c /\ v ∈ variations /\ fits w c v /\
                  placed w w' c v color) \/
     ((forall c v, eligible center w c -> v ∈ variations -> ~ fits w c v) /\
      forall n, snapshot w' n = snapshot w n)).
Proof.
  intros Hwf Hv Hsafe Hext.
  destruct (getAllDeadCells_spec w Hwf) as (cs & dead & w1 & Hdead & Hg1 & Hwf1 & Hown & _ & Hcs).
  destruct (filterCells_spec (center w1) w1 cs dead Hwf1 Hown) as (deadCells & Hfilter & Hcand).
  set (ccs := filter (fun c => center w1 c = true) cs) in *.
  assert (forall c, c ∈ ccs <-> eligible center w c) as Hccs.
  { intros c. unfold ccs, eligible. rewrite list_elem_of_filter, Hcs.
    rewrite (Hext w w1 c (gr_maxX _ _ Hg1) (gr_maxY _ _ Hg1)). tauto. }
  destruct (place_loop_spec variations (S (length deadCells)) w1 deadCells ccs Hwf1 Hcand)
    as (res & w2 & Hloop & Hg2 & Hwf2 & Hres).
  { intros c (Hb & Hc & _)%Hccs. apply Forall_forall. intros v Hin.
    apply (Hsafe w1 c); [|by rewrite (Hext w w1 c (gr_maxX _ _ Hg1) (gr_maxY _ _ Hg1))|done].
    by rewrite (grows_in_bounds _ _ _ Hg1). }
  { lia. }
  pose proof (grows_trans _ _ _ Hg1 Hg2) as Hg.
  assert (forall w3 r, (match r with
            | Some cells => forEach (fun cell => setColor color cell ;;; setAlive cell) cells
            | None => ret tt end) w2 = Ok tt w3 ->
          res = r ->
          tryGenerate center variations color w = Ok tt w3) as Hrun.
  { intros w3 r Hrest <-. unfold tryGenerate.
    rewrite (bind_ok _ _ _ _ _ Hdead), bind_gets, (bind_ok _ _ _ _ _ Hfilter).
    unfold tryInstantiatePattern. by rewrite (bind_ok _ _ _ _ _ Hloop). }
  destruct res as [cells|].
  - destruct Hres as (c & v & Hc & Hin & Hfit & Hcells).
    destruct (forEach_paint color cells w2 Hwf2 Hv (Forall2_owns_is_Some _ _ _ Hwf2 Hcells))
      as (w3 & Hpaint & Hwf3 & Hgr3 & Hmx3 & Hmy3 & Hheap).
    exists w3. split; [by apply (Hrun w3 (Some cells))|]. split; [done|].
    split; [by rewrite Hmx3; apply Hg|]. split; [by rewrite Hmy3; apply Hg|].
    left. exists c, v. split; [by apply Hccs|]. split; [done|].
    split; [by apply (fits_grows _ _ _ _ Hg1)|].
    intros n. rewrite <- (grows_snapshot w w2 n Hg).
    unfold snapshot, aliveAt, colorAt, cellAt. rewrite Hgr3.
    destruct (decide (n ∈ map (offset_by c) v)) as [Hn|Hn].
    + destruct (Forall2_owns_elem _ _ _ _ Hcells Hn) as (cell & Hcell & Ho).
      destruct (owns_lookup w2 n cell Hwf2 Ho) as (x & Hx & _).
      unfold owns in Ho. rewrite Ho, Hheap, decide_True, Hx by done. done.
    + destruct (Map_get (toString n) (grid w2)) as [cell|] eqn:Hm; [|done].
      rewrite Hheap, decide_False; [done|]. intros Hcell.
      destruct (Forall2_owns_elem_r _ _ _ _ Hcells Hcell) as (n' & Hn' & Ho').
      by rewrite (owns_inj w2 n n' cell Hwf2 Hm Ho') in Hn.
  - exists w2. split; [by apply (Hrun w2 None)|]. split; [done|].
    split; [apply Hg|]. split; [apply Hg|]. right. split.
    + intros c v Hc Hin Hfit. apply (Hres c v); [by apply Hccs|done|].
      by apply (fits_grows _ _ _ _ Hg1).
    + intros n. by apply grows_snapshot.
Qed.

Lemma block_center_safe : center_safe block_center block_variations.
Proof.
  intros w c Hb Hc v Hv. unfold block_variations in Hv.
  apply list_elem_of_singleton in Hv as ->.
  unfold block_center in Hc. apply andb_true_iff in Hc as [Hx Hy].
  apply Z.ltb_lt in Hx, Hy. apply in_bounds_spec in Hb.
  repeat constructor; apply in_bounds_spec; simpl; lia.
Qed.

Lemma inner_center_spec w c :
  inner_center w c = true <-> 0 < getX c < maxX w /\ 0 < getY c < maxY w.
Proof. unfold inner_center. rewrite !andb_true_iff, !Z.ltb_lt. lia. Qed.

Lemma blinker_center_safe : center_safe inner_center blinker_variations.
Proof.
  intros w c Hb Hc v Hv. apply inner_center_spec in Hc. unfold blinker_variations in Hv.
  repeat (apply elem_of_cons in Hv as [->|Hv];
          [repeat constructor; apply in_bounds_spec; simpl; lia|]).
  by apply elem_of_nil in Hv.
Qed.

Lemma glider_center_safe : center_safe inner_center glider_variations.
Proof.
  intros w c Hb Hc v Hv. apply inner_center_spec in Hc. unfold glider_variations in Hv.
  repeat (apply elem_of_cons in Hv as [->|Hv];
          [repeat constructor; apply in_bounds_spec; simpl; lia|]).
  by apply elem_of_nil in Hv.
Qed.

Lemma center_of_bounds_pattern p : center_of_bounds (center_of p).
Proof.
  intros w w' c Hx Hy.
  destruct p; simpl; unfold block_center, inner_center; by rewrite Hx, Hy.
Qed.

Lemma center_safe_pattern p : center_safe (center_of p) (variations_of p).
Proof.
  destruct p; [apply block_center_safe|apply blinker_center_safe|apply glider_center_safe].
Qed.

Lemma tryGeneratePattern_eq p :
  tryGeneratePattern p = tryGenerate (center_of p) (variations_of p).
Proof. by destruct p. Qed.

Lemma variations_nonempty p v : v ∈ variations_of p -> v <> [].
Proof.
  destruct p; simpl; unfold block_variations, blinker_variations, glider_variations;
    intros Hv; repeat (apply elem_of_cons in Hv as [->|Hv]; [done|]);
    by apply elem_of_nil in Hv.
Qed.

(** After a placement some position is no longer what it was. *)
Lemma placed_changes w w' c v color :
  v <> [] -> fits w c v -> placed w w' c v color -> ~ nothing_placed w w'.
Proof.
  intros Hne Hfit Hplaced Hnothing. destruct v as [|o v]; [done|].
  apply Forall_cons in Hfit as [Hdead _].
  specialize (Hplaced (offset_by c o)). rewrite decide_True in Hplaced by left.
  rewrite (Hnothing (offset_by c o)) in Hplaced. unfold snapshot in Hplaced.
  congruence.
Qed.

(** ** [getCell], again and again *)

Lemma getCell_cases w c :
  in_bounds w c = true ->
  (exists cell, owns w c cell /\ getCell c w = Ok cell w) \/
  (Map_get (toString c) (grid w) = None /\
   getCell c w = Ok (length (heap w)) (materialize w c)).
Proof.
  intros Hb. destruct (Map_get (toString c) (grid w)) as [cell|] eqn:Hm.
  - left. exists cell. split; [done|]. by apply getCell_owned.
  - right. split; [done|]. by apply getCell_fresh.
Qed.

(** A call other than [setCell] keeps the bounds, the objects the grid
    owns, and the objects themselves; a read keeps their state too. *)
Lemma after_keeps w call :
  maxX (after w call) = maxX w /\ maxY (after w call) = maxY w /\
  (forall c cell, owns w c cell -> owns (after w call) c cell) /\
  (forall cell, is_Some (heap w !! cell) -> is_Some (heap (after w call) !! cell)) /\
  (is_read call = true ->
   forall cell x, heap w !! cell = Some x -> heap (after w call) !! cell = Some x).
Proof.
  unfold after. destruct call as [c|cell op]; simpl.
  - destruct (in_bounds w c) eqn:Hb.
    + destruct (getCell_cases w c Hb) as [(cell & Ho & Hget)|[Hn Hget]];
        rewrite (bind_ok _ _ _ _ _ Hget); simpl; [done|].
      split; [done|]. split; [done|].
      pose proof (materialize_grows w c) as Hg. split; [|split].
      * intros c' cell' Ho. by apply (grows_owns _ _ _ _ Hg).
      * intros cell' [x Hx]. exists x. by apply (grows_lookup _ _ _ _ Hg).
      * intros _ cell' x Hx. by apply (grows_lookup _ _ _ _ Hg).
    + unfold bind. by rewrite (getCell_out_of_bounds w c Hb).
  - unfold method, bind, deref.
    destruct (heap w !! cell) as [x|] eqn:Hx; [|done].
    destruct (Cell_apply op x) as [x'|]; [|done]. simpl.
    split; [done|]. split; [done|]. split; [done|]. split; [|done].
    intros cell' Hy. by rewrite list_lookup_insert_is_Some.
Qed.

Lemma after_all_keeps calls : forall w,
  maxX (after_all calls w) = maxX w /\ maxY (after_all calls w) = maxY w /\
  (forall c cell, owns w c cell -> owns (after_all calls w) c cell) /\
  (forall cell, is_Some (heap w !! cell) -> is_Some (heap (after_all calls w) !! cell)) /\
  (forallb is_read calls = true ->
   forall cell x, heap w !! cell = Some x -> heap (after_all calls w) !! cell = Some x).
Proof.
  unfold after_all. induction calls as [|call calls IH]; intros w; simpl; [done|].
  destruct (after_keeps w call) as (Hx & Hy & Ho & Hs & Hr).
  destruct (IH (after w call)) as (Hx' & Hy' & Ho' & Hs' & Hr').
  split; [congruence|]. split; [congruence|]. split; [|split].
  - intros c cell H. by apply Ho', Ho.
  - intros cell H. by apply Hs', Hs.
  - intros [Hc Hcs]%andb_true_iff cell x H. by apply Hr', Hr.
Qed.

(** ** [serialize] *)

Lemma two_digits_spec n : 0 <= n < 60 -> two_digits n = zero_padded n.
Proof.
  intros Hn.
  assert (Forall (fun n => two_digits n = zero_padded n) (seqZ 0 60)) as Hall.
  { apply (bool_decide_unpack _). vm_compute. exact I. }
  rewrite Forall_forall in Hall. apply Hall, elem_of_seqZ. lia.
Qed.

Lemma valid_color_inv color :
  valid_color color = true ->
  exists r g b, color = [Integer r; Integer g; Integer b] /\
                0 <= r <= 255 /\ 0 <= g <= 255 /\ 0 <= b <= 255.
Proof.
  unfold valid_color. destruct color as [|r [|g [|b [|]]]]; try done.
  destruct r as [r| | |], g as [g| | |], b as [b| | |]; simpl;
    rewrite ?andb_false_r; try done.
  rewrite !andb_true_iff, !Z.leb_le. intros H. exists r, g, b. split; [done|lia].
Qed.

Lemma segment_spec w cell :
  wf w -> cell ∈ live_cells w ->
  exists seg, segment cell w = Ok seg w /\ segment_for w cell seg /\ seg <> EmptyString.
Proof.
  intros Hwf [Hal Hin]%list_elem_of_filter. unfold alive_ref in Hal.
  destruct (heap w !! cell) as [x|] eqn:Hx; [|done].
  destruct (wf_alive w Hwf cell x Hx Hal) as (color & Hc & Hv).
  destruct (valid_color_inv color Hv) as (r & g & b & -> & _).
  exists (segment_of (getX (getCoordinates x)) (getY (getCoordinates x)) r g b).
  split; [|split].
  - unfold segment. rewrite (bind_ok _ _ _ _ _ (deref_ok _ _ _ Hx)), Hc. done.
  - by exists x, r, g, b.
  - unfold segment_of. simpl. destruct (pretty (getX (getCoordinates x))); done.
Qed.

Lemma mapM_segment_spec w cells :
  wf w -> Forall (fun cell => cell ∈ live_cells w) cells ->
  exists segments, mapM segment cells w = Ok segments w /\
                   Forall2 (segment_for w) cells segments /\
                   Forall (fun seg => seg <> EmptyString) segments.
Proof.
  intros Hwf. induction 1 as [|cell cells Hcell Hall (segments & Hrun & IH & Hne)].
  - exists []. split; [done|]. split; constructor.
  - destruct (segment_spec w cell Hwf Hcell) as (seg & Hseg & Hfor & Hn).
    exists (seg :: segments). split; [|split; by constructor].
    simpl. by rewrite (bind_ok _ _ _ _ _ Hseg), (bind_ok _ _ _ _ _ Hrun).
Qed.

Lemma concat_nonempty sep seg segments :
  seg <> EmptyString -> String.concat sep (seg :: segments) <> EmptyString.
Proof.
  intros Hne. destruct seg as [|a seg]; [done|]. simpl. by destruct segments.
Qed.

Lemma serialize_spec w hours minutes seconds :
  wf w -> 0 <= hours < 24 -> 0 <= minutes < 60 -> 0 <= seconds < 60 ->
  exists segments,
    serialize hours minutes seconds w
      = Ok (wire (timestamp hours minutes seconds) segments) w /\
    Forall2 (segment_for w) (live_cells w) segments.
Proof.
  intros Hwf Hh Hm Hs.
  destruct (mapM_segment_spec w (live_cells w) Hwf) as (segments & Hrun & Hall & Hne).
  { by apply Forall_forall. }
  exists segments. split; [|done].
  unfold serialize. rewrite bind_gets, (bind_ok _ _ _ _ _ (live_cells_ok w Hwf)),
    (bind_ok _ _ _ _ _ Hrun).
  rewrite !two_digits_spec by lia. unfold ret. f_equal.
  unfold wire, timestamp, join.
  change (String.concat "" [zero_padded hours; zero_padded minutes; zero_padded seconds])
    with (zero_padded hours +:+ zero_padded minutes +:+ zero_padded seconds).
  destruct segments as [|seg segments]; [done|].
  apply Forall_cons in Hne as [Hseg _].
  pose proof (concat_nonempty "|" seg segments Hseg) as Hc.
  set (date := zero_padded hours +:+ zero_padded minutes +:+ zero_padded seconds).
  change (String.concat "|" (date :: seg :: segments))
    with (date +:+ "|" +:+ String.concat "|" (seg :: segments)).
  by destruct (String.concat "|" (seg :: segments)) as [|a rest].
Qed.

Lemma zero_padded_lacks_pipe n :
  0 <= n < 100 -> lacks pipe (zero_padded n) = true.
Proof.
  intros Hn.
  assert (Forall (fun k => lacks pipe (zero_padded k) = true) (seqZ 0 100)) as Hall.
  { apply (bool_decide_unpack _). vm_compute. exact I. }
  rewrite Forall_forall in Hall. apply Hall, elem_of_seqZ. lia.
Qed.

Lemma timestamp_lacks_pipe hours minutes seconds :
  0 <= hours < 24 -> 0 <= minutes < 60 -> 0 <= seconds < 60 ->
  lacks pipe (timestamp hours minutes seconds) = true.
Proof.
  intros Hh Hm Hs. unfold timestamp.
  rewrite !lacks_app, !zero_padded_lacks_pipe by lia. done.
Qed.

Lemma segment_of_lacks_pipe x y r g b : lacks pipe (segment_of x y r g b) = true.
Proof.
  unfold segment_of.
  change (lacks pipe (Number_toString x +:+ String comma (Number_toString y +:+
            String comma (Number_toString r +:+ String comma (Number_toString g +:+
            String comma (Number_toString b))))) = true).
  repeat (rewrite lacks_app; cbn [lacks]). rewrite !lacks_toString by done. reflexivity.
Qed.

(** A segment splits at its commas into the five numerals. *)
Lemma segment_of_fields x y r g b :
  String_split comma (segment_of x y r g b)
    = [Number_toString x; Number_toString y; Number_toString r;
       Number_toString g; Number_toString b].
Proof.
  unfold segment_of. apply String_split_concat.
  repeat constructor; by apply lacks_toString.
Qed.

(** The output splits at its pipes into the timestamp and the segments. *)
Lemma wire_split w date segments :
  lacks pipe date = true ->
  Forall2 (segment_for w) (live_cells w) segments ->
  String_split pipe (wire date segments) = date :: segments.
Proof.
  intros Hdate Hall. unfold wire. apply String_split_concat.
  constructor; [done|].
  clear Hdate. induction Hall as [|cell seg cells segs Hseg _ IH]; constructor; [|done].
  destruct Hseg as (x & r & g & b & _ & _ & _ & ->). apply segment_of_lacks_pipe.
Qed.

(** The live cells are listed once each, and they are the cells of the
    positions that are alive. *)
Lemma live_cells_spec w :
  wf w ->
  NoDup (live_cells w) /\
  (forall cell, cell ∈ live_cells w <-> exists c, owns w c cell /\ aliveAt w c = true).
Proof.
  intros Hwf. split.
  - apply NoDup_filter. unfold Map_values.
    apply NoDup_fmap_2_strong; [|].
    + intros [k1 v1] [k2 v2] H1 H2 Heq. simpl in Heq. subst v2.
      destruct (wf_entry w Hwf _ _ H1) as (x1 & Hx1 & Hk1 & _).
      destruct (wf_entry w Hwf _ _ H2) as (x2 & Hx2 & Hk2 & _).
      congruence.
    + apply (NoDup_fmap_1 fst), Hwf.
  - intros cell. unfold live_cells. rewrite list_elem_of_filter, elem_of_Map_values. split.
    + intros [Hal [k Hin]].
      destruct (elem_owns w k cell Hwf Hin) as (x & Hx & _ & Ho & _).
      exists (getCoordinates x). split; [done|]. by rewrite <- (owns_alive_ref _ _ _ Ho).
    + intros (c & Ho & Hal). split; [by rewrite (owns_alive_ref _ _ _ Ho)|].
      exists (toString c). by apply owns_elem.
Qed.

(** ** Concrete worlds *)

Lemma wf_check_sound w : wf_check w = true -> wf w.
Proof.
  unfold wf_check. intros [[Hnd Hent]%andb_true_iff Hal]%andb_true_iff.
  apply bool_decide_eq_true in Hnd.
  rewrite forallb_forall in Hent, Hal. split; [done|..].
  - intros k cell Hin. apply list_elem_of_In, Hent in Hin. simpl in Hin.
    destruct (heap w !! cell) as [c|]; [|done].
    apply andb_true_iff in Hin as [Hk Hb]. apply bool_decide_eq_true in Hk.
    by exists c.
  - intros cell c Hc Halive.
    apply list_elem_of_lookup_2, list_elem_of_In, Hal in Hc. rewrite Halive in Hc.
    simpl in Hc. destruct (getColor c) as [color|] eqn:Hcol; [|done]. by exists color.
Qed.

Lemma exact_space_in_range : rgb_in_range exact_space.
Proof.
  intros [[l a] b]. simpl. unfold clamp.
  rewrite !andb_true_iff, !Z.leb_le. lia.
Qed.

Lemma empty_grid_dead mx my rnd c : aliveAt (mkWorld mx my [] [] rnd) c = false.
Proof. done. Qed.

(** ** The classical transition reads the snapshot only *)

Lemma liveNeighborsAt_ext v w c :
  maxX v = maxX w -> maxY v = maxY w ->
  (forall n, snapshot v n = snapshot w n) ->
  liveNeighborsAt v c = liveNeighborsAt w c.
Proof.
  intros Hx Hy Hs. unfold liveNeighborsAt. rewrite (moore_ext w v c Hx Hy).
  apply list_filter_iff. intros n. by injection (Hs n) as -> _.
Qed.

Section ClassicalExt.
Context {CS : ColorSpace}.

Lemma classical_tick_ext v w c :
  maxX v = maxX w -> maxY v = maxY w ->
  (forall n, snapshot v n = snapshot w n) ->
  classical_tick v c = classical_tick w c.
Proof.
  intros Hx Hy Hs.
  assert (forall n, aliveAt v n = aliveAt w n) as Ha by (intros n; by injection (Hs n)).
  assert (forall n, colorAt v n = colorAt w n) as Hc by (intros n; by injection (Hs n)).
  unfold classical_tick, liveCount, birth_color.
  rewrite (liveNeighborsAt_ext v w c Hx Hy Hs), Ha, Hc.
  destruct (liveNeighborsAt w c) as [|n0 [|n1 [|n2 ?]]]; try done.
  by rewrite !Hc.
Qed.

(** On a grid with no live cell the loop has nothing to check. *)
Lemma tick_all_dead w :
  wf w -> (forall c, aliveAt w c = false) -> tick w = Ok tt w.
Proof.
  intros Hwf Hdead.
  assert (live_cells w = []) as Hnil.
  { destruct (live_cells w) as [|cell cells] eqn:Hl; [done|].
    assert (cell ∈ live_cells w) as Hin by (rewrite Hl; left).
    apply (live_cells_spec w Hwf) in Hin as (c & _ & Hal). by rewrite Hdead in Hal. }
  unfold tick, tick_fuel, enough_fuel.
  rewrite bind_gets, (bind_ok _ _ _ _ _ (live_cells_ok w Hwf)).
  by rewrite Hnil.
Qed.
End ClassicalExt.

(** * The transition *)

Lemma snapshot_out_of_bounds w c :
  wf w -> in_bounds w c = false -> snapshot w c = (false, None).
Proof.
  intros Hwf Hb. unfold snapshot, aliveAt, colorAt, cellAt.
  destruct (Map_get (toString c) (grid w)) as [cell|] eqn:Hm; [|done].
  destruct (owns_lookup w c cell Hwf Hm) as (_ & _ & _ & Hb'). congruence.
Qed.

Section TickClaims.
Context {CS : ColorSpace}.

Lemma classical_tick_alive w c :
  (classical_tick w c).1 = rule (aliveAt w c) (liveCount w c).
Proof.
  unfold classical_tick.
  destruct (aliveAt w c); simpl; by destruct (_ || _)%bool || by destruct (_ =? _)%nat.
Qed.

(** C1. [tick] returns; its loop evaluates the cells without flipping any
    of them (after the loop every position is alive or dead as before the
    tick) and the flips are applied afterwards; after the tick a position
    of the grid is alive exactly when the classical rule says so of the
    pre-tick world: a live cell with fewer than two or more than three live
    neighbors is dead, one with two or three is alive, a dead cell with
    exactly three is alive, and any other dead cell is dead. *)
Theorem tick_classical_rule (w0 : World) :
  rgb_in_range CS -> wf w0 ->
  exists visited sw w1 w',
    tick_loop (enough_fuel w0) [] [] (live_cells w0) w0 = Ok (visited, sw) w1 /\
    (forall c, aliveAt w1 c = aliveAt w0 c) /\
    forEach switch sw w1 = Ok tt w' /\
    tick w0 = Ok tt w' /\
    forall c, in_bounds w0 c = true ->
      (aliveAt w0 c = true -> (liveCount w0 c < 2 \/ 3 < liveCount w0 c)%nat ->
       aliveAt w' c = false) /\
      (aliveAt w0 c = true -> (liveCount w0 c = 2 \/ liveCount w0 c = 3)%nat ->
       aliveAt w' c = true) /\
      (aliveAt w0 c = false -> liveCount w0 c = 3%nat -> aliveAt w' c = true) /\
      (aliveAt w0 c = false -> liveCount w0 c <> 3%nat -> aliveAt w' c = false).
Proof.
  intros Hrange Hwf0.
  destruct (tick_run w0 Hrange Hwf0)
    as (visited & sw & w1 & w' & Hloop & Hfor & Htick & Hinv & _ & _ & _ & _ & Hsnap & _).
  exists visited, sw, w1, w'. split; [done|]. split.
  { intros c. by apply (tick_inv_aliveAt w0 w1 visited sw []). }
  split; [done|]. split; [done|]. intros c Hb.
  assert (aliveAt w' c = rule (aliveAt w0 c) (liveCount w0 c)) as ->.
  { rewrite <- classical_tick_alive, <- (Hsnap c Hb). done. }
  unfold rule. repeat split; intros -> Hn.
  - apply orb_false_iff. split; apply Nat.eqb_neq; lia.
  - apply orb_true_iff. rewrite !Nat.eqb_eq. lia.
  - by apply Nat.eqb_eq.
  - by apply Nat.eqb_neq.
Qed.

(** C2. The sparse traversal of [tick] leaves every position of the grid
    in the state the naive evaluation [classical_tick] gives it; it visits
    no cell twice, and only cells that are alive or have a live neighbor,
    so a dead cell with no live neighbor keeps its state; and the result
    does not depend on the order of the visits: the loop run with any other
    way of taking the next cell out of [cellsToCheck] gives the same
    states, and so does [tick] from any other world with the same bounds
    and the same states (whatever the order of its map and the layout of
    its heap). *)
Theorem tick_sparse_is_naive (w0 : World) :
  rgb_in_range CS -> wf w0 ->
  exists visited sw w1 w',
    tick_loop (enough_fuel w0) [] [] (live_cells w0) w0 = Ok (visited, sw) w1 /\
    forEach switch sw w1 = Ok tt w' /\
    tick w0 = Ok tt w' /\
    (forall c, in_bounds w0 c = true -> snapshot w' c = classical_tick w0 c) /\
    NoDup visited /\
    (forall cell, cell ∈ visited ->
       exists c, owns w1 c cell /\
                 (aliveAt w0 c = true \/ (0 < liveCount w0 c)%nat)) /\
    (forall c, aliveAt w0 c = false -> liveCount w0 c = 0%nat ->
       snapshot w' c = snapshot w0 c) /\
    (forall pick, takes_one pick ->
       exists visited' sw' w1' w'',
         tick_loop_any pick (enough_fuel w0) [] [] (live_cells w0) w0
           = Ok (visited', sw') w1' /\
         forEach switch sw' w1' = Ok tt w'' /\
         forall c, snapshot w'' c = snapshot w' c) /\
    (forall v0, wf v0 -> maxX v0 = maxX w0 -> maxY v0 = maxY w0 ->
       (forall c, snapshot v0 c = snapshot w0 c) ->
       exists v', tick v0 = Ok tt v' /\ forall c, snapshot v' c = snapshot w' c).
Proof.
  intros Hrange Hwf0.
  destruct (tick_run w0 Hrange Hwf0)
    as (visited & sw & w1 & w' & Hloop & Hfor & Htick & Hinv & Hwf' & Hmx & Hmy & _ & Hsnap & Hout).
  exists visited, sw, w1, w'. do 4 (split; [done|]).
  split; [apply Hinv|]. split; [|split; [|split]].
  - intros cell Hin.
    assert (cell ∈ visited ++ []) as Hin' by (apply elem_of_app; by left).
    destruct (ti_owned _ _ _ _ _ Hinv cell Hin') as [c Ho].
    exists c. split; [done|]. by apply (ti_near _ _ _ _ _ Hinv cell c).
  - intros c Hd Hn. destruct (in_bounds w0 c) eqn:Hb.
    + rewrite (Hsnap c Hb). unfold classical_tick, snapshot. by rewrite Hd, Hn.
    + by rewrite (Hout c Hb), (snapshot_out_of_bounds w0 c Hwf0 Hb).
  - intros pick Hpick.
    destruct (tick_any_order pick w0 Hpick Hrange Hwf0)
      as (visited' & sw' & w1' & w'' & Hloop' & Hfor' & _ & Hsnap' & Hout').
    exists visited', sw', w1', w''. split; [done|]. split; [done|]. intros c.
    destruct (in_bounds w0 c) eqn:Hb.
    + by rewrite (Hsnap' c Hb), (Hsnap c Hb).
    + by rewrite (Hout' c Hb), (Hout c Hb).
  - intros v0 Hwfv Hvx Hvy Hsame.
    destruct (tick_run v0 Hrange Hwfv)
      as (_ & _ & _ & v' & _ & _ & Htickv & _ & _ & _ & _ & _ & Hsnapv & Houtv).
    exists v'. split; [done|]. intros c.
    assert (in_bounds v0 c = in_bounds w0 c) as Hbv by by apply in_bounds_ext.
    destruct (in_bounds w0 c) eqn:Hb.
    + rewrite (Hsnapv c Hbv), (Hsnap c Hb). by apply classical_tick_ext.
    + by rewrite (Houtv c Hbv), (Hout c Hb).
Qed.

(** With a conversion back to RGB that gives, after rounding, three
    integers in [0, 255], [tick] returns from a world in which every live
    cell has a valid color, with [enough_fuel] and with any more fuel, in a
    world of the same kind; the color of every birth is valid and is the
    color the newborn cell has after the tick; and on a grid with no live
    cell [tick] changes nothing at all. *)
Lemma tick_returns_in_range (w0 : World) :
  rgb_in_range CS -> wf w0 ->
  (exists w', tick w0 = Ok tt w' /\ wf w' /\
     (forall fuel, (enough_fuel w0 <= fuel)%nat -> tick_fuel fuel w0 = Ok tt w') /\
     forall c, in_bounds w0 c = true -> aliveAt w0 c = false ->
               liveCount w0 c = 3%nat ->
       exists color, birth_color w0 c = Some color /\ valid_color color = true /\
                     snapshot w' c = (true, Some color)) /\
  ((forall c, aliveAt w0 c = false) -> tick w0 = Ok tt w0).
Proof.
  intros Hrange Hwf0. split; [|by apply tick_all_dead].
  destruct (tick_run w0 Hrange Hwf0)
    as (visited & sw & w1 & w' & _ & _ & Htick & _ & Hwf' & _ & _ & _ & Hsnap & _).
  exists w'. split; [done|]. split; [done|]. split.
  { intros fuel Hfuel. by rewrite (tick_fuel_enough w0 fuel Hrange Hwf0 Hfuel). }
  intros c Hb Hd Hn.
  destruct (birth_color_valid w0 c Hrange Hwf0 Hd) as (color & Hcol & Hv).
  { unfold flips. by rewrite Hd, Hn. }
  exists color. split; [done|]. split; [done|].
  rewrite (Hsnap c Hb). unfold classical_tick. by rewrite Hd, Hn, Hcol.
Qed.

(** A cell born of three live neighbors that share the color [color] has,
    after the tick, the color that [blend] makes of it three times; whether
    that is [color] itself is a fact of the color-space package. *)
Lemma tick_birth_of_one_color (w0 : World) (c : Coordinates) (color : Color) :
  rgb_in_range CS -> wf w0 -> in_bounds w0 c = true ->
  aliveAt w0 c = false -> liveCount w0 c = 3%nat ->
  (forall n, n ∈ liveNeighborsAt w0 c -> colorAt w0 n = Some color) ->
  exists w', tick w0 = Ok tt w' /\
             snapshot w' c = (true, Some (blend color color color)).
Proof.
  intros Hrange Hwf0 Hb Hd Hn Hcolor.
  destruct (tick_run w0 Hrange Hwf0)
    as (visited & sw & w1 & w' & _ & _ & Htick & _ & _ & _ & _ & _ & Hsnap & _).
  exists w'. split; [done|]. rewrite (Hsnap c Hb). unfold classical_tick.
  rewrite Hd, Hn. simpl. f_equal. unfold birth_color.
  unfold liveCount in Hn.
  destruct (liveNeighborsAt w0 c) as [|n0 [|n1 [|n2 [|]]]]; try done.
  rewrite (Hcolor n0), (Hcolor n1), (Hcolor n2); [done|..].
  - do 2 right. left.
  - right. left.
  - left.
Qed.
End TickClaims.

Lemma blinker_world_wf : wf blinker_world.
Proof. apply wf_check_sound. vm_compute. reflexivity. Qed.

Lemma black_row_world_wf : wf black_row_world.
Proof. apply wf_check_sound. vm_compute. reflexivity. Qed.

(** C4. With the conversions of the package [color-space], [tick] has no
    failure path. The color computed for a birth is valid whatever the
    three colors are, because [xyz.rgb] clamps each channel before it
    scales it to [0, 255]. So from a world in which every live cell has a
    valid color [tick] returns, with [enough_fuel] and with any more fuel,
    in a world of the same kind; the color of every birth is valid and is
    the color the newborn cell has after the tick; and on a grid with no
    live cell [tick] changes nothing at all. *)
Theorem tick_no_failure_path (w0 : World) :
  wf w0 ->
  (forall c0 c1 c2, valid_color (blend (CS := package_space) c0 c1 c2) = true) /\
  (exists w', tick (CS := package_space) w0 = Ok tt w' /\ wf w' /\
     (forall fuel, (enough_fuel w0 <= fuel)%nat ->
                   tick_fuel (CS := package_space) fuel w0 = Ok tt w') /\
     forall c, in_bounds w0 c = true -> aliveAt w0 c = false ->
               liveCount w0 c = 3%nat ->
       exists color,
         birth_color (CS := package_space) w0 c = Some color /\
         valid_color color = true /\
         snapshot w' c = (true, Some color)) /\
  ((forall c, aliveAt w0 c = false) ->
   tick (CS := package_space) w0 = Ok tt w0).
Proof.
  intros Hwf0. split.
  - intros c0 c1 c2. unfold blend.
    destruct (rgb_lab c0) as [[??]?], (rgb_lab c1) as [[??]?],
      (rgb_lab c2) as [[??]?]. apply package_space_in_range.
  - by apply tick_returns_in_range; [apply package_space_in_range|].
Qed.

(** C8 fails on black. Three live black cells in a row revive the cell
    above the middle one, whose live neighbors they are, and [tick] gives
    it the color [19, 0, 10]: [blend] of three equal colors is not always
    that color, because [lab.xyz] is not the inverse of [xyz.lab]. *)
Theorem tick_birth_of_black :
  ~ (forall color, valid_color color = true ->
                   blend (CS := package_space) color color color = color) /\
  liveNeighborsAt black_row_world (mkCoordinates 1 0)
    = [mkCoordinates 0 1; mkCoordinates 1 1; mkCoordinates 2 1] /\
  (forall n, n ∈ liveNeighborsAt black_row_world (mkCoordinates 1 0) ->
             colorAt black_row_world n = Some black) /\
  blend (CS := package_space) black black black
    = [Integer 19; Integer 0; Integer 10] /\
  exists w',
    tick (CS := package_space) black_row_world = Ok tt w' /\
    snapshot black_row_world (mkCoordinates 1 0) = (false, None) /\
    snapshot w' (mkCoordinates 1 0)
      = (true, Some [Integer 19; Integer 0; Integer 10]).
Proof.
  assert (forall n, n ∈ liveNeighborsAt black_row_world (mkCoordinates 1 0) ->
                    colorAt black_row_world n = Some black) as Hcolor.
  { apply Forall_forall. vm_compute. by repeat constructor. }
  split.
  { intros Hsame. specialize (Hsame black eq_refl).
    rewrite blend_black in Hsame. discriminate Hsame. }
  split; [by vm_compute|]. split; [done|]. split; [apply blend_black|].
  destruct (tick_birth_of_one_color (CS := package_space) black_row_world
              (mkCoordinates 1 0) black package_space_in_range
              black_row_world_wf)
    as (w' & Htick & Hsnap); [by vm_compute..|done|].
  exists w'. split; [done|]. split; [by vm_compute|].
  by rewrite Hsnap, blend_black.
Qed.

Lemma tick_classical_rule_witness :
  rgb_in_range exact_space /\ wf blinker_world /\
  exists w', tick (CS := exact_space) blinker_world = Ok tt w' /\
             aliveAt w' (mkCoordinates 1 2) = false /\
             aliveAt w' (mkCoordinates 2 2) = true /\
             aliveAt w' (mkCoordinates 2 1) = true /\
             aliveAt w' (mkCoordinates 0 0) = false.
Proof.
  split; [exact exact_space_in_range|]. split; [exact blinker_world_wf|].
  destruct (tick_classical_rule (CS := exact_space) blinker_world
              exact_space_in_range blinker_world_wf)
    as (visited & sw & w1 & w' & _ & _ & _ & Htick & Hrule).
  exists w'. split; [exact Htick|].
  split; [|split; [|split]].
  - destruct (Hrule (mkCoordinates 1 2) eq_refl) as (Hdies & _).
    apply Hdies; [vm_compute; reflexivity|]. left. vm_compute. lia.
  - destruct (Hrule (mkCoordinates 2 2) eq_refl) as (_ & Hlives & _).
    apply Hlives; [vm_compute; reflexivity|]. left. vm_compute. reflexivity.
  - destruct (Hrule (mkCoordinates 2 1) eq_refl) as (_ & _ & Hborn & _).
    apply Hborn; vm_compute; reflexivity.
  - destruct (Hrule (mkCoordinates 0 0) eq_refl) as (_ & _ & _ & Hstays).
    apply Hstays; [vm_compute; reflexivity|]. vm_compute. discriminate.
Defined.

Lemma tick_sparse_is_naive_witness :
  rgb_in_range exact_space /\ wf blinker_world /\
  exists w', tick (CS := exact_space) blinker_world = Ok tt w' /\
             snapshot w' (mkCoordinates 2 1)
               = (true, Some [Integer 170; Integer 0; Integer 85]) /\
             snapshot w' (mkCoordinates 0 0) = (false, None).
Proof.
  split; [exact exact_space_in_range|]. split; [exact blinker_world_wf|].
  destruct (tick_sparse_is_naive (CS := exact_space) blinker_world
              exact_space_in_range blinker_world_wf)
    as (visited & sw & w1 & w' & _ & _ & Htick & Hsnap & _).
  exists w'. split; [exact Htick|]. split.
  - rewrite (Hsnap (mkCoordinates 2 1)); vm_compute; reflexivity.
  - rewrite (Hsnap (mkCoordinates 0 0)); vm_compute; reflexivity.
Defined.

Lemma tick_no_failure_path_witness :
  wf blinker_world /\
  exists w', tick (CS := package_space) blinker_world = Ok tt w' /\ wf w' /\
    exists color, snapshot w' (mkCoordinates 2 3) = (true, Some color) /\
                  valid_color color = true.
Proof.
  split; [exact blinker_world_wf|].
  destruct (tick_no_failure_path blinker_world blinker_world_wf)
    as (_ & (w' & Htick & Hwf' & _ & Hbirth) & _).
  exists w'. split; [exact Htick|]. split; [exact Hwf'|].
  destruct (Hbirth (mkCoordinates 2 3)) as (color & _ & Hv & Hs);
    [vm_compute; reflexivity..|].
  exists color. split; [exact Hs|exact Hv].
Defined.

(** * Patterns *)

(** C6, as stated, fails: on the grid of a single cell, all dead,
    [tryGenerateBlock] returns with no cell alive. *)
Lemma block_not_placed_on_single_cell :
  ~ block_always_placed single_cell_world red.
Proof.
  intros Hclaim. destruct Hclaim as (w' & Hrun & Hlen); [done|].
  vm_compute in Hrun. injection Hrun as <-. vm_compute in Hlen. discriminate.
Qed.

(** C6, amended. For a valid color: on a grid whose cells are all alive,
    [tryGenerateBlock] changes no cell's alive status or color; on a grid
    whose cells are all dead and which has at least two columns and two rows
    ([maxX >= 1], [maxY >= 1]) it marks the four cells of a 2 by 2 block
    alive with the given color, the top-left corner of the block satisfying
    [x < maxX] and [y < maxY], and changes no other cell. *)
Theorem tryGenerateBlock_spec (w : World) (color : Color) :
  wf w -> valid_color color = true ->
  ((forall c, in_bounds w c = true -> aliveAt w c = true) ->
   exists w', tryGenerateBlock color w = Ok tt w' /\
              forall c, snapshot w' c = snapshot w c) /\
  ((forall c, aliveAt w c = false) -> 1 <= maxX w -> 1 <= maxY w ->
   exists w' x y,
     tryGenerateBlock color w = Ok tt w' /\
     0 <= x < maxX w /\ 0 <= y < maxY w /\
     let block := [mkCoordinates x y; mkCoordinates (x + 1) y;
                   mkCoordinates x (y + 1); mkCoordinates (x + 1) (y + 1)] in
     NoDup block /\
     (forall c, c ∈ block -> snapshot w' c = (true, Some color)) /\
     (forall c, c ∉ block -> snapshot w' c = snapshot w c) /\
     (forall c, aliveAt w' c = true <-> c ∈ block)).
Proof.
  intros Hwf Hv.
  destruct (tryGenerate_spec block_center block_variations color w Hwf Hv
              block_center_safe (center_of_bounds_pattern Block))
    as (w' & Hrun & Hwf' & Hmx & Hmy & Hres).
  split.
  - intros Halive. exists w'. split; [done|].
    destruct Hres as [(c & v & (Hb & _ & Hd) & _)|[_ Hsame]]; [|done].
    rewrite (Halive c Hb) in Hd. done.
  - intros Hdead Hx Hy.
    destruct Hres as [(c & v & (Hb & Hc & _) & Hin & _ & Hplaced)|[Hnone _]].
    + apply list_elem_of_singleton in Hin as ->.
      destruct c as [x y]. apply in_bounds_spec in Hb.
      unfold block_center in Hc. apply andb_true_iff in Hc as [Hcx Hcy].
      apply Z.ltb_lt in Hcx, Hcy. simpl in *.
      exists w', x, y. split; [done|]. split; [lia|]. split; [lia|].
      assert (map (offset_by (mkCoordinates x y)) [(0, 0); (1, 0); (0, 1); (1, 1)] =
              [mkCoordinates x y; mkCoordinates (x + 1) y;
               mkCoordinates x (y + 1); mkCoordinates (x + 1) (y + 1)]) as Hblock.
      { unfold offset_by. simpl. by rewrite !Z.add_0_r. }
      unfold placed in Hplaced. rewrite Hblock in Hplaced.
      split; [|split; [|split]].
      * repeat (apply NoDup_cons; split;
                [rewrite ?elem_of_cons, elem_of_nil; intros H;
                 repeat (destruct H as [H|H]); try done; injection H; lia|]).
        constructor.
      * intros c Hin. by rewrite Hplaced, decide_True.
      * intros c Hin. by rewrite Hplaced, decide_False.
      * intros c. specialize (Hplaced c). unfold snapshot in Hplaced.
        case_decide as Hin.
        -- injection Hplaced as -> _. done.
        -- injection Hplaced as -> _. rewrite Hdead. done.
    + exfalso. apply (Hnone (mkCoordinates 0 0) [(0, 0); (1, 0); (0, 1); (1, 1)]).
      * split; [apply in_bounds_spec; simpl; lia|]. split; [|done].
        unfold block_center. simpl. apply andb_true_iff. rewrite !Z.ltb_lt. lia.
      * left.
      * apply Forall_forall. by intros o _.
Qed.

Lemma empty_world_wf : wf empty_world.
Proof. apply wf_check_sound. vm_compute. reflexivity. Qed.

Lemma tryGenerateBlock_spec_witness :
  wf empty_world /\ valid_color red = true /\
  exists w', tryGenerateBlock red empty_world = Ok tt w' /\
             length (live_cells w') = 4%nat.
Proof.
  split; [exact empty_world_wf|]. split; [reflexivity|].
  destruct (tryGenerateBlock_spec empty_world red empty_world_wf eq_refl) as [_ Hdead].
  destruct Hdead as (w' & x & y & Hrun & _); [done|simpl; lia|simpl; lia|].
  exists w'. split; [exact Hrun|].
  vm_compute in Hrun. injection Hrun as <-. vm_compute. reflexivity.
Defined.

(** C7. For each of the three patterns, on every grid and for every valid
    color and every sequence of random draws, the placement returns: its
    loop is given one unit of fuel per candidate and one more, and never
    exhausts it, each iteration removing the candidate it drew. It places
    nothing exactly when no variation of the pattern fits (consists of dead
    cells only) around any candidate center (a dead cell the pattern's
    filter keeps); otherwise the cells of one fitting variation around one
    candidate become alive with the color and no other cell changes. *)
Theorem placement_complete (p : Pattern) (w : World) (color : Color) :
  wf w -> valid_color color = true ->
  exists w',
    tryGeneratePattern p color w = Ok tt w' /\
    (nothing_placed w w' <-> ~ placeable p w) /\
    (placeable p w ->
     exists c v, eligible (center_of p) w c /\ v ∈ variations_of p /\
                 fits w c v /\ placed w w' c v color).
Proof.
  intros Hwf Hv.
  destruct (tryGenerate_spec (center_of p) (variations_of p) color w Hwf Hv
              (center_safe_pattern p) (center_of_bounds_pattern p))
    as (w' & Hrun & _ & _ & _ & Hres).
  exists w'. split; [by rewrite tryGeneratePattern_eq|].
  destruct Hres as [(c & v & Hc & Hin & Hfit & Hplaced)|[Hnone Hsame]].
  - split; [|intros _; by exists c, v]. split.
    + intros Hnothing. exfalso.
      by apply (placed_changes w w' c v color (variations_nonempty p v Hin) Hfit Hplaced).
    + intros Hnot. destruct Hnot. by exists c, v.
  - split.
    + split; [|done]. intros _ (c & v & Hc & Hin & Hfit). by apply (Hnone c v).
    + intros (c & v & Hc & Hin & Hfit). by destruct (Hnone c v).
Qed.

Lemma placement_complete_witness :
  wf blinker_world /\ valid_color blue = true /\
  exists w', tryGeneratePattern Glider blue blinker_world = Ok tt w' /\
             ~ nothing_placed blinker_world w'.
Proof.
  split; [exact blinker_world_wf|]. split; [reflexivity|].
  destruct (placement_complete Glider blinker_world blue blinker_world_wf eq_refl)
    as (w' & Hrun & Hiff & _).
  exists w'. split; [exact Hrun|]. intros Hnothing. apply Hiff in Hnothing.
  apply Hnothing.
  exists (mkCoordinates 3 3), [(-1, 0); (0, 1); (1, 1); (1, 0); (1, -1)].
  split; [vm_compute; repeat split|]. split; [do 2 right; left|].
  repeat (constructor; [vm_compute; reflexivity|]). constructor.
Defined.

(** The candidates are dead cells. Two variations of the glider leave
    their center out, so around a live center such a variation can consist
    of dead cells only and still not be placed: the center is no
    candidate. *)
Example glider_around_live_center :
  fits lone_center_world (mkCoordinates 1 1)
       [(0, -1); (1, 0); (-1, 1); (0, 1); (1, 1)] /\
  ~ placeable Glider lone_center_world /\
  exists w', tryGenerateGlider blue lone_center_world = Ok tt w' /\
             live_cells w' = [0%nat].
Proof.
  split; [|split].
  - repeat (constructor; [vm_compute; reflexivity|]). constructor.
  - intros (c & v & (Hb & Hc & Hd) & _).
    apply inner_center_spec in Hc. simpl in Hc.
    assert (c = mkCoordinates 1 1) as -> by (destruct c; simpl in *; f_equal; lia).
    vm_compute in Hd. discriminate.
  - eexists. split; [vm_compute; reflexivity|]. vm_compute. reflexivity.
Qed.

(** * Serialization *)

(** C9. [serialize] returns the six digits of the clock (hours, minutes
    and seconds, each zero-padded to two digits), followed, separated by
    pipes, by one segment [x,y,r,g,b] for each live cell in the order of the
    map, coordinates and channels as decimal numerals; there are as many
    segments as live cells, each live cell being listed once, and splitting
    the result at its pipes gives the timestamp and the segments back; with
    no live cell the result is the timestamp alone. *)
Theorem serialize_format (w : World) (hours minutes seconds : Z) :
  wf w -> 0 <= hours < 24 -> 0 <= minutes < 60 -> 0 <= seconds < 60 ->
  exists segments,
    serialize hours minutes seconds w
      = Ok (wire (timestamp hours minutes seconds) segments) w /\
    String.length (timestamp hours minutes seconds) = 6%nat /\
    Forall2 (segment_for w) (live_cells w) segments /\
    length segments = length (live_cells w) /\
    String_split pipe (wire (timestamp hours minutes seconds) segments)
      = timestamp hours minutes seconds :: segments /\
    NoDup (live_cells w) /\
    (forall cell, cell ∈ live_cells w <->
                  exists c, owns w c cell /\ aliveAt w c = true) /\
    (live_cells w = [] ->
     wire (timestamp hours minutes seconds) segments
       = timestamp hours minutes seconds).
Proof.
  intros Hwf Hh Hm Hs.
  destruct (serialize_spec w hours minutes seconds Hwf Hh Hm Hs) as (segments & Hrun & Hall).
  destruct (live_cells_spec w Hwf) as [Hnd Hlive].
  exists segments. split; [done|]. split; [done|]. split; [done|].
  split; [symmetry; by eapply Forall2_length|].
  split; [by eapply wire_split; [apply timestamp_lacks_pipe|]|].
  split; [done|]. split; [done|].
  intros Hnil. rewrite Hnil in Hall. by apply Forall2_nil_inv_l in Hall as ->.
Qed.

Example serialize_blinker_world :
  serialize 9 5 30 blinker_world
    = Ok "090530|1,2,255,0,0|2,2,0,0,255|3,2,255,0,0"%string blinker_world.
Proof. vm_compute. reflexivity. Qed.

Example serialize_empty_world :
  serialize 23 59 0 empty_world = Ok "235900"%string empty_world.
Proof. vm_compute. reflexivity. Qed.

Lemma serialize_format_witness :
  wf blinker_world /\ 0 <= 9 < 24 /\ 0 <= 5 < 60 /\ 0 <= 30 < 60 /\
  exists segments,
    serialize 9 5 30 blinker_world
      = Ok (wire (timestamp 9 5 30) segments) blinker_world /\
    length segments = 3%nat.
Proof.
  split; [exact blinker_world_wf|]. do 3 (split; [lia|]).
  destruct (serialize_format blinker_world 9 5 30 blinker_world_wf
              ltac:(lia) ltac:(lia) ltac:(lia))
    as (segments & Hrun & _ & _ & Hlen & _).
  exists segments. split; [exact Hrun|]. rewrite Hlen. vm_compute. reflexivity.
Defined.

(** * [getCell] *)

(** C10. Within the bounds [getCell] returns a cell of the given
    coordinates; called again at once it returns the same object and
    changes nothing, so the cell has the same alive status and color; at
    coordinates never touched before the object is new, dead and without
    color, and it is stored: after any later calls of [getCell] and of the
    methods of cells (no [setCell]) [getCell] returns that same object for
    the coordinates, in the same state if the calls were all reads. *)
Theorem getCell_same_cell (w : World) (c : Coordinates) :
  wf w -> in_bounds w c = true ->
  exists cell w1 x,
    getCell c w = Ok cell w1 /\
    heap w1 !! cell = Some x /\ getCoordinates x = c /\
    getCell c w1 = Ok cell w1 /\
    (Map_get (toString c) (grid w) = None ->
     x = Cell_new c /\ heap w !! cell = None) /\
    (forall calls,
       getCell c (after_all calls w1) = Ok cell (after_all calls w1) /\
       (forallb is_read calls = true ->
        heap (after_all calls w1) !! cell = Some x)).
Proof.
  intros Hwf Hb.
  assert (exists cell w1 x,
            getCell c w = Ok cell w1 /\ heap w1 !! cell = Some x /\
            getCoordinates x = c /\ owns w1 c cell /\ in_bounds w1 c = true /\
            (Map_get (toString c) (grid w) = None ->
             x = Cell_new c /\ heap w !! cell = None))
    as (cell & w1 & x & Hget & Hx & Hcx & Ho & Hb1 & Hnew).
  { destruct (getCell_cases w c Hb) as [(cell & Ho & Hget)|[Hn Hget]].
    - destruct (owns_lookup w c cell Hwf Ho) as (x & Hx & Hcx & _).
      exists cell, w, x. do 5 (split; [done|]). unfold owns in Ho. congruence.
    - exists (length (heap w)), (materialize w c), (Cell_new c).
      split; [done|]. split; [by simpl; rewrite lookup_app_r, Nat.sub_diag|].
      split; [done|]. split; [by apply materialize_owns|]. split; [done|].
      intros _. split; [done|]. by apply lookup_ge_None_2. }
  exists cell, w1, x. do 3 (split; [done|]).
  split; [by apply getCell_owned|]. split; [done|].
  intros calls.
  destruct (after_all_keeps calls w1) as (Hmx & Hmy & Hkeep & _ & Hread).
  split; [|intros Hr; by apply Hread].
  apply getCell_owned; [|by apply Hkeep].
  by rewrite (in_bounds_ext w1 (after_all calls w1) c Hmx Hmy).
Qed.

Lemma getCell_same_cell_witness :
  wf empty_world /\ in_bounds empty_world (mkCoordinates 1 2) = true /\
  exists cell w1,
    getCell (mkCoordinates 1 2) empty_world = Ok cell w1 /\
    heap w1 !! cell = Some (Cell_new (mkCoordinates 1 2)) /\
    getCell (mkCoordinates 1 2) w1 = Ok cell w1.
Proof.
  split; [exact empty_world_wf|]. split; [reflexivity|].
  destruct (getCell_same_cell empty_world (mkCoordinates 1 2) empty_world_wf eq_refl)
    as (cell & w1 & x & Hget & Hx & _ & Hagain & Hnew & _).
  exists cell, w1. split; [exact Hget|]. split; [|exact Hagain].
  destruct (Hnew eq_refl) as [-> _]. exact Hx.
Defined.


(** * Further properties of the engine *)

(** ** Coordinates and cells *)

(** X1. Two coordinates of safe integers have the same key exactly when
    they are the same point: [Coordinates.prototype.toString] is unique for
    each such coordinates, negative ones included. *)
Theorem Coordinates_toString_unique (c1 c2 : Coordinates) :
  safe_coordinates c1 -> safe_coordinates c2 ->
  toString c1 = toString c2 <-> c1 = c2.
Proof.
  intros _ _. split; [apply (inj toString)|by intros ->].
Qed.

Lemma lacks_comma_toString z : lacks comma (Number_toString z) = true.
Proof. by apply lacks_toString. Qed.

(** X2. The key of coordinates of safe integers splits at its comma into
    two numerals that [parseInt] reads back as the coordinates:
    [getAllDeadCells] rebuilds from a key the coordinates the key was made
    from. *)
Theorem Coordinates_toString_parse (c : Coordinates) :
  safe_coordinates c ->
  exists sx sy,
    String_split comma (toString c) = [sx; sy] /\
    lacks comma sx = true /\ lacks comma sy = true /\
    parseInt (Some sx) = Integer (getX c) /\
    parseInt (Some sy) = Integer (getY c) /\
    Coordinates_new (parseInt (Some sx)) (parseInt (Some sy)) = Some c.
Proof.
  intros _. exists (Number_toString (getX c)), (Number_toString (getY c)).
  split; [apply split_comma_toString|].
  split; [apply lacks_comma_toString|]. split; [apply lacks_comma_toString|].
  rewrite !parseInt_toString. split; [done|]. split; [done|]. by destruct c.
Qed.

Lemma Cell_apply_coordinates op x x' :
  Cell_apply op x = Some x' -> getCoordinates x' = getCoordinates x.
Proof.
  destruct op as [color| |]; simpl.
  - unfold Cell_setColor. case_match; [|done]. by intros [= <-].
  - unfold Cell_setAlive. case_match; [|done]. by intros [= <-].
  - by intros [= <-].
Qed.

Lemma Cell_run_coordinates ops : forall x,
  getCoordinates (Cell_run ops x) = getCoordinates x.
Proof.
  induction ops as [|op ops IH]; intros x; simpl; [done|].
  destruct (Cell_apply op x) as [x'|] eqn:Hop; [|apply IH].
  rewrite IH. by eapply Cell_apply_coordinates.
Qed.

Lemma Cell_run_app ops1 ops2 x :
  Cell_run (ops1 ++ ops2) x = Cell_run ops2 (Cell_run ops1 x).
Proof.
  revert x. induction ops1 as [|op ops1 IH]; intros x; simpl; [done|].
  destruct (Cell_apply op x); apply IH.
Qed.

(** X3. Whatever was called on a cell before, its coordinates are those it
    was constructed with, [setDead] brings it back to the state of a new
    cell, and [setColor] with a valid color followed by [setAlive] leaves it
    alive with that color. *)
Theorem Cell_calls_compose (x : Cell) (ops : list CellOp) (color : Color) :
  valid_color color = true ->
  getCoordinates (Cell_run ops x) = getCoordinates x /\
  Cell_run (ops ++ [OpSetDead]) x = Cell_new (getCoordinates x) /\
  Cell_run (ops ++ [OpSetColor color; OpSetAlive]) x
    = mkCell (getCoordinates x) true (Some color) /\
  Cell_run (ops ++ [OpSetDead; OpSetAlive]) x = Cell_new (getCoordinates x).
Proof.
  intros Hv. split; [apply Cell_run_coordinates|].
  rewrite !Cell_run_app. simpl. unfold Cell_setColor. rewrite Hv. simpl.
  by rewrite Cell_run_coordinates.
Qed.

Lemma Cell_calls_compose_witness :
  valid_color red = true /\
  Cell_run [OpSetColor blue; OpSetAlive; OpSetColor red; OpSetAlive]
           (Cell_new (mkCoordinates 1 2))
    = mkCell (mkCoordinates 1 2) true (Some red).
Proof.
  split; [reflexivity|].
  exact (proj1 (proj2 (proj2
    (Cell_calls_compose (Cell_new (mkCoordinates 1 2))
       [OpSetColor blue; OpSetAlive] red eq_refl)))).
Defined.

(** ** The constructor, [getCell] and [setCell] *)

Lemma getCell_throws_iff w c : getCell c w = Throw <-> in_bounds w c = false.
Proof.
  split; [|apply getCell_out_of_bounds].
  destruct (in_bounds w c) eqn:Hb; [|done].
  destruct (getCell_cases w c Hb) as [(cell & _ & ->)|[_ ->]]; done.
Qed.

(** X4. [getCell] throws exactly for coordinates outside the grid, and from
    no world does it fail otherwise. *)
Theorem getCell_bounds (w : World) (c : Coordinates) :
  (getCell c w = Throw <->
   getX c < 0 \/ maxX w < getX c \/ getY c < 0 \/ maxY w < getY c) /\
  (0 <= getX c <= maxX w -> 0 <= getY c <= maxY w ->
   exists cell w', getCell c w = Ok cell w').
Proof.
  split.
  - rewrite getCell_throws_iff, <- not_true_iff_false, in_bounds_spec. lia.
  - intros Hx Hy.
    assert (in_bounds w c = true) as Hb by (apply in_bounds_spec; lia).
    destruct (getCell_cases w c Hb) as [(cell & _ & ->)|[_ ->]]; by eexists _, _.
Qed.

(** X5. [new Grid(maxX, maxY)] fails exactly when a bound is not an
    integer. The new grid has no live cell; and when a bound is negative,
    which the constructor accepts, the grid has no position at all:
    [getCell] throws for every coordinates. *)
Theorem Grid_new_spec (mx my : number) (rnd : nat -> nat) :
  (Grid_new mx my rnd = None <->
   Number_isInteger mx = false \/ Number_isInteger my = false) /\
  (forall w, Grid_new mx my rnd = Some w ->
     wf w /\ mx = Integer (maxX w) /\ my = Integer (maxY w) /\
     grid w = [] /\
     (forall c, snapshot w c = (false, None)) /\
     (maxX w < 0 \/ maxY w < 0 -> forall c, getCell c w = Throw)).
Proof.
  split.
  - unfold Grid_new. destruct (Number_isInteger mx), (Number_isInteger my);
      split; first [done | by (intros _; left) | by (intros _; right) | by intros [?|?]].
  - intros w Hnew. split; [by eapply Grid_new_wf|].
    unfold Grid_new in Hnew.
    destruct mx; try done. destruct my; try done.
    simpl in Hnew. injection Hnew as <-. simpl.
    split; [done|]. split; [done|]. split; [done|]. split; [done|].
    intros Hneg c. apply getCell_throws_iff.
    apply not_true_iff_false. rewrite in_bounds_spec. simpl. lia.
Qed.

Lemma Map_get_set_eq k v m : Map_get k (Map_set k v m) = Some v.
Proof.
  induction m as [|[k' v'] m IH]; simpl.
  - by rewrite decide_True.
  - destruct (decide (k' = k)) as [->|Hk]; simpl.
    + by rewrite decide_True.
    + by rewrite decide_False.
Qed.

Lemma Map_get_set_ne k k' v m : k' <> k -> Map_get k' (Map_set k v m) = Map_get k' m.
Proof.
  intros Hne. induction m as [|[k0 v0] m IH]; simpl.
  - by rewrite decide_False.
  - destruct (decide (k0 = k)) as [->|Hk]; simpl.
    + by rewrite !decide_False by done.
    + by rewrite IH.
Qed.

Lemma Map_set_keys k v m :
  (Map_set k v m).*1 = if decide (k ∈ m.*1) then m.*1 else m.*1 ++ [k].
Proof.
  induction m as [|[k0 v0] m IH].
  - case_decide as Hin; [|done]. by apply elem_of_nil in Hin.
  - cbn [Map_set]. destruct (decide (k0 = k)) as [->|Hk].
    + rewrite !fmap_cons. cbn [fst]. rewrite decide_True; [done|]. left.
    + rewrite !fmap_cons. cbn [fst]. rewrite IH.
      destruct (decide (k ∈ m.*1)) as [Hin|Hin].
      * rewrite decide_True; [done|]. by right.
      * rewrite decide_False; [done|]. rewrite not_elem_of_cons. by split.
Qed.

Lemma Map_set_elem k v m k' v' :
  (k', v') ∈ Map_set k v m -> (k' = k /\ v' = v) \/ (k', v') ∈ m.
Proof.
  induction m as [|[k0 v0] m IH]; simpl.
  - intros Hin. apply list_elem_of_singleton in Hin. injection Hin as -> ->. by left.
  - destruct (decide (k0 = k)) as [->|Hk].
    + intros [[= -> ->]|Hin]%elem_of_cons; [by left|]. right. by right.
    + intros [[= -> ->]|Hin]%elem_of_cons; [right; left|].
      destruct (IH Hin) as [?|?]; [by left|]. right. by right.
Qed.

Lemma Map_set_NoDup k v m : NoDup m.*1 -> NoDup (Map_set k v m).*1.
Proof.
  intros Hnd. rewrite Map_set_keys. case_decide as Hin; [done|].
  apply NoDup_app. split; [done|]. split; [|apply NoDup_singleton].
  intros k' Hk' ->%list_elem_of_singleton. done.
Qed.

Lemma setCell_ok w cell x :
  heap w !! cell = Some x -> in_bounds w (getCoordinates x) = true ->
  setCell cell w = Ok cell (replaced w (getCoordinates x) cell).
Proof.
  intros Hx Hb. unfold setCell.
  rewrite (bind_ok _ _ _ _ _ (deref_ok w cell x Hx)).
  unfold bind, gets, assert. apply in_bounds_spec in Hb.
  rewrite !(proj2 (Z.leb_le _ _)) by lia. done.
Qed.

Lemma setCell_out_of_bounds w cell x :
  heap w !! cell = Some x -> in_bounds w (getCoordinates x) = false ->
  setCell cell w = Throw.
Proof.
  intros Hx Hb. unfold setCell.
  rewrite (bind_ok _ _ _ _ _ (deref_ok w cell x Hx)).
  unfold bind, gets, assert. unfold in_bounds in Hb.
  destruct (0 <=? getX (getCoordinates x)); [|done].
  destruct (getX (getCoordinates x) <=? maxX w); [|done].
  destruct (0 <=? getY (getCoordinates x)); [|done].
  by destruct (getY (getCoordinates x) <=? maxY w).
Qed.

Lemma replaced_wf w cell x :
  wf w -> heap w !! cell = Some x -> in_bounds w (getCoordinates x) = true ->
  wf (replaced w (getCoordinates x) cell).
Proof.
  intros Hwf Hx Hb. split; simpl.
  - apply Map_set_NoDup, Hwf.
  - intros k cell' Hin. apply Map_set_elem in Hin as [[-> ->]|Hin].
    + by exists x.
    + by apply (wf_entry w Hwf).
  - apply Hwf.
Qed.

Lemma replaced_owns w c cell : owns (replaced w c cell) c cell.
Proof. apply Map_get_set_eq. Qed.

Lemma replaced_owns_ne w c cell c' cell' :
  c' <> c -> owns (replaced w c cell) c' cell' <-> owns w c' cell'.
Proof.
  intros Hne. unfold owns, replaced. simpl. rewrite Map_get_set_ne; [done|].
  intros Heq. by apply (inj toString) in Heq.
Qed.

Lemma replaced_snapshot_ne w c cell c' :
  c' <> c -> snapshot (replaced w c cell) c' = snapshot w c'.
Proof.
  intros Hne. unfold snapshot, aliveAt, colorAt, cellAt, replaced. simpl.
  rewrite Map_get_set_ne; [done|].
  intros Heq. by apply (inj toString) in Heq.
Qed.

Lemma replaced_snapshot w c cell x :
  heap w !! cell = Some x ->
  snapshot (replaced w c cell) c = (isAlive x, getColor x).
Proof.
  intros Hx. unfold snapshot, aliveAt, colorAt, cellAt, replaced. simpl.
  by rewrite Map_get_set_eq, Hx.
Qed.

(** X6. [setCell] throws exactly when the coordinates of the cell lie outside
    the grid. Otherwise the cell is what [getCell] returns for its
    coordinates from then on, the position shows the cell's state, every
    other position keeps its cell, and the key keeps its place in the map
    when it was there (a new key goes to the end). *)
Theorem setCell_then_getCell (w : World) (cell : nat) (x : Cell) :
  wf w -> heap w !! cell = Some x ->
  (in_bounds w (getCoordinates x) = false -> setCell cell w = Throw) /\
  (in_bounds w (getCoordinates x) = true ->
   exists w',
     setCell cell w = Ok cell w' /\ wf w' /\
     heap w' = heap w /\ maxX w' = maxX w /\ maxY w' = maxY w /\
     getCell (getCoordinates x) w' = Ok cell w' /\
     snapshot w' (getCoordinates x) = (isAlive x, getColor x) /\
     (forall c cell', c <> getCoordinates x -> owns w' c cell' <-> owns w c cell') /\
     (forall c, c <> getCoordinates x -> snapshot w' c = snapshot w c) /\
     (grid w').*1 =
       if decide (toString (getCoordinates x) ∈ (grid w).*1) then (grid w).*1
       else (grid w).*1 ++ [toString (getCoordinates x)]).
Proof.
  intros Hwf Hx. split; [by apply setCell_out_of_bounds|]. intros Hb.
  exists (replaced w (getCoordinates x) cell).
  split; [by apply setCell_ok|]. split; [by apply replaced_wf|].
  do 3 (split; [done|]).
  split; [apply getCell_owned; [done|apply replaced_owns]|].
  split; [by apply replaced_snapshot|].
  split; [intros c cell' Hne; by apply replaced_owns_ne|].
  split; [intros c Hne; by apply replaced_snapshot_ne|].
  apply Map_set_keys.
Qed.

Lemma method_call_only w old op :
  grid (after w (CallMethod old op)) = grid w /\
  forall cell, cell <> old -> heap (after w (CallMethod old op)) !! cell = heap w !! cell.
Proof.
  unfold after. simpl. unfold method, bind, deref.
  destruct (heap w !! old) as [x|]; [|done].
  destruct (Cell_apply op x) as [x'|]; [|done]. simpl. split; [done|].
  intros cell Hne. by apply list_lookup_insert_ne.
Qed.

Lemma method_calls_only old ops : forall w,
  grid (after_all (map (CallMethod old) ops) w) = grid w /\
  forall cell, cell <> old ->
    heap (after_all (map (CallMethod old) ops) w) !! cell = heap w !! cell.
Proof.
  induction ops as [|op ops IH]; intros w; [done|].
  unfold after_all in *. simpl.
  destruct (IH (after w (CallMethod old op))) as [Hg Hh].
  destruct (method_call_only w old op) as [Hg1 Hh1].
  split; [congruence|]. intros cell Hne. by rewrite Hh, Hh1.
Qed.

(** X7. [setCell] replaces the object of a position: once another object is
    stored for the coordinates, no call of a method on the former object
    changes the state of any position of the grid. *)
Theorem setCell_detaches (w : World) (old new : nat) (x : Cell) :
  wf w -> owns w (getCoordinates x) old -> heap w !! new = Some x -> new <> old ->
  exists w',
    setCell new w = Ok new w' /\
    getCell (getCoordinates x) w' = Ok new w' /\
    forall (ops : list CellOp) (c : Coordinates),
      snapshot (after_all (map (CallMethod old) ops) w') c = snapshot w' c.
Proof.
  intros Hwf Ho Hx Hne.
  destruct (owns_lookup w _ old Hwf Ho) as (xo & Hxo & Hco & Hb).
  pose proof (replaced_wf w new x Hwf Hx Hb) as Hwf'.
  exists (replaced w (getCoordinates x) new).
  split; [by apply setCell_ok|].
  split; [apply getCell_owned; [done|apply replaced_owns]|].
  intros ops c.
  destruct (method_calls_only old ops (replaced w (getCoordinates x) new)) as [Hg Hh].
  unfold snapshot, aliveAt, colorAt, cellAt. rewrite Hg.
  destruct (Map_get (toString c) (grid (replaced w (getCoordinates x) new)))
    as [cell|] eqn:Hget; [|done].
  rewrite Hh; [done|]. intros ->.
  apply Map_get_Some in Hget as Hin.
  apply Map_set_elem in Hin as [[_ ?]|Hin]; [done|].
  destruct (elem_owns w _ old Hwf Hin) as (xo' & Hxo' & Hk & _).
  assert (xo' = xo) as -> by congruence.
  rewrite Hco in Hk. rewrite Hk in Hget.
  change (owns (replaced w (getCoordinates x) new) (getCoordinates x) old) in Hget.
  pose proof (replaced_owns w (getCoordinates x) new) as Hnew.
  unfold owns in Hget, Hnew. congruence.
Qed.

(** ** [neighbors] *)

Lemma moore_count w c :
  in_bounds w c = true ->
  Z.of_nat (length (moore w c)) = span (getX c) (maxX w) * span (getY c) (maxY w) - 1.
Proof.
  intros Hb%in_bounds_spec. unfold span, moore, neighbor_offsets. cbn [map].
  destruct (decide (getX c = 0)) as [Hx0|Hx0], (decide (getX c = maxX w)) as [Hx1|Hx1],
           (decide (getY c = 0)) as [Hy0|Hy0], (decide (getY c = maxY w)) as [Hy1|Hy1];
    repeat first
      [ rewrite filter_cons_True by (apply in_bounds_spec; simpl; lia)
      | rewrite filter_cons_False by (rewrite in_bounds_spec; simpl; lia) ];
    rewrite filter_nil; cbn [length];
    set (sx := Z.min (getX c + 1) (maxX w) - Z.max (getX c - 1) 0 + 1);
    set (sy := Z.min (getY c + 1) (maxY w) - Z.max (getY c - 1) 0 + 1);
    first [replace sx with 1 by (unfold sx; lia)
          |replace sx with 2 by (unfold sx; lia)
          |replace sx with 3 by (unfold sx; lia)];
    first [replace sy with 1 by (unfold sy; lia)
          |replace sy with 2 by (unfold sy; lia)
          |replace sy with 3 by (unfold sy; lia)];
    reflexivity.
Qed.

Lemma moore_NoDup w c : NoDup (moore w c).
Proof.
  unfold moore. apply NoDup_filter. unfold neighbor_offsets, offset_by. cbn [map fst snd].
  repeat (apply NoDup_cons; split;
          [rewrite ?elem_of_cons, elem_of_nil; intros H;
           repeat (destruct H as [H|H]; [injection H; lia|]); done|]).
  apply NoDup_nil_2.
Qed.

Lemma Forall2_owns_NoDup w cs cells :
  wf w -> Forall2 (owns w) cs cells -> NoDup cs -> NoDup cells.
Proof.
  intros Hwf Hall. induction Hall as [|c cell cs cells Ho Hall IH]; intros Hnd.
  - constructor.
  - apply NoDup_cons in Hnd as [Hc Hnd]. apply NoDup_cons. split; [|by apply IH].
    intros Hin. destruct (Forall2_owns_elem_r _ _ _ _ Hall Hin) as (n & Hn & Ho').
    by rewrite <- (owns_inj w n c cell Hwf Ho' Ho) in Hc.
Qed.

(** X8. [neighbors] returns one cell for each position of the Moore
    neighborhood that lies within the grid: eight inside, five on an edge,
    three in a corner of a grid of at least two rows and columns, and in
    general the product of the spans minus one. The cells are distinct, the
    cell itself is not among them, and no position changes state. *)
Theorem neighbors_count (w : World) (cell : nat) (x : Cell) :
  wf w -> heap w !! cell = Some x -> in_bounds w (getCoordinates x) = true ->
  exists nbs w',
    neighbors cell w = Ok nbs w' /\
    Z.of_nat (length nbs)
      = span (getX (getCoordinates x)) (maxX w)
        * span (getY (getCoordinates x)) (maxY w) - 1 /\
    NoDup nbs /\ (cell ∉ nbs) /\
    (forall n, n ∈ nbs ->
       exists y, heap w' !! n = Some y /\
                 getCoordinates y ∈ moore w (getCoordinates x)) /\
    (forall c, snapshot w' c = snapshot w c).
Proof.
  intros Hwf Hx Hb.
  destruct (neighbors_spec w cell x Hwf Hx) as (nbs & w' & Hrun & Hg & Hwf' & Hall).
  exists nbs, w'. split; [done|].
  split; [rewrite <- (Forall2_length _ _ _ Hall); by apply moore_count|].
  split; [eapply Forall2_owns_NoDup; [done..|apply moore_NoDup]|].
  assert (forall n, n ∈ nbs ->
            exists y, heap w' !! n = Some y /\
                      getCoordinates y ∈ moore w (getCoordinates x)) as Hnbs.
  { intros n Hin. destruct (Forall2_owns_elem_r _ _ _ _ Hall Hin) as (c & Hc & Ho).
    destruct (owns_lookup w' c n Hwf' Ho) as (y & Hy & <- & _). by exists y. }
  split; [|split; [done|intros c; by apply grows_snapshot]].
  intros Hin. destruct (Hnbs cell Hin) as (y & Hy & Hm).
  rewrite (grows_lookup _ _ _ _ Hg Hx) in Hy. injection Hy as <-.
  apply elem_of_moore in Hm. by destruct Hm as (_ & Hne & _).
Qed.

(** X9. Being a neighbor is symmetric: the cell of one position is among
    the neighbors of the cell of another exactly when the converse holds. *)
Theorem neighbors_symmetric (w : World) (ca cb : Coordinates) (a b : nat) :
  wf w -> owns w ca a -> owns w cb b ->
  exists nbsa wa nbsb wb,
    neighbors a w = Ok nbsa wa /\ neighbors b w = Ok nbsb wb /\
    (b ∈ nbsa <-> a ∈ nbsb).
Proof.
  intros Hwf Hoa Hob.
  destruct (owns_lookup w ca a Hwf Hoa) as (xa & Hxa & Hca & Hba).
  destruct (owns_lookup w cb b Hwf Hob) as (xb & Hxb & Hcb & Hbb).
  destruct (neighbors_spec w a xa Hwf Hxa) as (nbsa & wa & Hra & Hga & Hwfa & Halla).
  destruct (neighbors_spec w b xb Hwf Hxb) as (nbsb & wb & Hrb & Hgb & Hwfb & Hallb).
  exists nbsa, wa, nbsb, wb. split; [done|]. split; [done|].
  rewrite Hca in Halla. rewrite Hcb in Hallb.
  assert (forall c1 c2 x1 x2 w1 w2 nbs1 nbs2,
            in_bounds w c1 = true ->
            owns w c1 x1 -> owns w c2 x2 -> grows w w1 -> grows w w2 ->
            wf w1 -> Forall2 (owns w1) (moore w c1) nbs1 ->
            Forall2 (owns w2) (moore w c2) nbs2 ->
            x2 ∈ nbs1 -> x1 ∈ nbs2) as Hhalf.
  { intros c1 c2 x1 x2 w1 w2 nbs1 nbs2 Hb1 Ho1 Ho2 Hg1 Hg2 Hwf1 Hall1 Hall2 Hin.
    destruct (Forall2_owns_elem_r _ _ _ _ Hall1 Hin) as (n & Hn & Ho).
    assert (n = c2) as ->.
    { eapply (owns_inj w1); [done|exact Ho|]. by eapply grows_owns. }
    apply moore_sym in Hn; [|done].
    destruct (Forall2_owns_elem _ _ _ _ Hall2 Hn) as (cell & Hcell & Ho').
    assert (cell = x1) as ->; [|done].
    eapply owns_fun; [exact Ho'|]. by eapply grows_owns. }
  split; intros Hin.
  - by eapply (Hhalf ca cb a b wa wb nbsa nbsb).
  - by eapply (Hhalf cb ca b a wb wa nbsb nbsa).
Qed.

Lemma Coordinates_toString_unique_witness :
  safe_coordinates (mkCoordinates 12 (-3)) /\
  safe_coordinates (mkCoordinates 1 23) /\
  toString (mkCoordinates 12 (-3)) <> toString (mkCoordinates 1 23).
Proof.
  split; [split; reflexivity|]. split; [split; reflexivity|].
  intros Hkey.
  apply (Coordinates_toString_unique (mkCoordinates 12 (-3)) (mkCoordinates 1 23))
    in Hkey; [discriminate Hkey|split; reflexivity..].
Defined.

Lemma Coordinates_toString_parse_witness :
  safe_coordinates (mkCoordinates 12 (-3)) /\
  exists sx sy,
    String_split comma "12,-3" = [sx; sy] /\
    Coordinates_new (parseInt (Some sx)) (parseInt (Some sy))
      = Some (mkCoordinates 12 (-3)).
Proof.
  split; [split; reflexivity|].
  destruct (Coordinates_toString_parse (mkCoordinates 12 (-3)))
    as (sx & sy & Hsplit & _ & _ & _ & _ & Hnew); [split; reflexivity|].
  exists sx, sy. split; [exact Hsplit|exact Hnew].
Defined.

Lemma setCell_then_getCell_witness :
  wf blinker_world /\
  heap blinker_world !! 0%nat = Some (mkCell (mkCoordinates 1 2) true (Some red)) /\
  exists w', setCell 0 blinker_world = Ok 0%nat w' /\
             getCell (mkCoordinates 1 2) w' = Ok 0%nat w'.
Proof.
  split; [exact blinker_world_wf|]. split; [reflexivity|].
  destruct (setCell_then_getCell blinker_world 0 _ blinker_world_wf eq_refl) as [_ Hin].
  destruct (Hin eq_refl) as (w' & Hset & _ & _ & _ & _ & Hget & _).
  exists w'. split; [exact Hset|exact Hget].
Defined.

Lemma spare_cell_world_wf : wf spare_cell_world.
Proof. apply wf_check_sound. vm_compute. reflexivity. Qed.

Lemma setCell_detaches_witness :
  wf spare_cell_world /\
  owns spare_cell_world (mkCoordinates 1 1) 0 /\
  heap spare_cell_world !! 1%nat = Some (Cell_new (mkCoordinates 1 1)) /\
  1%nat <> 0%nat /\
  exists w',
    setCell 1 spare_cell_world = Ok 1%nat w' /\
    snapshot (after_all [CallMethod 0 OpSetDead] w') (mkCoordinates 1 1)
      = snapshot w' (mkCoordinates 1 1).
Proof.
  split; [exact spare_cell_world_wf|]. split; [reflexivity|]. split; [reflexivity|].
  split; [lia|].
  destruct (setCell_detaches spare_cell_world 0 1 (Cell_new (mkCoordinates 1 1))
              spare_cell_world_wf eq_refl eq_refl ltac:(lia)) as (w' & Hset & _ & Hsame).
  exists w'. split; [exact Hset|]. exact (Hsame [OpSetDead] (mkCoordinates 1 1)).
Defined.

Lemma neighbors_count_witness :
  wf blinker_world /\
  heap blinker_world !! 0%nat = Some (mkCell (mkCoordinates 1 2) true (Some red)) /\
  in_bounds blinker_world (mkCoordinates 1 2) = true /\
  exists nbs w', neighbors 0 blinker_world = Ok nbs w' /\ length nbs = 8%nat.
Proof.
  split; [exact blinker_world_wf|]. split; [reflexivity|]. split; [reflexivity|].
  destruct (neighbors_count blinker_world 0 _ blinker_world_wf eq_refl eq_refl)
    as (nbs & w' & Hrun & Hlen & _).
  exists nbs, w'. split; [exact Hrun|].
  change (span _ _ * span _ _ - 1) with 8 in Hlen. lia.
Defined.

Lemma neighbors_symmetric_witness :
  wf blinker_world /\
  owns blinker_world (mkCoordinates 1 2) 0 /\ owns blinker_world (mkCoordinates 2 2) 1 /\
  exists nbsa wa nbsb wb,
    neighbors 0 blinker_world = Ok nbsa wa /\ neighbors 1 blinker_world = Ok nbsb wb /\
    (1%nat ∈ nbsa <-> 0%nat ∈ nbsb).
Proof.
  split; [exact blinker_world_wf|]. split; [reflexivity|]. split; [reflexivity|].
  exact (neighbors_symmetric blinker_world (mkCoordinates 1 2) (mkCoordinates 2 2) 0 1
           blinker_world_wf eq_refl eq_refl).
Defined.

(** ** [allCoordinates] and [getAllDeadCells] *)

Lemma Set_add_new k s : k ∉ s -> Set_add k s = s ++ [k].
Proof. intros Hk. unfold Set_add. by rewrite decide_False. Qed.

Lemma fold_Set_add (cs : list Coordinates) : forall done,
  NoDup (done ++ cs) ->
  foldl (fun set c => Set_add (toString c) set) (map toString done) cs
    = map toString (done ++ cs).
Proof.
  induction cs as [|c cs IH]; intros done Hnd; simpl.
  - by rewrite app_nil_r.
  - rewrite Set_add_new.
    + change (map toString done ++ [toString c]) with (map toString done ++ map toString [c]).
      rewrite <- map_app, IH; rewrite <- app_assoc; done.
    + apply NoDup_app in Hnd as (_ & Hdisj & _).
      intros (c' & Heq & Hin)%list_elem_of_fmap. apply (inj toString) in Heq. subst c'.
      apply (Hdisj c Hin). left.
Qed.

Lemma allCoordinates_row_fold xs y set :
  allCoordinates_row xs y set
    = foldl (fun set c => Set_add (toString c) set) set
            (map (fun x => mkCoordinates x y) xs).
Proof.
  unfold allCoordinates_row. revert set.
  induction xs as [|x xs IH]; intros set; simpl; [done|]. apply IH.
Qed.

Lemma allCoordinates_fold w :
  allCoordinates w
    = foldl (fun set c => Set_add (toString c) set) [] (row_major w).
Proof.
  unfold allCoordinates, row_major. generalize (@nil string) as set.
  induction (seqZ 0 (maxY w + 1)) as [|y ys IH]; intros set; [done|].
  cbn [foldl mbind list_bind]. rewrite foldl_app, IH. f_equal.
  rewrite allCoordinates_row_fold. f_equal.
Qed.

Lemma elem_of_row_major w c : c ∈ row_major w <-> in_bounds w c = true.
Proof.
  unfold row_major. rewrite in_bounds_spec, list_elem_of_bind. split.
  - intros (y & (x & ->%list_elem_of_singleton & Hx)%list_elem_of_bind & Hy).
    apply elem_of_seqZ in Hx, Hy. simpl. lia.
  - intros Hb. exists (getY c). rewrite elem_of_seqZ. split; [|lia].
    apply list_elem_of_bind. exists (getX c). rewrite elem_of_seqZ.
    split; [|lia]. destruct c. simpl. left.
Qed.

Lemma NoDup_row_major w : NoDup (row_major w).
Proof.
  unfold row_major. apply NoDup_bind.
  - intros y1 y2 c _ _ (x1 & ->%list_elem_of_singleton & _)%list_elem_of_bind
      (x2 & [= _ ->]%list_elem_of_singleton & _)%list_elem_of_bind. done.
  - intros y _. apply NoDup_bind.
    + intros x1 x2 c _ _ ->%list_elem_of_singleton [= ->]%list_elem_of_singleton. done.
    + intros x _. apply NoDup_singleton.
    + apply NoDup_seqZ.
  - apply NoDup_seqZ.
Qed.

Lemma length_row_major w : length (row_major w) = area w.
Proof.
  unfold row_major, area.
  assert (forall y, length (x ← seqZ 0 (maxX w + 1); [mkCoordinates x y])
                    = Z.to_nat (maxX w + 1)) as Hrow.
  { intros y. rewrite <- (length_seqZ 0 (maxX w + 1)).
    induction (seqZ 0 (maxX w + 1)) as [|x xs IH]; [done|]. cbn. by rewrite IH. }
  rewrite <- (length_seqZ 0 (maxY w + 1)).
  induction (seqZ 0 (maxY w + 1)) as [|y ys IH]; [simpl; lia|].
  cbn [mbind list_bind]. rewrite length_app, Hrow.
  cbn [mbind] in IH. rewrite IH. simpl. lia.
Qed.

(** X10. [allCoordinates] lists the key of every position of the grid once,
    row by row, and nothing else. *)
Theorem allCoordinates_row_major (w : World) :
  allCoordinates w = map toString (row_major w) /\
  NoDup (allCoordinates w) /\
  length (allCoordinates w) = area w /\
  (forall c, toString c ∈ allCoordinates w <->
             0 <= getX c <= maxX w /\ 0 <= getY c <= maxY w).
Proof.
  assert (allCoordinates w = map toString (row_major w)) as Heq.
  { rewrite allCoordinates_fold.
    apply (fold_Set_add (row_major w) []), NoDup_row_major. }
  split; [done|]. split; [apply NoDup_allCoordinates|].
  split; [by rewrite Heq, length_map, length_row_major|].
  intros c. rewrite elem_of_allCoordinates, <- in_bounds_spec. split.
  - intros (c' & Hb & Hk). apply (inj toString) in Hk. by subst.
  - intros Hb. by exists c.
Qed.

Lemma filter_ext_in {A} (P Q : A -> Prop) `{!forall x, Decision (P x)}
    `{!forall x, Decision (Q x)} (l : list A) :
  (forall x, x ∈ l -> P x <-> Q x) -> filter P l = filter Q l.
Proof.
  induction l as [|a l IH]; intros Hpq; [done|].
  rewrite !filter_cons. rewrite IH by (intros x Hx; apply Hpq; by right).
  destruct (decide (P a)) as [Hp|Hp], (decide (Q a)) as [Hq|Hq]; try done.
  - destruct Hq. apply Hpq; [left|done].
  - destruct Hp. apply Hpq; [left|done].
Qed.

Lemma filter_map_toString (P : string -> Prop) `{!forall k, Decision (P k)}
    (cs : list Coordinates) :
  filter P (map toString cs) = map toString (filter (fun c => P (toString c)) cs).
Proof.
  induction cs as [|c cs IH]; [done|].
  cbn [map]. rewrite !filter_cons, IH. by case_decide.
Qed.

(** The keys of the live cells among [xs]. *)
Lemma deadCoordinates_filter xs : forall set,
  foldl (fun set c =>
           if isAlive c then Set_delete (toString (getCoordinates c)) set
           else set) set xs
  = filter (fun k => k ∉ map (fun x => toString (getCoordinates x))
                             (filter (fun x => isAlive x = true) xs)) set.
Proof.
  induction xs as [|x xs IH]; intros set.
  - simpl. induction set as [|k set IHs]; [done|].
    rewrite filter_cons_True by apply not_elem_of_nil. by rewrite <- IHs.
  - cbn [foldl]. rewrite IH. rewrite filter_cons.
    destruct (isAlive x) eqn:Hal.
    + rewrite decide_True by done. unfold Set_delete.
      rewrite list_filter_filter. apply list_filter_iff. intros k. cbn [map].
      rewrite not_elem_of_cons. split; [intros [? ?]|intros [? ?]]; by split.
    + rewrite decide_False by congruence. done.
Qed.

Lemma dense_alive w c : wf w -> aliveAt w c = true -> exists cell, owns w c cell.
Proof.
  unfold aliveAt, cellAt, owns. intros _ Hal.
  destruct (Map_get (toString c) (grid w)) as [cell|]; [by exists cell|done].
Qed.

Lemma lengths_filter {A} (P : A -> Prop) `{!forall x, Decision (P x)} (l : list A) :
  (length (filter P l) + length (filter (fun x => ~ P x) l) = length l)%nat.
Proof.
  rewrite <- length_app. by rewrite (filter_app_complement P l).
Qed.

Lemma allCoordinates_eq w : allCoordinates w = map toString (row_major w).
Proof.
  rewrite allCoordinates_fold.
  apply (fold_Set_add (row_major w) []), NoDup_row_major.
Qed.

Lemma owns_row_major w c cell : wf w -> owns w c cell -> c ∈ row_major w.
Proof.
  intros Hwf Ho. apply elem_of_row_major.
  by destruct (owns_lookup w c cell Hwf Ho) as (_ & _ & _ & Hb).
Qed.

Lemma live_cells_positions w :
  wf w ->
  exists cs, Forall2 (owns w) cs (live_cells w) /\ cs ≡ₚ live_positions w.
Proof.
  intros Hwf. destruct (live_cells_spec w Hwf) as [Hnd Hlive].
  assert (exists cs, Forall2 (owns w) cs (live_cells w)) as [cs Hcs].
  { assert (Forall (fun cell => exists c, owns w c cell) (live_cells w)) as Hall.
    { apply Forall_forall. intros cell (c & Ho & _)%Hlive. by exists c. }
    clear -Hall. induction Hall as [|cell cells [c Hc] _ [cs Hcs]].
    - exists []. constructor.
    - exists (c :: cs). by constructor. }
  exists cs. split; [done|]. apply NoDup_Permutation.
  - clear Hlive. induction Hcs as [|c cell cs cells Ho Hall IH]; [constructor|].
    apply NoDup_cons in Hnd as [Hcell Hnd]. apply NoDup_cons. split; [|by apply IH].
    intros Hin. destruct (Forall2_owns_elem _ _ _ _ Hall Hin) as (cell' & Hcell' & Ho').
    by rewrite (owns_fun _ _ _ _ Ho' Ho) in Hcell'.
  - apply NoDup_filter, NoDup_row_major.
  - intros c. unfold live_positions. rewrite list_elem_of_filter. split.
    + intros Hin. destruct (Forall2_owns_elem _ _ _ _ Hcs Hin) as (cell & Hcell & Ho).
      apply Hlive in Hcell as (c' & Ho' & Hal).
      rewrite (owns_inj w c c' cell Hwf Ho Ho'). split; [done|].
      by eapply owns_row_major.
    + intros [Hal Hin]. destruct (dense_alive w c Hwf Hal) as [cell Ho].
      assert (cell ∈ live_cells w) as Hcell by (apply Hlive; by exists c).
      destruct (Forall2_owns_elem_r _ _ _ _ Hcs Hcell) as (c' & Hc' & Ho').
      by rewrite (owns_inj w c c' cell Hwf Ho Ho').
Qed.

Lemma length_live_cells w : wf w -> length (live_cells w) = length (live_positions w).
Proof.
  intros Hwf. destruct (live_cells_positions w Hwf) as (cs & Hall & Hperm).
  by rewrite <- (Forall2_length _ _ _ Hall), Hperm.
Qed.

Lemma live_dead_positions w :
  (length (live_positions w) + length (dead_positions w) = area w)%nat.
Proof.
  rewrite <- length_row_major. unfold live_positions, dead_positions.
  rewrite <- (lengths_filter (fun c => aliveAt w c = true) (row_major w)).
  f_equal. f_equal. apply list_filter_iff. intros c. by rewrite not_true_iff_false.
Qed.

Lemma getAllDeadCells_ordered w :
  wf w ->
  exists cells w',
    getAllDeadCells w = Ok cells w' /\ grows w w' /\ wf w' /\
    Forall2 (owns w') (dead_positions w) cells.
Proof.
  intros Hwf.
  destruct (mapM_deref (Map_values (grid w)) w) as (xs & Hxs & Hall).
  { apply Forall_forall. intros cell [k Hin]%elem_of_Map_values.
    destruct (wf_entry w Hwf _ _ Hin) as (x & Hx & _). by exists x. }
  destruct (mapM_parse_getCell (dead_positions w) w Hwf)
    as (cells & w' & Hmap & Hg & Hwf' & Hown).
  { apply Forall_forall. intros c [_ Hc]%list_elem_of_filter.
    by apply elem_of_row_major. }
  exists cells, w'. split; [|done].
  unfold getAllDeadCells. rewrite !bind_gets, (bind_ok _ _ _ _ _ Hxs).
  change (allCoordinates (id w)) with (allCoordinates w).
  rewrite deadCoordinates_filter, allCoordinates_eq, filter_map_toString.
  rewrite (filter_ext_in _ (fun c => aliveAt w c = false)); [exact Hmap|].
  intros c Hc. split.
  - intros Hnot. destruct (aliveAt w c) eqn:Hal; [|done]. destruct Hnot.
    destruct (dense_alive w c Hwf Hal) as [cell Ho].
    destruct (owns_lookup w c cell Hwf Ho) as (x & Hx & Hcx & _).
    apply list_elem_of_fmap. exists x. split; [by rewrite Hcx|].
    apply list_elem_of_filter. split; [by rewrite <- (owns_aliveAt _ _ _ _ Ho Hx)|].
    apply Map_get_Some, (list_elem_of_fmap_2 snd) in Ho. simpl in Ho.
    destruct (proj1 (list_elem_of_lookup _ _) Ho) as [i Hi].
    destruct (Forall2_lookup_l _ _ _ _ _ Hall Hi) as (y & Hy & Hcy).
    assert (y = x) as -> by congruence. by eapply list_elem_of_lookup_2.
  - intros Hd (x & Hk & [Hal Hx]%list_elem_of_filter)%list_elem_of_fmap.
    apply (inj toString) in Hk.
    destruct (proj1 (list_elem_of_lookup _ _) Hx) as [i Hi].
    destruct (Forall2_lookup_r _ _ _ _ _ Hall Hi) as (cell & Hcell & Hhx).
    apply list_elem_of_lookup_2, elem_of_Map_values in Hcell as [k Hin].
    destruct (elem_owns w k cell Hwf Hin) as (x' & Hx' & -> & Ho & _).
    assert (x' = x) as -> by congruence.
    rewrite <- Hk in Ho. rewrite (owns_aliveAt _ _ _ _ Ho Hhx) in Hd. congruence.
Qed.

Lemma dense_after_candidates w w' cells :
  wf w -> grows w w' -> Forall2 (owns w') (dead_positions w) cells -> dense w'.
Proof.
  intros Hwf Hg Hown c Hb. rewrite (grows_in_bounds _ _ _ Hg) in Hb.
  destruct (aliveAt w c) eqn:Hal.
  - destruct (dense_alive w c Hwf Hal) as [cell Ho]. exists cell. by eapply grows_owns.
  - destruct (Forall2_owns_elem _ _ _ c Hown) as (cell & _ & Ho); [|by exists cell].
    apply list_elem_of_filter. split; [done|]. by apply elem_of_row_major.
Qed.

Lemma keys_in_bounds w k :
  wf w -> k ∈ (grid w).*1 -> k ∈ map toString (row_major w).
Proof.
  intros Hwf ([k' cell] & -> & Hin)%list_elem_of_fmap. simpl.
  destruct (elem_owns w k' cell Hwf Hin) as (x & _ & -> & Ho & _).
  apply list_elem_of_fmap_2. by eapply owns_row_major.
Qed.

(** The map never holds more cells than the grid has positions. *)
Lemma grid_bounded w : wf w -> (length (grid w) <= area w)%nat.
Proof.
  intros Hwf. rewrite <- length_row_major, <- (length_map toString).
  rewrite <- (length_fmap fst (grid w)).
  apply submseteq_length, NoDup_submseteq; [apply Hwf|].
  intros k. by apply keys_in_bounds.
Qed.

Lemma dense_length w : wf w -> dense w -> length (grid w) = area w.
Proof.
  intros Hwf Hd. rewrite <- length_row_major, <- (length_map toString).
  rewrite <- (length_fmap fst (grid w)).
  apply Permutation_length, NoDup_Permutation.
  - apply Hwf.
  - apply (NoDup_fmap_2 toString), NoDup_row_major.
  - intros k. split; [by apply keys_in_bounds|].
    intros (c & -> & Hc)%list_elem_of_fmap.
    destruct (Hd c) as [cell Ho]; [by apply elem_of_row_major|].
    apply list_elem_of_fmap. exists (toString c, cell). split; [done|].
    by apply owns_elem.
Qed.

(** X11. [getAllDeadCells] returns the cell of every dead position of the
    grid, row by row, each once: together with the live cells they are as
    many as the grid has positions. No position changes state, but a cell
    is constructed for every dead position never touched before, so the
    map holds a cell for every position afterwards. *)
Theorem getAllDeadCells_row_major (w : World) :
  wf w ->
  exists cells w',
    getAllDeadCells w = Ok cells w' /\ wf w' /\
    Forall2 (owns w') (dead_positions w) cells /\
    NoDup cells /\
    (length cells + length (live_cells w) = area w)%nat /\
    (forall c, snapshot w' c = snapshot w c) /\
    dense w' /\ length (grid w') = area w.
Proof.
  intros Hwf.
  destruct (getAllDeadCells_ordered w Hwf) as (cells & w' & Hrun & Hg & Hwf' & Hown).
  pose proof (dense_after_candidates w w' cells Hwf Hg Hown) as Hdense.
  exists cells, w'. split; [done|]. split; [done|]. split; [done|].
  split; [eapply Forall2_owns_NoDup; [done..|apply NoDup_filter, NoDup_row_major]|].
  split.
  { rewrite <- (Forall2_length _ _ _ Hown), (length_live_cells w Hwf).
    rewrite Nat.add_comm. apply live_dead_positions. }
  split; [intros c; by apply grows_snapshot|]. split; [done|].
  rewrite (dense_length w' Hwf' Hdense). unfold area.
  by rewrite (gr_maxX _ _ Hg), (gr_maxY _ _ Hg).
Qed.

Lemma getAllDeadCells_row_major_witness :
  wf blinker_world /\
  exists cells w',
    getAllDeadCells blinker_world = Ok cells w' /\
    length cells = 22%nat /\ length (grid w') = 25%nat.
Proof.
  split; [exact blinker_world_wf|].
  destruct (getAllDeadCells_row_major blinker_world blinker_world_wf)
    as (cells & w' & Hrun & _ & _ & _ & Hlen & _ & _ & Hgrid).
  exists cells, w'. split; [exact Hrun|]. split; [|exact Hgrid].
  change (length (live_cells blinker_world)) with 3%nat in Hlen.
  change (area blinker_world) with 25%nat in Hlen. lia.
Defined.

(** ** [filterValidVariations] *)

Lemma mapM_getCell_throws cs : forall w,
  wf w -> ~ Forall (fun c => in_bounds w c = true) cs -> mapM getCell cs w = Throw.
Proof.
  induction cs as [|c cs IH]; intros w Hwf Hnot; [by destruct Hnot|].
  cbn [mapM]. destruct (in_bounds w c) eqn:Hb.
  - destruct (getCell_spec w c Hwf Hb) as (cell & w1 & Hget & Hg & Hwf1 & _).
    rewrite (bind_ok _ _ _ _ _ Hget). unfold bind at 1. rewrite IH; [done..|].
    intros Hall. apply Hnot. constructor; [done|].
    eapply Forall_impl; [exact Hall|]. intros c' Hc'.
    by rewrite <- (grows_in_bounds _ _ _ Hg).
  - unfold bind at 1. by rewrite (getCell_out_of_bounds w c Hb).
Qed.

Lemma variation_cells_throws cell c variations : forall w,
  wf w -> owns w c cell ->
  ~ Forall (fun v => Forall (fun o => in_bounds w (offset_by c o) = true) v) variations ->
  mapM (fun variation =>
          x <- deref cell ;;
          cs <- lift (addOffsets (getCoordinates x) variation) ;;
          mapM getCell cs) variations w = Throw.
Proof.
  induction variations as [|v variations IH]; intros w Hwf Ho Hnot; [by destruct Hnot|].
  destruct (owns_lookup w c cell Hwf Ho) as (x & Hx & Hcx & _).
  cbn [mapM].
  destruct (decide (Forall (fun o => in_bounds w (offset_by c o) = true) v)) as [Hv|Hv].
  - destruct (variation_cells_spec cell c [v] w Hwf Ho) as (cellss & w1 & Hrun & Hg & Hwf1 & _).
    { by constructor. }
    cbn [mapM] in Hrun. apply bind_inv in Hrun as (cells & w1' & Hone & Hrest).
    injection Hrest as _ <-.
    rewrite (bind_ok _ _ _ _ _ Hone). unfold bind at 1. rewrite IH; [done|done| |].
    + by eapply grows_owns.
    + intros Hall. apply Hnot. constructor; [done|].
      eapply Forall_impl; [exact Hall|]. intros v' Hv'.
      eapply Forall_impl; [exact Hv'|]. intros o Hb.
      by rewrite <- (grows_in_bounds _ _ _ Hg).
  - unfold bind at 1. rewrite (bind_ok _ _ _ _ _ (deref_ok _ _ _ Hx)).
    rewrite addOffsets_eq. unfold lift. unfold bind at 1.
    rewrite mapM_getCell_throws; [done|done|].
    intros Hall. apply Hv. rewrite Hcx in Hall.
    by apply Forall_fmap in Hall.
Qed.

(** X28. [filterValidVariations] returns, in their order, the cells of
    exactly those variations around the cell that consist of dead cells
    only, and changes the state of no position. As its caller is warned,
    an offset that leaves the grid makes it throw, whether or not the
    variation would have been kept. *)
Theorem filterValidVariations_keeps_fitting (w : World) (cell : nat)
    (c : Coordinates) (variations : list (list (Z * Z))) :
  wf w -> owns w c cell ->
  (Forall (fun v => Forall (fun o => in_bounds w (offset_by c o) = true) v) variations ->
   exists vv w',
     filterValidVariations cell variations w = Ok vv w' /\ wf w' /\
     Forall2 (fun v cells => Forall2 (owns w') (map (offset_by c) v) cells)
             (filter (fits w c) variations) vv /\
     (forall n, snapshot w' n = snapshot w n)) /\
  (~ Forall (fun v => Forall (fun o => in_bounds w (offset_by c o) = true) v) variations ->
   filterValidVariations cell variations w = Throw).
Proof.
  intros Hwf Ho. split.
  - intros Hall.
    destruct (filterValidVariations_spec cell c variations w Hwf Ho Hall)
      as (vv & w' & Hrun & Hg & Hwf' & Hvv).
    exists vv, w'. split; [done|]. split; [done|]. split; [done|].
    intros n. by apply grows_snapshot.
  - intros Hnot. unfold filterValidVariations. unfold bind at 1.
    by rewrite (variation_cells_throws cell c variations w Hwf Ho Hnot).
Qed.

Lemma filterValidVariations_keeps_fitting_witness :
  wf blinker_world /\ owns blinker_world (mkCoordinates 2 2) 1 /\
  (exists vv w', filterValidVariations 1 [[(0, -1); (0, 1)]; [(-1, 0); (1, 0)]]
                   blinker_world = Ok vv w' /\ length vv = 1%nat) /\
  filterValidVariations 1 [[(3, 0)]] blinker_world = Throw.
Proof.
  split; [exact blinker_world_wf|]. split; [reflexivity|].
  destruct (filterValidVariations_keeps_fitting blinker_world 1 (mkCoordinates 2 2)
              [[(0, -1); (0, 1)]; [(-1, 0); (1, 0)]] blinker_world_wf eq_refl)
    as [Hok _].
  destruct (filterValidVariations_keeps_fitting blinker_world 1 (mkCoordinates 2 2)
              [[(3, 0)]] blinker_world_wf eq_refl) as [_ Hthrow].
  split.
  - destruct Hok as (vv & w' & Hrun & _ & Hvv & _).
    { repeat constructor. }
    exists vv, w'. split; [exact Hrun|].
    rewrite <- (Forall2_length _ _ _ Hvv). vm_compute. reflexivity.
  - apply Hthrow. intros Hall. apply Forall_cons in Hall as [Hv _].
    apply Forall_cons in Hv as [Hb _]. vm_compute in Hb. discriminate.
Defined.

(** ** The generators, beyond their placement *)

Lemma dense_grows w w' : grows w w' -> dense w -> dense w'.
Proof.
  intros Hg Hd c Hb. rewrite (grows_in_bounds _ _ _ Hg) in Hb.
  destruct (Hd c Hb) as [cell Ho]. exists cell. by eapply grows_owns.
Qed.

Lemma dense_same_grid w w' :
  grid w' = grid w -> maxX w' = maxX w -> maxY w' = maxY w -> dense w -> dense w'.
Proof.
  intros Hg Hx Hy Hd c Hb. rewrite (in_bounds_ext w w' c Hx Hy) in Hb.
  destruct (Hd c Hb) as [cell Ho]. exists cell. unfold owns. by rewrite Hg.
Qed.

Lemma forEach_paint_invalid color cells w :
  valid_color color = false -> cells <> [] ->
  Forall (fun cell => is_Some (heap w !! cell)) cells ->
  forEach (fun cell => setColor color cell ;;; setAlive cell) cells w = Throw.
Proof.
  intros Hv Hne Hall. destruct cells as [|cell cells]; [done|].
  apply Forall_cons in Hall as [[x Hx] _]. cbn [forEach].
  unfold bind at 1. unfold bind at 1.
  unfold setColor. rewrite (method_Throw _ w cell x Hx); [done|].
  unfold Cell_setColor. by rewrite Hv.
Qed.

(** What a generator does, for any color: when some variation fits around
    a candidate, one such variation is painted, or the call throws at the
    first [setColor] when the color is not valid; otherwise nothing
    changes. *)
Lemma tryGenerate_outcome center variations color w :
  wf w -> center_safe center variations -> center_of_bounds center ->
  (forall v, v ∈ variations -> v <> []) ->
  ((exists c v, eligible center w c /\ v ∈ variations /\ fits w c v) /\
   if valid_color color then
     exists w' c v,
       tryGenerate center variations color w = Ok tt w' /\ wf w' /\
       maxX w' = maxX w /\ maxY w' = maxY w /\ dense w' /\
       eligible center w c /\ v ∈ variations /\ fits w c v /\
       placed w w' c v color
   else tryGenerate center variations color w = Throw) \/
  ((forall c v, eligible center w c -> v ∈ variations -> ~ fits w c v) /\
   exists w',
     tryGenerate center variations color w = Ok tt w' /\ wf w' /\
     grows w w' /\ dense w').
Proof.
  intros Hwf Hsafe Hext Hnonempty.
  destruct (getAllDeadCells_ordered w Hwf) as (dead & w1 & Hdead & Hg1 & Hwf1 & Hown).
  pose proof (dense_after_candidates w w1 dead Hwf Hg1 Hown) as Hd1.
  destruct (filterCells_spec (center w1) w1 _ dead Hwf1 Hown) as (deadCells & Hfilter & Hcand).
  set (ccs := filter (fun c => center w1 c = true) (dead_positions w)) in *.
  assert (forall c, c ∈ ccs <-> eligible center w c) as Hccs.
  { intros c. unfold ccs, eligible, dead_positions.
    rewrite !list_elem_of_filter, elem_of_row_major.
    rewrite (Hext w w1 c (gr_maxX _ _ Hg1) (gr_maxY _ _ Hg1)). tauto. }
  destruct (place_loop_spec variations (S (length deadCells)) w1 deadCells ccs Hwf1 Hcand)
    as (res & w2 & Hloop & Hg2 & Hwf2 & Hres).
  { intros c (Hb & Hc & _)%Hccs. apply Forall_forall. intros v Hin.
    apply (Hsafe w1 c); [|by rewrite (Hext w w1 c (gr_maxX _ _ Hg1) (gr_maxY _ _ Hg1))|done].
    by rewrite (grows_in_bounds _ _ _ Hg1). }
  { lia. }
  pose proof (grows_trans _ _ _ Hg1 Hg2) as Hg.
  assert (tryGenerate center variations color w =
          match res with
          | Some cells => forEach (fun cell => setColor color cell ;;; setAlive cell) cells
          | None => ret tt
          end w2) as Hrun.
  { unfold tryGenerate.
    rewrite (bind_ok _ _ _ _ _ Hdead), bind_gets, (bind_ok _ _ _ _ _ Hfilter).
    unfold tryInstantiatePattern. by rewrite (bind_ok _ _ _ _ _ Hloop). }
  destruct res as [cells|].
  - destruct Hres as (c & v & Hc & Hin & Hfit & Hcells). left.
    assert (fits w c v) as Hfit0 by by apply (fits_grows _ _ _ _ Hg1).
    split; [exists c, v; split; [by apply Hccs|done]|].
    pose proof (Forall2_owns_is_Some _ _ _ Hwf2 Hcells) as Hsome.
    destruct (valid_color color) eqn:Hv.
    + destruct (forEach_paint color cells w2 Hwf2 Hv Hsome)
        as (w3 & Hpaint & Hwf3 & Hgr3 & Hmx3 & Hmy3 & Hheap).
      exists w3, c, v. split; [by rewrite Hrun|]. split; [done|].
      split; [by rewrite Hmx3; apply Hg|]. split; [by rewrite Hmy3; apply Hg|].
      split; [apply (dense_same_grid w2 w3 Hgr3 Hmx3 Hmy3), (dense_grows w1 w2 Hg2 Hd1)|].
      split; [by apply Hccs|]. split; [done|]. split; [done|].
      intros n. rewrite <- (grows_snapshot w w2 n Hg).
      unfold snapshot, aliveAt, colorAt, cellAt. rewrite Hgr3.
      destruct (decide (n ∈ map (offset_by c) v)) as [Hn|Hn].
      * destruct (Forall2_owns_elem _ _ _ _ Hcells Hn) as (cell & Hcell & Ho).
        destruct (owns_lookup w2 n cell Hwf2 Ho) as (x & Hx & _).
        unfold owns in Ho. rewrite Ho, Hheap, decide_True, Hx by done. done.
      * destruct (Map_get (toString n) (grid w2)) as [cell|] eqn:Hm; [|done].
        rewrite Hheap, decide_False; [done|]. intros Hcell.
        destruct (Forall2_owns_elem_r _ _ _ _ Hcells Hcell) as (n' & Hn' & Ho').
        by rewrite (owns_inj w2 n n' cell Hwf2 Hm Ho') in Hn.
    + rewrite Hrun. apply forEach_paint_invalid; [done| |done].
      intros ->. apply Forall2_nil_inv_r in Hcells.
      apply (Hnonempty v Hin). by destruct v.
  - right. split.
    + intros c v Hc Hin Hfit. apply (Hres c v); [by apply Hccs|done|].
      by apply (fits_grows _ _ _ _ Hg1).
    + exists w2. split; [by rewrite Hrun|]. split; [done|]. split; [done|].
      apply (dense_grows w1 w2 Hg2 Hd1).
Qed.

Global Instance offset_by_inj c : Inj (=) (=) (offset_by c).
Proof.
  intros [dx1 dy1] [dx2 dy2]. unfold offset_by. simpl. intros [= Hx Hy].
  f_equal; lia.
Qed.

Lemma variations_NoDup p v : v ∈ variations_of p -> NoDup v /\ length v = size_of p.
Proof.
  destruct p; simpl; unfold block_variations, blinker_variations, glider_variations;
    intros Hv;
    repeat (apply elem_of_cons in Hv as [->|Hv];
            [split; [apply (bool_decide_unpack _); vm_compute; exact I|done]|]);
    by apply elem_of_nil in Hv.
Qed.

Lemma live_positions_same w w' :
  maxX w' = maxX w -> maxY w' = maxY w ->
  (forall c, snapshot w' c = snapshot w c) ->
  live_positions w' = live_positions w.
Proof.
  intros Hx Hy Hsnap. unfold live_positions, row_major. rewrite Hx, Hy.
  apply list_filter_iff. intros c.
  specialize (Hsnap c). unfold snapshot in Hsnap. by injection Hsnap as -> _.
Qed.

Lemma live_positions_placed w w' c v color :
  maxX w' = maxX w -> maxY w' = maxY w ->
  placed w w' c v color -> fits w c v ->
  Forall (fun o => in_bounds w (offset_by c o) = true) v -> NoDup v ->
  live_positions w' ≡ₚ live_positions w ++ map (offset_by c) v.
Proof.
  intros Hx Hy Hplaced Hfit Hin Hnd.
  assert (forall n, aliveAt w' n = true <->
                    aliveAt w n = true \/ n ∈ map (offset_by c) v) as Hal.
  { intros n. specialize (Hplaced n). unfold snapshot in Hplaced.
    destruct (decide (n ∈ map (offset_by c) v)) as [Hn|Hn].
    - injection Hplaced as -> _. split; [by right|done].
    - injection Hplaced as -> _. split; [by left|]. by intros [?|?]. }
  apply NoDup_Permutation.
  - apply NoDup_filter, NoDup_row_major.
  - apply NoDup_app. split; [apply NoDup_filter, NoDup_row_major|].
    split; [|by apply (NoDup_fmap_2 (offset_by c))].
    intros n [Hn _]%list_elem_of_filter (o & -> & Ho)%list_elem_of_fmap.
    unfold fits in Hfit. rewrite Forall_forall in Hfit. rewrite (Hfit o Ho) in Hn. done.
  - intros n. unfold live_positions. rewrite elem_of_app, !list_elem_of_filter.
    rewrite !elem_of_row_major, (in_bounds_ext w w' n Hx Hy), Hal. split.
    + intros [[?|?] ?]; [left|right]; done.
    + intros [[? ?]|Hn]; [split; [by left|done]|]. split; [by right|].
      apply list_elem_of_fmap in Hn as (o & -> & Ho).
      rewrite Forall_forall in Hin. by apply Hin.
Qed.

Lemma pattern_outcome p color w :
  wf w ->
  (placeable p w /\
   if valid_color color then
     exists w' c v,
       tryGeneratePattern p color w = Ok tt w' /\ wf w' /\
       maxX w' = maxX w /\ maxY w' = maxY w /\ dense w' /\
       eligible (center_of p) w c /\ v ∈ variations_of p /\ fits w c v /\
       placed w w' c v color
   else tryGeneratePattern p color w = Throw) \/
  (~ placeable p w /\
   exists w',
     tryGeneratePattern p color w = Ok tt w' /\ wf w' /\ grows w w' /\ dense w').
Proof.
  intros Hwf. rewrite tryGeneratePattern_eq.
  destruct (tryGenerate_outcome (center_of p) (variations_of p) color w Hwf
              (center_safe_pattern p) (center_of_bounds_pattern p)
              (variations_nonempty p)) as [[Hplace Hrun]|[Hno Hrun]].
  - left. by split.
  - right. split; [|done]. intros (c & v & Hc & Hv & Hfit). by apply (Hno c v).
Qed.

(** X12. A generator called with a valid color never changes a live cell:
    every position that changes was dead and becomes alive with the given
    color. The number of live cells stays the same or grows by the size of
    the pattern (4, 3 or 5), and afterwards the map holds a cell for every
    position of the grid. *)
Theorem generator_spares_live_cells (p : Pattern) (w : World) (color : Color) :
  wf w -> valid_color color = true ->
  exists w',
    tryGeneratePattern p color w = Ok tt w' /\ wf w' /\
    (forall c, aliveAt w c = true -> snapshot w' c = snapshot w c) /\
    (forall c, snapshot w' c <> snapshot w c ->
       aliveAt w c = false /\ in_bounds w c = true /\
       snapshot w' c = (true, Some color)) /\
    (length (live_cells w') = length (live_cells w) \/
     length (live_cells w') = (length (live_cells w) + size_of p)%nat) /\
    dense w'.
Proof.
  intros Hwf Hv.
  destruct (pattern_outcome p color w Hwf) as [[_ Hrun]|[_ Hrun]].
  - rewrite Hv in Hrun.
    destruct Hrun as (w' & c & v & Hrun & Hwf' & Hx & Hy & Hd & Hc & Hin & Hfit & Hplaced).
    pose proof (center_safe_pattern p w c (proj1 Hc) (proj1 (proj2 Hc)) v Hin) as Hbounds.
    destruct (variations_NoDup p v Hin) as [Hnd Hlen].
    exists w'. split; [done|]. split; [done|]. split; [|split; [|split; [|done]]].
    + intros n Hal. rewrite (Hplaced n), decide_False; [done|].
      intros (o & -> & Ho)%list_elem_of_fmap.
      unfold fits in Hfit. rewrite Forall_forall in Hfit. rewrite (Hfit o Ho) in Hal. done.
    + intros n Hne. rewrite (Hplaced n) in Hne |- *.
      destruct (decide (n ∈ map (offset_by c) v)) as [Hn|Hn]; [|done].
      apply list_elem_of_fmap in Hn as (o & -> & Ho).
      unfold fits in Hfit. rewrite Forall_forall in Hfit, Hbounds. by rewrite (Hfit o Ho), (Hbounds o Ho).
    + right. rewrite !length_live_cells by done.
      rewrite (live_positions_placed w w' c v color Hx Hy Hplaced Hfit Hbounds Hnd).
      by rewrite length_app, length_map, Hlen.
  - destruct Hrun as (w' & Hrun & Hwf' & Hg & Hd).
    exists w'. split; [done|]. split; [done|]. split; [|split; [|split; [|done]]].
    + intros c _. by apply grows_snapshot.
    + intros c Hne. destruct Hne. by apply grows_snapshot.
    + left. rewrite !length_live_cells by done. f_equal.
      apply live_positions_same; [apply Hg..|]. intros c. by apply grows_snapshot.
Qed.

(** X13. A generator called with a color that [setColor] rejects throws
    exactly when it finds room for the pattern; when there is no room it
    returns and nothing has changed. *)
Theorem generator_invalid_color (p : Pattern) (w : World) (color : Color) :
  wf w -> valid_color color = false ->
  (placeable p w -> tryGeneratePattern p color w = Throw) /\
  (~ placeable p w ->
   exists w', tryGeneratePattern p color w = Ok tt w' /\ nothing_placed w w').
Proof.
  intros Hwf Hv.
  destruct (pattern_outcome p color w Hwf) as [[Hplace Hrun]|[Hno Hrun]].
  - rewrite Hv in Hrun. split; [done|]. by intros [].
  - split; [by intros ?|]. intros _.
    destruct Hrun as (w' & Hrun & _ & Hg & _). exists w'. split; [done|].
    intros n. by apply grows_snapshot.
Qed.

Lemma small_grid_not_placeable p w :
  maxX w < min_side p \/ maxY w < min_side p -> ~ placeable p w.
Proof.
  intros Hsmall (c & v & (Hb & Hc & _) & _). apply in_bounds_spec in Hb.
  destruct p; simpl in Hc, Hsmall.
  - unfold block_center in Hc. apply andb_true_iff in Hc as [Hx Hy].
    apply Z.ltb_lt in Hx, Hy. lia.
  - apply inner_center_spec in Hc. lia.
  - apply inner_center_spec in Hc. lia.
Qed.

(** X14. On a grid of fewer than two columns or rows no block is placed,
    and on a grid of fewer than three columns or rows no blinker and no
    glider, whatever the color and even where the cells of the pattern
    would lie within the grid: the generator returns and nothing has
    changed. *)
Theorem generator_on_small_grid (p : Pattern) (w : World) (color : Color) :
  wf w -> maxX w < min_side p \/ maxY w < min_side p ->
  exists w', tryGeneratePattern p color w = Ok tt w' /\ nothing_placed w w'.
Proof.
  intros Hwf Hsmall.
  destruct (pattern_outcome p color w Hwf) as [[Hplace _]|[_ Hrun]].
  - by destruct (small_grid_not_placeable p w Hsmall).
  - destruct Hrun as (w' & Hrun & _ & Hg & _). exists w'. split; [done|].
    intros n. by apply grows_snapshot.
Qed.

Lemma empty_grid_placeable p w :
  (forall c, aliveAt w c = false) ->
  min_side p <= maxX w -> min_side p <= maxY w -> placeable p w.
Proof.
  intros Hdead Hx Hy.
  assert (forall v, fits w (mkCoordinates (min_side p - 1) (min_side p - 1)) v) as Hfit.
  { intros v. apply Forall_forall. intros o _. apply Hdead. }
  exists (mkCoordinates (min_side p - 1) (min_side p - 1)).
  destruct p; simpl in *.
  - exists [(0, 0); (1, 0); (0, 1); (1, 1)]. split; [|split; [left|done]].
    split; [apply in_bounds_spec; simpl; lia|]. split; [|done].
    unfold block_center. simpl. apply andb_true_iff. rewrite !Z.ltb_lt. lia.
  - exists [(-1, 0); (0, 0); (1, 0)]. split; [|split; [left|done]].
    split; [apply in_bounds_spec; simpl; lia|]. split; [|done].
    apply inner_center_spec. simpl. lia.
  - exists [(0, -1); (1, 0); (-1, 1); (0, 1); (1, 1)]. split; [|split; [left|done]].
    split; [apply in_bounds_spec; simpl; lia|]. split; [|done].
    apply inner_center_spec. simpl. lia.
Qed.

(** X15. On a grid without a live cell that has at least two columns and
    rows for a block, three for a blinker or a glider, a generator always
    places its pattern: afterwards exactly the cells of one variation,
    which all lie within the grid, are alive, with the given color. *)
Theorem generator_on_empty_grid (p : Pattern) (w : World) (color : Color) :
  wf w -> valid_color color = true -> (forall c, aliveAt w c = false) ->
  min_side p <= maxX w -> min_side p <= maxY w ->
  exists w' c v,
    tryGeneratePattern p color w = Ok tt w' /\
    v ∈ variations_of p /\
    Forall (fun o => in_bounds w (offset_by c o) = true) v /\
    (forall n, aliveAt w' n = true <-> n ∈ map (offset_by c) v) /\
    (forall n, n ∈ map (offset_by c) v -> colorAt w' n = Some color) /\
    length (live_cells w') = size_of p.
Proof.
  intros Hwf Hv Hdead Hx Hy.
  destruct (pattern_outcome p color w Hwf) as [[_ Hrun]|[Hno _]];
    [|by destruct Hno; apply empty_grid_placeable].
  rewrite Hv in Hrun.
  destruct Hrun as (w' & c & v & Hrun & Hwf' & Hmx & Hmy & Hd & Hc & Hin & Hfit & Hplaced).
  pose proof (center_safe_pattern p w c (proj1 Hc) (proj1 (proj2 Hc)) v Hin) as Hbounds.
  destruct (variations_NoDup p v Hin) as [Hnd Hlen].
  exists w', c, v. split; [done|]. split; [done|]. split; [done|].
  split; [|split].
  - intros n. specialize (Hplaced n). unfold snapshot in Hplaced.
    destruct (decide (n ∈ map (offset_by c) v)) as [Hn|Hn].
    + injection Hplaced as -> _. done.
    + injection Hplaced as -> _. rewrite Hdead. split; [done|]. by intros ?.
  - intros n Hn. specialize (Hplaced n). unfold snapshot in Hplaced.
    rewrite decide_True in Hplaced by done. by injection Hplaced as _ ->.
  - rewrite length_live_cells by done.
    rewrite (live_positions_placed w w' c v color Hmx Hmy Hplaced Hfit Hbounds Hnd).
    rewrite length_app, length_map, Hlen.
    assert (live_positions w = []) as ->; [|done].
    unfold live_positions. induction (row_major w) as [|a l IH]; [done|].
    rewrite filter_cons_False; [done|]. by rewrite Hdead.
Qed.

(** X16. [randomPop] removes from the array exactly the element it
    returns, and keeps the others in their order; from an empty array it
    returns [undefined] and leaves the array empty. It draws one random
    number either way and changes nothing else. *)
Theorem randomPop_removes_drawn {A : Type} (array : list A) (w : World) :
  exists popped rest,
    randomPop array w = Ok (popped, rest) (drawn w) /\
    match popped with
    | Some a => array ≡ₚ a :: rest /\
                exists i, array !! i = Some a /\ rest = delete i array
    | None => array = [] /\ rest = []
    end.
Proof.
  destruct array as [|a0 array'] eqn:Harr.
  - exists None, []. split; [|done]. reflexivity.
  - rewrite <- Harr. destruct (randomPop_spec array w) as (i & a & Ha & Hrun); [by subst|].
    exists (Some a), (delete i array). split; [done|].
    split; [by apply delete_Permutation|]. by exists i.
Qed.

Lemma generator_spares_live_cells_witness :
  wf blinker_world /\ valid_color blue = true /\
  exists w',
    tryGeneratePattern Block blue blinker_world = Ok tt w' /\
    snapshot w' (mkCoordinates 2 2) = (true, Some blue) /\
    snapshot w' (mkCoordinates 1 2) = (true, Some red).
Proof.
  split; [exact blinker_world_wf|]. split; [reflexivity|].
  destruct (generator_spares_live_cells Block blinker_world blue blinker_world_wf eq_refl)
    as (w' & Hrun & _ & Hlive & _).
  exists w'. split; [exact Hrun|].
  split; apply Hlive; reflexivity.
Defined.

Lemma generator_invalid_color_witness :
  wf empty_world /\ valid_color [Integer 256; Integer 0; Integer 0] = false /\
  tryGeneratePattern Blinker [Integer 256; Integer 0; Integer 0] empty_world = Throw.
Proof.
  split; [exact empty_world_wf|]. split; [reflexivity|].
  apply (proj1 (generator_invalid_color Blinker empty_world
                  [Integer 256; Integer 0; Integer 0] empty_world_wf eq_refl)).
  apply empty_grid_placeable; [|vm_compute; discriminate..].
  intros c. apply empty_grid_dead.
Defined.

Lemma single_cell_world_wf : wf single_cell_world.
Proof. apply wf_check_sound. vm_compute. reflexivity. Qed.

Lemma generator_on_small_grid_witness :
  wf single_cell_world /\
  (maxX single_cell_world < min_side Block \/ maxY single_cell_world < min_side Block) /\
  exists w', tryGeneratePattern Block red single_cell_world = Ok tt w' /\
             nothing_placed single_cell_world w'.
Proof.
  split; [exact single_cell_world_wf|]. split; [left; reflexivity|].
  exact (generator_on_small_grid Block single_cell_world red single_cell_world_wf
           (or_introl eq_refl)).
Defined.

Lemma generator_on_empty_grid_witness :
  wf empty_world /\ valid_color red = true /\
  (forall c, aliveAt empty_world c = false) /\
  min_side Glider <= maxX empty_world /\ min_side Glider <= maxY empty_world /\
  exists w', tryGeneratePattern Glider red empty_world = Ok tt w' /\
             length (live_cells w') = 5%nat.
Proof.
  split; [exact empty_world_wf|]. split; [reflexivity|].
  split; [intros c; apply empty_grid_dead|].
  split; [vm_compute; discriminate|]. split; [vm_compute; discriminate|].
  destruct (generator_on_empty_grid Glider empty_world red empty_world_wf eq_refl
              (fun c => empty_grid_dead _ _ _ c)
              ltac:(vm_compute; discriminate) ltac:(vm_compute; discriminate))
    as (w' & c & v & Hrun & _ & _ & _ & _ & Hlen).
  exists w'. split; [exact Hrun|exact Hlen].
Defined.

(** ** More on [tick] *)

Lemma liveCount_le w c :
  wf w ->
  (liveCount w c + (if aliveAt w c then 1 else 0) <= length (live_positions w))%nat.
Proof.
  intros Hwf. unfold liveCount.
  set (self := if aliveAt w c then [c] else []).
  assert (length self = if aliveAt w c then 1%nat else 0%nat) as <-
    by (unfold self; by destruct (aliveAt w c)).
  rewrite <- length_app. apply submseteq_length, NoDup_submseteq.
  - apply NoDup_app. split; [apply NoDup_filter, moore_NoDup|]. split.
    + intros n [_ Hn]%list_elem_of_filter Hself.
      apply elem_of_moore in Hn as (_ & Hne & _).
      unfold self in Hself. destruct (aliveAt w c); [|by apply elem_of_nil in Hself].
      by apply list_elem_of_singleton in Hself.
    + unfold self. destruct (aliveAt w c); [apply NoDup_singleton|apply NoDup_nil_2].
  - intros n [[Hal Hn]%list_elem_of_filter|Hself]%elem_of_app.
    + apply list_elem_of_filter. split; [done|]. apply elem_of_row_major.
      by apply elem_of_moore in Hn as (Hb & _).
    + unfold self in Hself. destruct (aliveAt w c) eqn:Hal; [|by apply elem_of_nil in Hself].
      apply list_elem_of_singleton in Hself as ->.
      apply list_elem_of_filter. split; [done|].
      destruct (dense_alive w c Hwf Hal) as [cell Ho]. by eapply owns_row_major.
Qed.

Section TickExtras.
Context {CS : ColorSpace}.

(** X17. [tick] keeps the cell objects of the grid: the map keeps its
    entries in their order and only gains entries at its end, so after the
    tick [getCell] returns for a position the object it returned before;
    and the map never holds more cells than the grid has positions. *)
Theorem tick_keeps_cells (w0 : World) :
  rgb_in_range CS -> wf w0 ->
  exists w',
    tick w0 = Ok tt w' /\
    (exists entries, grid w' = grid w0 ++ entries) /\
    (forall c cell, owns w0 c cell -> getCell c w' = Ok cell w') /\
    (length (grid w') <= area w0)%nat.
Proof.
  intros Hrange Hwf0.
  destruct (tick_run w0 Hrange Hwf0)
    as (visited & sw & w1 & w' & _ & _ & Htick & Hinv & Hwf' & Hmx & Hmy & Hgrid & _).
  destruct (ti_grid _ _ _ _ _ Hinv) as (entries & Hentries & _).
  exists w'. split; [done|]. split; [exists entries; congruence|].
  assert (forall c cell, owns w0 c cell -> owns w' c cell) as Howns.
  { intros c cell Ho. unfold owns in *. by rewrite Hgrid, Hentries, Map_get_app, Ho. }
  split.
  - intros c cell Ho. apply getCell_owned; [|by apply Howns].
    rewrite (in_bounds_ext w0 w' c Hmx Hmy).
    by destruct (owns_lookup w0 c cell Hwf0 Ho) as (_ & _ & _ & Hb).
  - pose proof (grid_bounded w' Hwf') as Hle. unfold area in *. by rewrite Hmx, Hmy in Hle.
Qed.

Lemma classical_tick_stable w c :
  flips w c = false -> classical_tick w c = snapshot w c.
Proof.
  unfold flips, classical_tick, snapshot. cbv zeta.
  destruct (aliveAt w c); destruct (rule _ (liveCount w c)); done.
Qed.

(** X18. A grid on which the rule changes no position (every live cell has
    two or three live neighbors, no dead cell has exactly three) is left by
    [tick] as it was: every position keeps its state and its color. No
    color is converted, so this holds for any conversion. *)
Theorem tick_still_life (w0 : World) :
  wf w0 ->
  (forall c, in_bounds w0 c = true -> flips w0 c = false) ->
  exists w', tick w0 = Ok tt w' /\ forall c, snapshot w' c = snapshot w0 c.
Proof.
  intros Hwf0 Hstable.
  assert (births_valid w0) as Hvalid.
  { intros c color Hb Hd Hn _. specialize (Hstable c Hb).
    unfold flips in Hstable. by rewrite Hd, Hn in Hstable. }
  destruct (tick_run_valid w0 Hvalid Hwf0)
    as (visited & sw & w1 & w' & _ & _ & Htick & _ & _ & _ & _ & _ & Hsnap & Hout).
  exists w'. split; [done|]. intros c. destruct (in_bounds w0 c) eqn:Hb.
  - rewrite (Hsnap c Hb). by apply classical_tick_stable, Hstable.
  - by rewrite (Hout c Hb), (snapshot_out_of_bounds w0 c Hwf0 Hb).
Qed.

(** X19. Fewer than three live cells cannot sustain each other: after one
    [tick] of a grid with at most two live cells no cell is alive, whatever
    the conversion of colors does. *)
Theorem tick_extinction (w0 : World) :
  wf w0 -> (length (live_cells w0) <= 2)%nat ->
  exists w', tick w0 = Ok tt w' /\ forall c, aliveAt w' c = false.
Proof.
  intros Hwf0 Hfew.
  assert (births_valid w0) as Hvalid.
  { intros c color _ _ Hn _. pose proof (liveCount_le w0 c Hwf0) as Hle.
    rewrite <- (length_live_cells w0 Hwf0) in Hle. lia. }
  destruct (tick_run_valid w0 Hvalid Hwf0)
    as (visited & sw & w1 & w' & _ & _ & Htick & _ & _ & _ & _ & _ & Hsnap & Hout).
  exists w'. split; [done|]. intros c.
  change (aliveAt w' c) with (snapshot w' c).1.
  destruct (in_bounds w0 c) eqn:Hb; [|by rewrite (Hout c Hb)].
  rewrite (Hsnap c Hb). pose proof (liveCount_le w0 c Hwf0) as Hle.
  rewrite <- (length_live_cells w0 Hwf0) in Hle.
  unfold classical_tick, rule. destruct (aliveAt w0 c).
  - destruct (liveCount w0 c) as [|[|n]]; [done|done|lia].
  - destruct (liveCount w0 c) as [|[|[|n]]]; [done|done|done|lia].
Qed.

(** X30. On a well-formed grid [tick] either returns, with every position
    in the state the classical rule gives it, or throws the error of
    [setColor]; it throws exactly when the conversion gives some dead
    position with three live neighbors a color that [setColor] refuses.
    The loop always comes to an end. *)
Theorem tick_outcome (w0 : World) :
  wf w0 ->
  (births_valid w0 /\
   exists w', tick w0 = Ok tt w' /\ wf w' /\
     forall c, in_bounds w0 c = true -> snapshot w' c = classical_tick w0 c) \/
  (~ births_valid w0 /\ tick w0 = Throw).
Proof.
  intros Hwf0. destruct (tick_loop_outcome w0 Hwf0) as [[Hvalid _]|[Hnot _]].
  - left. split; [done|].
    destruct (tick_run_valid w0 Hvalid Hwf0)
      as (visited & sw & w1 & w' & _ & _ & Htick & _ & Hwf' & _ & _ & _ & Hsnap & _).
    by exists w'.
  - right. split; [done|]. by apply tick_throws.
Qed.

End TickExtras.


Lemma block_world_wf : wf block_world.
Proof. apply wf_check_sound. vm_compute. reflexivity. Qed.

Lemma lone_center_world_wf : wf lone_center_world.
Proof. apply wf_check_sound. vm_compute. reflexivity. Qed.

Lemma tick_keeps_cells_witness :
  rgb_in_range exact_space /\ wf blinker_world /\
  exists w', tick (CS := exact_space) blinker_world = Ok tt w' /\
             getCell (mkCoordinates 2 2) w' = Ok 1%nat w'.
Proof.
  split; [exact exact_space_in_range|]. split; [exact blinker_world_wf|].
  destruct (tick_keeps_cells (CS := exact_space) blinker_world
              exact_space_in_range blinker_world_wf)
    as (w' & Htick & _ & Hget & _).
  exists w'. split; [exact Htick|]. apply Hget. vm_compute. reflexivity.
Defined.

Lemma block_world_stable c :
  in_bounds block_world c = true -> flips block_world c = false.
Proof.
  intros Hb%elem_of_row_major. revert c Hb. apply Forall_forall.
  apply (bool_decide_unpack _). vm_compute. exact I.
Qed.

Lemma tick_still_life_witness :
  wf block_world /\
  (forall c, in_bounds block_world c = true -> flips block_world c = false) /\
  exists w', tick (CS := exact_space) block_world = Ok tt w' /\
             snapshot w' (mkCoordinates 1 2) = (true, Some blue).
Proof.
  split; [exact block_world_wf|].
  split; [exact block_world_stable|].
  destruct (tick_still_life (CS := exact_space) block_world
              block_world_wf block_world_stable)
    as (w' & Htick & Hsnap).
  exists w'. split; [exact Htick|]. rewrite Hsnap. vm_compute. reflexivity.
Defined.

Lemma tick_extinction_witness :
  wf lone_center_world /\
  (length (live_cells lone_center_world) <= 2)%nat /\
  exists w', tick (CS := exact_space) lone_center_world = Ok tt w' /\
             aliveAt w' (mkCoordinates 1 1) = false.
Proof.
  split; [exact lone_center_world_wf|].
  split; [vm_compute; lia|].
  destruct (tick_extinction (CS := exact_space) lone_center_world
              lone_center_world_wf ltac:(vm_compute; lia))
    as (w' & Htick & Hdead).
  exists w'. split; [exact Htick|]. apply Hdead.
Defined.

Lemma tick_outcome_witness :
  wf blinker_world /\ tick (CS := overshooting_space) blinker_world = Throw.
Proof.
  split; [exact blinker_world_wf|].
  destruct (tick_outcome (CS := overshooting_space) blinker_world blinker_world_wf)
    as [[Hvalid _]|[_ Hthrow]]; [|exact Hthrow].
  specialize (Hvalid (mkCoordinates 2 1) _ eq_refl eq_refl eq_refl eq_refl).
  vm_compute in Hvalid. discriminate Hvalid.
Defined.

(** ** Reading a serialized grid back *)

Lemma segment_of_parse x y r g b :
  map (fun s => parseInt (Some s)) (String_split comma (segment_of x y r g b))
    = [Integer x; Integer y; Integer r; Integer g; Integer b].
Proof.
  rewrite segment_of_fields. cbn [map]. by rewrite !parseInt_toString.
Qed.

Lemma segment_of_inj x y r g b x' y' r' g' b' :
  segment_of x y r g b = segment_of x' y' r' g' b' ->
  x = x' /\ y = y' /\ r = r' /\ g = g' /\ b = b'.
Proof.
  intros Heq.
  assert (map (fun s => parseInt (Some s)) (String_split comma (segment_of x y r g b))
          = map (fun s => parseInt (Some s))
                (String_split comma (segment_of x' y' r' g' b'))) as Hp
    by by rewrite Heq.
  rewrite !segment_of_parse in Hp. by injection Hp.
Qed.

(** X20. What [serialize] writes can be read back: the output splits at its
    pipes into the timestamp and one segment per live cell, and every
    segment splits at its commas into five numerals that [parseInt] reads
    as the coordinates and the color of its cell. *)
Theorem serialize_decodes (w : World) (hours minutes seconds : Z) :
  wf w -> 0 <= hours < 24 -> 0 <= minutes < 60 -> 0 <= seconds < 60 ->
  exists output segments,
    serialize hours minutes seconds w = Ok output w /\
    String_split pipe output = timestamp hours minutes seconds :: segments /\
    Forall2 (fun cell seg =>
               exists x color,
                 heap w !! cell = Some x /\ isAlive x = true /\
                 getColor x = Some color /\
                 map (fun s => parseInt (Some s)) (String_split comma seg)
                   = Integer (getX (getCoordinates x))
                     :: Integer (getY (getCoordinates x)) :: color)
            (live_cells w) segments.
Proof.
  intros Hwf Hh Hm Hs.
  destruct (serialize_spec w hours minutes seconds Hwf Hh Hm Hs) as (segments & Hrun & Hall).
  exists (wire (timestamp hours minutes seconds) segments), segments.
  split; [done|]. split; [by eapply wire_split; [apply timestamp_lacks_pipe|]|].
  eapply Forall2_impl; [exact Hall|].
  intros cell seg (x & r & g & b & Hx & Hal & Hc & ->).
  exists x, [Integer r; Integer g; Integer b]. do 3 (split; [done|]).
  apply segment_of_parse.
Qed.

Lemma serialize_decodes_witness :
  wf blinker_world /\ 0 <= 9 < 24 /\ 0 <= 5 < 60 /\ 0 <= 30 < 60 /\
  exists output segments,
    serialize 9 5 30 blinker_world = Ok output blinker_world /\
    String_split pipe output = "090530"%string :: segments.
Proof.
  split; [exact blinker_world_wf|]. do 3 (split; [lia|]).
  destruct (serialize_decodes blinker_world 9 5 30 blinker_world_wf
              ltac:(lia) ltac:(lia) ltac:(lia))
    as (output & segments & Hrun & Hsplit & _).
  exists output, segments. split; [exact Hrun|exact Hsplit].
Defined.

Lemma live_segment w segments c :
  wf w -> Forall2 (segment_for w) (live_cells w) segments ->
  aliveAt w c = true ->
  exists r g b, colorAt w c = Some [Integer r; Integer g; Integer b] /\
                segment_of (getX c) (getY c) r g b ∈ segments.
Proof.
  intros Hwf Hall Hal. destruct (dense_alive w c Hwf Hal) as [cell Ho].
  assert (cell ∈ live_cells w) as Hin by (apply live_cells_spec; [done|by exists c]).
  destruct (proj1 (list_elem_of_lookup _ _) Hin) as [i Hi].
  destruct (Forall2_lookup_l _ _ _ _ _ Hall Hi) as (seg & Hseg & x & r & g & b & Hx & _ & Hc & ->).
  destruct (owns_lookup w c cell Hwf Ho) as (x' & Hx' & Hcx & _).
  assert (x' = x) as -> by congruence. rewrite Hcx in Hseg.
  exists r, g, b. split; [|by eapply list_elem_of_lookup_2].
  by rewrite (owns_colorAt _ _ _ _ Ho Hx).
Qed.

Lemma segment_live w segments x y r g b :
  wf w -> Forall2 (segment_for w) (live_cells w) segments ->
  segment_of x y r g b ∈ segments ->
  aliveAt w (mkCoordinates x y) = true /\
  colorAt w (mkCoordinates x y) = Some [Integer r; Integer g; Integer b].
Proof.
  intros Hwf Hall Hin.
  destruct (proj1 (list_elem_of_lookup _ _) Hin) as [i Hi].
  destruct (Forall2_lookup_r _ _ _ _ _ Hall Hi)
    as (cell & Hcell & z & r' & g' & b' & Hz & Hal & Hc & Heq).
  apply segment_of_inj in Heq as (-> & -> & -> & -> & ->).
  apply list_elem_of_lookup_2, (live_cells_spec w Hwf) in Hcell as (c & Ho & Hac).
  destruct (owns_lookup w c cell Hwf Ho) as (z' & Hz' & Hcz & _).
  assert (z' = z) as -> by congruence.
  assert (c = mkCoordinates (getX (getCoordinates z)) (getY (getCoordinates z))) as <-
    by (rewrite Hcz; by destruct c).
  split; [done|]. by rewrite (owns_colorAt _ _ _ _ Ho Hz).
Qed.

(** X21. The output of [serialize] determines the live cells: two grids
    serialized to the same string have the same live positions, with the
    same colors. *)
Theorem serialize_determines_live_cells (w1 w2 : World) (hours minutes seconds : Z)
    (output : string) :
  wf w1 -> wf w2 ->
  0 <= hours < 24 -> 0 <= minutes < 60 -> 0 <= seconds < 60 ->
  serialize hours minutes seconds w1 = Ok output w1 ->
  serialize hours minutes seconds w2 = Ok output w2 ->
  forall c, aliveAt w1 c = aliveAt w2 c /\
            (aliveAt w1 c = true -> colorAt w1 c = colorAt w2 c).
Proof.
  intros Hwf1 Hwf2 Hh Hm Hs Hrun1 Hrun2.
  destruct (serialize_spec w1 hours minutes seconds Hwf1 Hh Hm Hs) as (segs1 & Hr1 & Hall1).
  destruct (serialize_spec w2 hours minutes seconds Hwf2 Hh Hm Hs) as (segs2 & Hr2 & Hall2).
  assert (segs1 = segs2) as <-.
  { rewrite Hrun1 in Hr1. rewrite Hrun2 in Hr2. injection Hr1 as Ho1. injection Hr2 as Ho2.
    pose proof (timestamp_lacks_pipe hours minutes seconds Hh Hm Hs) as Hts.
    pose proof (wire_split w1 _ segs1 Hts Hall1) as Hs1.
    pose proof (wire_split w2 _ segs2 Hts Hall2) as Hs2.
    rewrite <- Ho1 in Hs1. rewrite <- Ho2 in Hs2. congruence. }
  assert (forall v1 v2, wf v1 -> wf v2 ->
            Forall2 (segment_for v1) (live_cells v1) segs1 ->
            Forall2 (segment_for v2) (live_cells v2) segs1 ->
            forall c, aliveAt v1 c = true ->
                      aliveAt v2 c = true /\ colorAt v1 c = colorAt v2 c) as Hhalf.
  { intros v1 v2 Hv1 Hv2 Ha1 Ha2 c Hal.
    destruct (live_segment v1 segs1 c Hv1 Ha1 Hal) as (r & g & b & Hc & Hin).
    destruct (segment_live v2 segs1 _ _ r g b Hv2 Ha2 Hin) as [Hal2 Hc2].
    assert (mkCoordinates (getX c) (getY c) = c) as Hcc by by destruct c.
    rewrite Hcc in Hal2, Hc2. split; [done|congruence]. }
  intros c. destruct (aliveAt w1 c) eqn:Hal1.
  - destruct (Hhalf w1 w2 Hwf1 Hwf2 Hall1 Hall2 c Hal1) as [-> Hc]. by split.
  - split; [|done]. destruct (aliveAt w2 c) eqn:Hal2; [|done].
    destruct (Hhalf w2 w1 Hwf2 Hwf1 Hall2 Hall1 c Hal2) as [Hal _]. congruence.
Qed.

Lemma touched_world_wf : wf (materialize blinker_world (mkCoordinates 0 0)).
Proof. apply wf_check_sound. vm_compute. reflexivity. Qed.

Lemma serialize_determines_live_cells_witness :
  wf blinker_world /\ wf (materialize blinker_world (mkCoordinates 0 0)) /\
  0 <= 9 < 24 /\ 0 <= 5 < 60 /\ 0 <= 30 < 60 /\
  serialize 9 5 30 blinker_world
    = Ok "090530|1,2,255,0,0|2,2,0,0,255|3,2,255,0,0"%string blinker_world /\
  serialize 9 5 30 (materialize blinker_world (mkCoordinates 0 0))
    = Ok "090530|1,2,255,0,0|2,2,0,0,255|3,2,255,0,0"%string
         (materialize blinker_world (mkCoordinates 0 0)) /\
  colorAt blinker_world (mkCoordinates 2 2)
    = colorAt (materialize blinker_world (mkCoordinates 0 0)) (mkCoordinates 2 2).
Proof.
  split; [exact blinker_world_wf|]. split; [exact touched_world_wf|].
  do 3 (split; [lia|]).
  assert (serialize 9 5 30 blinker_world
          = Ok "090530|1,2,255,0,0|2,2,0,0,255|3,2,255,0,0"%string blinker_world)
    as Hrun1 by (vm_compute; reflexivity).
  assert (serialize 9 5 30 (materialize blinker_world (mkCoordinates 0 0))
          = Ok "090530|1,2,255,0,0|2,2,0,0,255|3,2,255,0,0"%string
               (materialize blinker_world (mkCoordinates 0 0)))
    as Hrun2 by (vm_compute; reflexivity).
  split; [exact Hrun1|]. split; [exact Hrun2|].
  apply (serialize_determines_live_cells blinker_world
           (materialize blinker_world (mkCoordinates 0 0)) 9 5 30 _
           blinker_world_wf touched_world_wf ltac:(lia) ltac:(lia) ltac:(lia)
           Hrun1 Hrun2 (mkCoordinates 2 2)).
  vm_compute. reflexivity.
Defined.

(** ** [Grid.prototype.toString] *)

Lemma append_cons a (s1 s2 : string) : String a s1 +:+ s2 = String a (s1 +:+ s2).
Proof. reflexivity. Qed.

Lemma append_assoc (s1 s2 s3 : string) : (s1 +:+ s2) +:+ s3 = s1 +:+ (s2 +:+ s3).
Proof. induction s1 as [|a s1 IH]; [done|]. by rewrite !append_cons, IH. Qed.

Lemma append_nil_r (s : string) : s +:+ EmptyString = s.
Proof. induction s as [|a s IH]; [done|]. by rewrite append_cons, IH. Qed.

Lemma length_append (s1 s2 : string) :
  String.length (s1 +:+ s2) = (String.length s1 + String.length s2)%nat.
Proof.
  induction s1 as [|a s1 IH]; [done|]. rewrite append_cons. simpl. by rewrite IH.
Qed.

Lemma string_of_list_ascii_app l1 l2 :
  string_of_list_ascii (l1 ++ l2)
    = string_of_list_ascii l1 +:+ string_of_list_ascii l2.
Proof.
  induction l1 as [|a l1 IH]; [done|]. cbn [app string_of_list_ascii].
  by rewrite append_cons, IH.
Qed.

Lemma Grid_toString_row_spec y xs : forall str w,
  wf w -> Forall (fun x => in_bounds w (mkCoordinates x y) = true) xs ->
  exists w',
    foldM (fun str x =>
             coordinates <- lift (Coordinates_new (Integer x) (Integer y)) ;;
             cell <- getCell coordinates ;;
             c <- deref cell ;;
             ret (str +:+ (if isAlive c then "+" else "-")))
          xs str w
      = Ok (str +:+ string_of_list_ascii (map (mark w y) xs)) w' /\
    grows w w' /\ wf w' /\
    Forall (fun x => exists cell, owns w' (mkCoordinates x y) cell) xs.
Proof.
  induction xs as [|x xs IH]; intros str w Hwf Hall.
  - exists w. simpl. rewrite append_nil_r. split; [done|].
    split; [apply grows_refl|]. split; [done|constructor].
  - apply Forall_cons in Hall as [Hx Hxs].
    destruct (getCell_spec w (mkCoordinates x y) Hwf Hx) as (cell & w1 & Hget & Hg1 & Hwf1 & Ho).
    destruct (owns_lookup w1 _ cell Hwf1 Ho) as (c & Hc & _).
    destruct (IH (str +:+ (if isAlive c then "+" else "-")) w1 Hwf1)
      as (w2 & Hrun & Hg2 & Hwf2 & Hown).
    { eapply Forall_impl; [exact Hxs|]. intros x' Hx'. by rewrite (grows_in_bounds _ _ _ Hg1). }
    exists w2. split; [|split; [by eapply grows_trans|split; [done|]]].
    + cbn [foldM]. erewrite bind_ok.
      2:{ unfold lift. simpl. unfold bind at 1.
          rewrite (bind_ok _ _ _ _ _ Hget), (bind_ok _ _ _ _ _ (deref_ok _ _ _ Hc)).
          reflexivity. }
      rewrite Hrun. f_equal. rewrite append_assoc. f_equal. cbn [map string_of_list_ascii].
      assert (mark w y x = if isAlive c then "+"%char else "-"%char) as ->.
      { unfold mark. rewrite <- (grows_aliveAt _ _ _ Hg1).
        by rewrite (owns_aliveAt _ _ _ _ Ho Hc). }
      assert (map (mark w1 y) xs = map (mark w y) xs) as ->.
      { apply map_ext. intros x'. unfold mark. by rewrite (grows_aliveAt _ _ _ Hg1). }
      by destruct (isAlive c).
    + constructor; [|done]. exists cell. by eapply grows_owns.
Qed.

Lemma picture_row_grows w w' y : grows w w' -> picture_row w' y = picture_row w y.
Proof.
  intros Hg. unfold picture_row. rewrite (gr_maxX _ _ Hg). f_equal.
  apply map_ext. intros x. unfold mark. by rewrite (grows_aliveAt _ _ _ Hg).
Qed.

Lemma picture_lines_grows w w' ys : grows w w' -> picture_lines w' ys = picture_lines w ys.
Proof.
  intros Hg. induction ys as [|y ys IH]; [done|]. simpl.
  by rewrite IH, (picture_row_grows _ _ _ Hg), (gr_maxY _ _ Hg).
Qed.

Lemma Grid_toString_rows ys : forall str w,
  wf w -> Forall (fun y => 0 <= y <= maxY w) ys ->
  exists w',
    foldM (fun str y =>
             str <- Grid_toString_row (maxX w) y str ;;
             ret (if y <? maxY w then str +:+ newline else str))
          ys str w
      = Ok (str +:+ picture_lines w ys) w' /\
    grows w w' /\ wf w' /\
    Forall (fun y => forall x, 0 <= x <= maxX w ->
                     exists cell, owns w' (mkCoordinates x y) cell) ys.
Proof.
  induction ys as [|y ys IH]; intros str w Hwf Hall.
  - exists w. simpl. rewrite append_nil_r. split; [done|].
    split; [apply grows_refl|]. split; [done|constructor].
  - apply Forall_cons in Hall as [Hy Hys].
    destruct (Grid_toString_row_spec y (seqZ 0 (maxX w + 1)) str w Hwf)
      as (w1 & Hrow & Hg1 & Hwf1 & Hown1).
    { apply Forall_forall. intros x Hx%elem_of_seqZ. apply in_bounds_spec. simpl. lia. }
    set (str1 := str +:+ string_of_list_ascii (map (mark w y) (seqZ 0 (maxX w + 1)))) in *.
    destruct (IH (if y <? maxY w then str1 +:+ newline else str1) w1 Hwf1)
      as (w2 & Hrun & Hg2 & Hwf2 & Hown2).
    { eapply Forall_impl; [exact Hys|]. intros y' Hy'. by rewrite (gr_maxY _ _ Hg1). }
    exists w2. split; [|split; [by eapply grows_trans|split; [done|]]].
    + cbn [foldM]. erewrite bind_ok.
      2:{ unfold Grid_toString_row. rewrite (bind_ok _ _ _ _ _ Hrow). reflexivity. }
      rewrite (gr_maxX _ _ Hg1), (gr_maxY _ _ Hg1) in Hrun. rewrite Hrun.
      f_equal. rewrite (picture_lines_grows _ _ _ Hg1).
      cbn [picture_lines fold_right]. fold (picture_lines w ys).
      unfold str1, picture_row. destruct (y <? maxY w); by rewrite !append_assoc.
    + constructor.
      * intros x Hx. rewrite Forall_forall in Hown1.
        destruct (Hown1 x) as [cell Ho]; [apply elem_of_seqZ; lia|].
        exists cell. by eapply grows_owns.
      * eapply Forall_impl; [exact Hown2|]. intros y' Hy' x Hx.
        apply Hy'. by rewrite (gr_maxX _ _ Hg1).
Qed.

Lemma picture_lines_concat w l :
  Forall (fun y => y < maxY w) l ->
  picture_lines w (l ++ [maxY w])
    = String.concat newline (map (picture_row w) (l ++ [maxY w])).
Proof.
  induction 1 as [|y l Hy Hl IH].
  - simpl. rewrite Z.ltb_irrefl. by rewrite !append_nil_r.
  - cbn [app picture_lines fold_right map]. fold (picture_lines w (l ++ [maxY w])).
    rewrite IH. rewrite (proj2 (Z.ltb_lt _ _) Hy).
    destruct (l ++ [maxY w]) as [|y' l'] eqn:Hl'; [by destruct l|].
    reflexivity.
Qed.

Lemma picture_lines_eq w : picture_lines w (seqZ 0 (maxY w + 1)) = picture w.
Proof.
  unfold picture. destruct (decide (maxY w < 0)) as [Hneg|Hpos].
  - by rewrite seqZ_nil by lia.
  - rewrite (seqZ_app 0 (maxY w) 1) by lia.
    assert (seqZ (0 + maxY w) 1 = [maxY w]) as -> by (by rewrite seqZ_cons, seqZ_nil by lia).
    apply picture_lines_concat. apply Forall_forall. intros y Hy%elem_of_seqZ. lia.
Qed.

Lemma Grid_toString_spec w :
  wf w ->
  exists w',
    Grid_toString w = Ok (picture w) w' /\ grows w w' /\ wf w' /\ dense w'.
Proof.
  intros Hwf.
  destruct (Grid_toString_rows (seqZ 0 (maxY w + 1)) EmptyString w Hwf)
    as (w' & Hrun & Hg & Hwf' & Hown).
  { apply Forall_forall. intros y Hy%elem_of_seqZ. lia. }
  exists w'. split; [|split; [done|split; [done|]]].
  - unfold Grid_toString. rewrite !bind_gets, Hrun. by rewrite picture_lines_eq.
  - intros c Hb. rewrite (grows_in_bounds _ _ _ Hg) in Hb. apply in_bounds_spec in Hb.
    rewrite Forall_forall in Hown.
    destruct (Hown (getY c)) with (x := getX c) as [cell Ho];
      [apply elem_of_seqZ; lia|lia|].
    exists cell. by destruct c.
Qed.

Lemma get_append_l (s1 s2 : string) n :
  (n < String.length s1)%nat -> String.get n (s1 +:+ s2) = String.get n s1.
Proof.
  revert n. induction s1 as [|a s1 IH]; intros n Hn; simpl in Hn; [lia|].
  rewrite append_cons. destruct n as [|n]; [done|]. simpl. apply IH. lia.
Qed.

Lemma get_append_r (s1 s2 : string) n :
  String.get (String.length s1 + n) (s1 +:+ s2) = String.get n s2.
Proof.
  induction s1 as [|a s1 IH]; [done|]. rewrite append_cons. simpl. apply IH.
Qed.

Lemma get_string_of_list_ascii l n : String.get n (string_of_list_ascii l) = l !! n.
Proof.
  revert n. induction l as [|a l IH]; intros n; [done|].
  destruct n as [|n]; [done|]. simpl. apply IH.
Qed.

Lemma length_string_of_list_ascii l : String.length (string_of_list_ascii l) = length l.
Proof. induction l as [|a l IH]; [done|]. simpl. by rewrite IH. Qed.

(** In rows of one length joined by line breaks, the character [j] of the
    row [i] is at the index [i * (len + 1) + j]. *)
Lemma get_concat_rows (len : nat) (rows : list string) : forall i j row,
  Forall (fun r => String.length r = len) rows ->
  rows !! i = Some row -> (j < len)%nat ->
  String.get (i * (len + 1) + j) (String.concat newline rows) = String.get j row.
Proof.
  induction rows as [|r rows IH]; intros i j row Hall Hi Hj; [done|].
  apply Forall_cons in Hall as [Hr Hall].
  destruct rows as [|r' rows'].
  - destruct i as [|i]; [|done]. injection Hi as ->. done.
  - change (String.concat newline (r :: r' :: rows'))
      with (r +:+ newline +:+ String.concat newline (r' :: rows')).
    destruct i as [|i].
    + injection Hi as ->. simpl. apply get_append_l. lia.
    + rewrite <- append_assoc.
      replace (S i * (len + 1) + j)%nat
        with (String.length (r +:+ newline) + (i * (len + 1) + j))%nat
        by (rewrite length_append, Hr; simpl; lia).
      rewrite get_append_r. by apply IH.
Qed.

Lemma length_concat_rows (len : nat) (rows : list string) :
  Forall (fun r => String.length r = len) rows -> rows <> [] ->
  String.length (String.concat newline rows) = (length rows * (len + 1) - 1)%nat.
Proof.
  induction rows as [|r rows IH]; intros Hall Hne; [done|].
  apply Forall_cons in Hall as [Hr Hall].
  destruct rows as [|r' rows'].
  - simpl. lia.
  - change (String.concat newline (r :: r' :: rows'))
      with (r +:+ newline +:+ String.concat newline (r' :: rows')).
    rewrite !length_append, IH, Hr by done. simpl. lia.
Qed.

Lemma length_picture_row w y : String.length (picture_row w y) = Z.to_nat (maxX w + 1).
Proof.
  unfold picture_row. by rewrite length_string_of_list_ascii, length_map, length_seqZ.
Qed.

Lemma picture_get w c :
  in_bounds w c = true ->
  String.get (Z.to_nat (getY c * (maxX w + 2) + getX c)) (picture w)
    = Some (mark w (getY c) (getX c)).
Proof.
  intros Hb%in_bounds_spec. unfold picture.
  replace (Z.to_nat (getY c * (maxX w + 2) + getX c))
    with (Z.to_nat (getY c) * (Z.to_nat (maxX w + 1) + 1) + Z.to_nat (getX c))%nat by nia.
  rewrite (get_concat_rows _ _ _ _ (picture_row w (getY c))).
  - unfold picture_row. rewrite get_string_of_list_ascii, list_lookup_fmap.
    rewrite lookup_seqZ_lt by lia. simpl. f_equal. f_equal. lia.
  - apply Forall_forall. intros r (y & -> & _)%list_elem_of_fmap. apply length_picture_row.
  - rewrite list_lookup_fmap, lookup_seqZ_lt by lia. simpl. f_equal. f_equal. lia.
  - lia.
Qed.

Lemma length_picture w :
  0 <= maxX w -> 0 <= maxY w ->
  String.length (picture w) = Z.to_nat ((maxX w + 2) * (maxY w + 1) - 1).
Proof.
  intros Hx Hy. unfold picture.
  rewrite (length_concat_rows (Z.to_nat (maxX w + 1))).
  - rewrite length_map, length_seqZ. nia.
  - apply Forall_forall. intros r (y & -> & _)%list_elem_of_fmap. apply length_picture_row.
  - rewrite seqZ_cons by lia. done.
Qed.

(** X22. [Grid.prototype.toString] draws the grid row by row, [+] for a live
    cell and [-] for a dead one, with a line break between two rows and none
    at the end. It changes the state of no position, but it looks every
    position up with [getCell], so afterwards the map holds a cell for every
    position of the grid. *)
Theorem Grid_toString_draws (w : World) :
  wf w ->
  exists w',
    Grid_toString w = Ok (picture w) w' /\ wf w' /\
    (forall c, snapshot w' c = snapshot w c) /\
    dense w' /\ length (grid w') = area w /\
    (maxY w < 0 -> picture w = EmptyString).
Proof.
  intros Hwf. destruct (Grid_toString_spec w Hwf) as (w' & Hrun & Hg & Hwf' & Hd).
  exists w'. split; [done|]. split; [done|].
  split; [intros c; by apply grows_snapshot|]. split; [done|]. split.
  - rewrite (dense_length w' Hwf' Hd). unfold area.
    by rewrite (gr_maxX _ _ Hg), (gr_maxY _ _ Hg).
  - intros Hneg. unfold picture. by rewrite seqZ_nil by lia.
Qed.

(** X23. In the string [Grid.prototype.toString] returns, the character at
    the index [y * (maxX + 2) + x] tells whether the cell in column [x] of
    row [y] is alive, and the string has [(maxX + 2) * (maxY + 1) - 1]
    characters. *)
Theorem Grid_toString_index (w : World) (c : Coordinates) :
  wf w -> in_bounds w c = true ->
  exists str w',
    Grid_toString w = Ok str w' /\
    String.length str = Z.to_nat ((maxX w + 2) * (maxY w + 1) - 1) /\
    String.get (Z.to_nat (getY c * (maxX w + 2) + getX c)) str
      = Some (if aliveAt w c then "+"%char else "-"%char).
Proof.
  intros Hwf Hb. destruct (Grid_toString_spec w Hwf) as (w' & Hrun & _).
  exists (picture w), w'. split; [done|]. split.
  - apply in_bounds_spec in Hb. apply length_picture; lia.
  - rewrite (picture_get w c Hb). unfold mark. by destruct c.
Qed.

Lemma Grid_toString_draws_witness :
  wf blinker_world /\
  exists w', Grid_toString blinker_world = Ok (picture blinker_world) w' /\
             length (grid w') = 25%nat.
Proof.
  split; [exact blinker_world_wf|].
  destruct (Grid_toString_draws blinker_world blinker_world_wf)
    as (w' & Hrun & _ & _ & _ & Hlen & _).
  exists w'. split; [exact Hrun|exact Hlen].
Defined.

Lemma Grid_toString_index_witness :
  wf blinker_world /\ in_bounds blinker_world (mkCoordinates 3 2) = true /\
  exists str w',
    Grid_toString blinker_world = Ok str w' /\
    String.length str = 29%nat /\ String.get 15 str = Some "+"%char.
Proof.
  split; [exact blinker_world_wf|]. split; [reflexivity|].
  destruct (Grid_toString_index blinker_world (mkCoordinates 3 2)
              blinker_world_wf eq_refl) as (str & w' & Hrun & Hlen & Hget).
  exists str, w'. split; [exact Hrun|]. split; [exact Hlen|exact Hget].
Defined.

Example Grid_toString_blinker_world :
  exists w', Grid_toString blinker_world
             = Ok ("-----" +:+ newline +:+ "-----" +:+ newline +:+ "-+++-"
                   +:+ newline +:+ "-----" +:+ newline +:+ "-----")%string w'.
Proof. eexists. vm_compute. reflexivity. Qed.

(** ** The server *)

Lemma String_split_cons sep s : exists h t, String_split sep s = h :: t.
Proof.
  induction s as [|a s (h & t & IH)]; simpl; [by eexists _, _|].
  destruct (Ascii.eqb a sep); [by eexists _, _|]. rewrite IH. by eexists _, _.
Qed.

(** Joining what [split] returns gives the string back. *)
Lemma String_split_join sep s :
  String.concat (String sep EmptyString) (String_split sep s) = s.
Proof.
  induction s as [|a s IH]; [done|]. cbn [String_split].
  destruct (Ascii.eqb a sep) eqn:Ha.
  - apply Ascii.eqb_eq in Ha as ->.
    destruct (String_split_cons sep s) as (h & t & Hs). rewrite Hs in IH |- *.
    change (String.concat (String sep EmptyString) (EmptyString :: h :: t))
      with (String sep (String.concat (String sep EmptyString) (h :: t))).
    by rewrite IH.
  - destruct (String_split_cons sep s) as (h & t & Hs). rewrite Hs in IH |- *.
    rewrite <- IH. by destruct t.
Qed.

Lemma String_split_single sep s s' : String_split sep s = [s'] -> s = s'.
Proof. intros Hs. by rewrite <- (String_split_join sep s), Hs. Qed.

Lemma trim_start_plain a s :
  is_white_space a = false -> trim_start (String a s) = String a s.
Proof. intros Ha. simpl. by rewrite Ha. Qed.

Lemma parseInt_any_N (x : N) (negative : bool) :
  (let '(n, seen) :=
     match strip_prefix (pretty x) with
     | Some s' => parse_hex s' 0%N false
     | None => parse_digits (pretty x) 0%N false
     end in
   if seen then Integer (if negative then - Z.of_N n else Z.of_N n) else NaN)
  = Integer (if negative then - Z.of_N x else Z.of_N x).
Proof.
  assert (strip_prefix (pretty x) = None) as ->.
  { pose proof (lacks_pretty_N "x" x eq_refl) as H1.
    pose proof (lacks_pretty_N "X" x eq_refl) as H2.
    destruct (pretty x) as [|a [|b s]]; [done..|]. cbn [lacks strip_prefix] in *.
    apply andb_true_iff in H1 as [_ [H1 _]%andb_true_iff].
    apply andb_true_iff in H2 as [_ [H2 _]%andb_true_iff].
    apply negb_true_iff in H1, H2. by rewrite H1, H2, andb_false_r. }
  by rewrite parse_digits_pretty_N.
Qed.

Lemma trim_strip_N (x : N) : strip_sign (trim_start (pretty x)) = (false, pretty x).
Proof.
  pose proof (lacks_pretty_N "+" x eq_refl) as H2.
  pose proof (lacks_pretty_N " " x eq_refl) as H1.
  pose proof (lacks_pretty_N "009" x eq_refl) as H5.
  pose proof (lacks_pretty_N "010" x eq_refl) as H6.
  pose proof (lacks_pretty_N "011" x eq_refl) as H7.
  pose proof (lacks_pretty_N "012" x eq_refl) as H8.
  pose proof (lacks_pretty_N "013" x eq_refl) as H9.
  pose proof (lacks_pretty_N "160" x eq_refl) as H10.
  destruct (pretty_N_first x) as (a & s & Hs & Ha).
  rewrite Hs in *. cbn [lacks] in *.
  apply andb_true_iff in H1 as [H1 _], H2 as [H2 _],
    H5 as [H5 _], H6 as [H6 _], H7 as [H7 _], H8 as [H8 _], H9 as [H9 _], H10 as [H10 _].
  apply negb_true_iff in H2.
  apply negb_true_iff, Ascii.eqb_neq in H1, H5, H6, H7, H8, H9, H10.
  assert (is_white_space a = false) as Hw.
  { destruct a as [[] [] [] [] [] [] [] []]; try done. }
  cbn [trim_start]. rewrite Hw. cbn [strip_sign]. rewrite H2.
  apply Ascii.eqb_neq in Ha. by rewrite Ha.
Qed.

(** The numerals [toString] writes are read back by [parseInt]. *)
Lemma parseInt_any_toString z : parseInt_any (Number_toString z) = Integer z.
Proof.
  unfold Number_toString, pretty, pretty_Z. destruct z as [|p|p]; [done|..].
  - change (pretty p) with (pretty (Npos p)).
    unfold parseInt_any. rewrite trim_strip_N. apply (parseInt_any_N (Npos p) false).
  - change (pretty p) with (pretty (Npos p)).
    unfold parseInt_any.
    change (strip_sign (trim_start ("-" +:+ pretty (N.pos p))))
      with (true, pretty (N.pos p)).
    apply (parseInt_any_N (Npos p) true).
Qed.

Lemma valid_index_inv n max :
  valid_index n max = true -> exists z, n = Some (Integer z) /\ 0 <= z <= max.
Proof.
  destruct n as [[z| | |]|]; try done. simpl.
  rewrite andb_true_iff, !Z.leb_le. intros [? ?]. exists z. split; [done|lia].
Qed.

Lemma command_Set_invalid x y color w :
  valid_index x (maxX w) && valid_index y (maxY w) = false ->
  command_Set x y color w = Ok tt w.
Proof. intros Hv. unfold command_Set. rewrite !bind_gets. cbv zeta. by rewrite Hv. Qed.

Lemma command_Set_valid x y color w :
  valid_index x (maxX w) && valid_index y (maxY w) = true ->
  exists c, x = Some (Integer (getX c)) /\ y = Some (Integer (getY c)) /\
            in_bounds w c = true /\
            command_Set x y color w =
            (cell <- getCell c ;;
             z <- deref cell ;;
             if negb (isAlive z) then
               fresh <- alloc (Cell_new c) ;;
               setColor color fresh ;;;
               setAlive fresh ;;;
               setCell fresh ;;;
               ret tt
             else ret tt) w.
Proof.
  intros [Hx Hy]%andb_true_iff.
  destruct (valid_index_inv _ _ Hx) as (zx & -> & Hzx).
  destruct (valid_index_inv _ _ Hy) as (zy & -> & Hzy).
  exists (mkCoordinates zx zy). split; [done|]. split; [done|].
  split; [apply in_bounds_spec; simpl; lia|].
  unfold command_Set. rewrite !bind_gets. cbv zeta.
  assert (valid_index (Some (Integer zx)) (maxX w) &&
          valid_index (Some (Integer zy)) (maxY w) = true) as ->
    by (rewrite Hx, Hy; done).
  reflexivity.
Qed.

Lemma set_alive_wf w c color :
  wf w -> in_bounds w c = true -> valid_color color = true -> wf (set_alive w c color).
Proof.
  intros Hwf Hb Hv. split; simpl.
  - apply Map_set_NoDup, Hwf.
  - intros k cell Hin. apply Map_set_elem in Hin as [[-> ->]|Hin].
    + exists (mkCell c true (Some color)).
      by rewrite lookup_app_r, Nat.sub_diag by done.
    + destruct (wf_entry w Hwf k cell Hin) as (x & Hx & Hk & Hbx).
      exists x. by rewrite (lookup_app_l_Some _ _ _ _ Hx).
  - intros cell x Hx Hal.
    destruct (decide (cell < length (heap w))%nat) as [Hlt|Hge].
    + rewrite lookup_app_l in Hx by done. by apply (wf_alive w Hwf cell).
    + rewrite lookup_app_r in Hx by lia.
      destruct (cell - length (heap w))%nat; [|done].
      injection Hx as <-. by exists color.
Qed.

Lemma set_alive_snapshot w c color :
  snapshot (set_alive w c color) c = (true, Some color).
Proof.
  unfold snapshot, aliveAt, colorAt, cellAt, set_alive. cbn [grid heap].
  rewrite Map_get_set_eq, lookup_app_r, Nat.sub_diag by done. done.
Qed.

Lemma set_alive_snapshot_ne w c color n :
  wf w -> n <> c -> snapshot (set_alive w c color) n = snapshot w n.
Proof.
  intros Hwf Hne. unfold snapshot, aliveAt, colorAt, cellAt, set_alive. simpl.
  rewrite Map_get_set_ne by (intros Heq; by apply (inj toString) in Heq).
  destruct (Map_get (toString n) (grid w)) as [cell|] eqn:Hm; [|done].
  destruct (owns_lookup w n cell Hwf Hm) as (x & Hx & _).
  by rewrite (lookup_app_l_Some _ _ _ _ Hx), Hx.
Qed.

Lemma command_Set_dead w c color :
  wf w -> valid_color color = true -> in_bounds w c = true -> aliveAt w c = false ->
  exists w1,
    grows w w1 /\ wf w1 /\
    command_Set (Some (Integer (getX c))) (Some (Integer (getY c))) color w
      = Ok tt (set_alive w1 c color).
Proof.
  intros Hwf Hv Hb Hd.
  destruct (getCell_spec w c Hwf Hb) as (cell & w1 & Hget & Hg & Hwf1 & Ho).
  destruct (owns_lookup w1 c cell Hwf1 Ho) as (z & Hz & _).
  assert (isAlive z = false) as Hz'.
  { rewrite <- (owns_aliveAt _ _ _ _ Ho Hz). by rewrite (grows_aliveAt _ _ _ Hg). }
  exists w1. split; [done|]. split; [done|].
  destruct (command_Set_valid (Some (Integer (getX c))) (Some (Integer (getY c))) color w)
    as (c' & [= Hx] & [= Hy] & _ & ->).
  { apply in_bounds_spec in Hb. simpl.
    rewrite !(proj2 (Z.leb_le _ _)) by lia. done. }
  assert (c' = c) as -> by (destruct c, c'; simpl in *; congruence).
  rewrite (bind_ok _ _ _ _ _ Hget), (bind_ok _ _ _ _ _ (deref_ok _ _ _ Hz)), Hz'.
  cbn [negb]. unfold alloc at 1. unfold bind at 1.
  set (w2 := mkWorld (maxX w1) (maxY w1) (heap w1 ++ [Cell_new c]) (grid w1) (random w1)).
  assert (heap w2 !! length (heap w1) = Some (Cell_new c)) as H2
    by (simpl; by rewrite lookup_app_r, Nat.sub_diag by done).
  unfold setColor. erewrite bind_ok;
    [|apply (method_ok _ w2 _ _ (mkCell c false (Some color)) H2);
      unfold Cell_setColor; by rewrite Hv].
  unfold setAlive. erewrite bind_ok;
    [|apply (method_ok _ _ (length (heap w1)) (mkCell c false (Some color))
               (mkCell c true (Some color))); [|done];
      simpl; rewrite list_lookup_insert_eq; [done|rewrite length_app; simpl; lia]].
  erewrite bind_ok;
    [|apply (setCell_ok _ _ (mkCell c true (Some color)));
      [simpl; rewrite list_lookup_insert_eq;
        [done|rewrite length_insert, length_app; simpl; lia]
      |rewrite <- (grows_in_bounds _ _ _ Hg) in Hb; exact Hb]].
  unfold ret. f_equal. unfold replaced, update, set_alive. simpl. f_equal.
  rewrite list_insert_insert_eq.
  rewrite insert_app_r_alt, Nat.sub_diag by done. done.
Qed.

Lemma command_Set_alive w c color :
  wf w -> in_bounds w c = true -> aliveAt w c = true ->
  command_Set (Some (Integer (getX c))) (Some (Integer (getY c))) color w = Ok tt w.
Proof.
  intros Hwf Hb Hal.
  destruct (dense_alive w c Hwf Hal) as [cell Ho].
  destruct (owns_lookup w c cell Hwf Ho) as (z & Hz & _).
  destruct (command_Set_valid (Some (Integer (getX c))) (Some (Integer (getY c))) color w)
    as (c' & [= Hx] & [= Hy] & _ & ->).
  { apply in_bounds_spec in Hb. simpl.
    rewrite !(proj2 (Z.leb_le _ _)) by lia. done. }
  assert (c' = c) as -> by (destruct c, c'; simpl in *; congruence).
  rewrite (bind_ok _ _ _ _ _ (getCell_owned w c cell Hb Ho)),
    (bind_ok _ _ _ _ _ (deref_ok _ _ _ Hz)).
  by rewrite <- (owns_aliveAt _ _ _ _ Ho Hz), Hal.
Qed.

Lemma pattern_spares p color w :
  wf w -> valid_color color = true ->
  exists w',
    tryGeneratePattern p color w = Ok tt w' /\ wf w' /\
    maxX w' = maxX w /\ maxY w' = maxY w /\
    (forall c, aliveAt w c = true -> snapshot w' c = snapshot w c) /\
    (forall c, snapshot w' c <> snapshot w c ->
       aliveAt w c = false /\ in_bounds w c = true /\
       snapshot w' c = (true, Some color)).
Proof.
  intros Hwf Hv.
  destruct (pattern_outcome p color w Hwf) as [[_ Hrun]|[_ Hrun]].
  - rewrite Hv in Hrun.
    destruct Hrun as (w' & c & v & Hrun & Hwf' & Hx & Hy & Hd & Hc & Hin & Hfit & Hplaced).
    pose proof (center_safe_pattern p w c (proj1 Hc) (proj1 (proj2 Hc)) v Hin) as Hbounds.
    exists w'. do 4 (split; [done|]). split.
    + intros n Hal. rewrite (Hplaced n), decide_False; [done|].
      intros (o & -> & Ho)%list_elem_of_fmap.
      unfold fits in Hfit. rewrite Forall_forall in Hfit. rewrite (Hfit o Ho) in Hal. done.
    + intros n Hne. rewrite (Hplaced n) in Hne |- *.
      destruct (decide (n ∈ map (offset_by c) v)) as [Hn|Hn]; [|done].
      apply list_elem_of_fmap in Hn as (o & -> & Ho).
      unfold fits in Hfit. rewrite Forall_forall in Hfit, Hbounds.
      by rewrite (Hfit o Ho), (Hbounds o Ho).
  - destruct Hrun as (w' & Hrun & Hwf' & Hg & Hd).
    exists w'. split; [done|]. split; [done|].
    split; [apply Hg|]. split; [apply Hg|]. split.
    + intros c _. by apply grows_snapshot.
    + intros c Hne. destruct Hne. by apply grows_snapshot.
Qed.

Lemma command_Set_spares x y color w :
  wf w -> valid_color color = true ->
  exists w',
    command_Set x y color w = Ok tt w' /\ wf w' /\
    maxX w' = maxX w /\ maxY w' = maxY w /\
    (forall c, aliveAt w c = true -> snapshot w' c = snapshot w c) /\
    (forall c, snapshot w' c <> snapshot w c ->
       aliveAt w c = false /\ in_bounds w c = true /\
       snapshot w' c = (true, Some color)).
Proof.
  intros Hwf Hv.
  assert (exists w', w' = w /\ wf w' /\ maxX w' = maxX w /\ maxY w' = maxY w /\
            (forall c, aliveAt w c = true -> snapshot w' c = snapshot w c) /\
            (forall c, snapshot w' c <> snapshot w c ->
               aliveAt w c = false /\ in_bounds w c = true /\
               snapshot w' c = (true, Some color))) as (w0 & -> & Hsame).
  { exists w. do 5 (split; [done|]). by intros c []. }
  destruct (valid_index x (maxX w) && valid_index y (maxY w)) eqn:Hvalid.
  - destruct (command_Set_valid x y color w Hvalid) as (c & -> & -> & Hb & _).
    destruct (aliveAt w c) eqn:Hal.
    + exists w. split; [by apply command_Set_alive|done].
    + destruct (command_Set_dead w c color Hwf Hv Hb Hal) as (w1 & Hg & Hwf1 & Hrun).
      exists (set_alive w1 c color). split; [done|].
      split; [apply set_alive_wf; [done| |done]; by rewrite (grows_in_bounds _ _ _ Hg)|].
      split; [apply Hg|]. split; [apply Hg|].
      assert (forall n, n <> c -> snapshot (set_alive w1 c color) n = snapshot w n) as Hne.
      { intros n Hn. by rewrite set_alive_snapshot_ne, (grows_snapshot _ _ _ Hg). }
      split.
      * intros n Hn. apply Hne. intros ->. congruence.
      * intros n Hn. destruct (decide (n = c)) as [->|Hnc]; [|by destruct Hn; apply Hne].
        split; [done|]. split; [done|]. apply set_alive_snapshot.
  - exists w. split; [by apply command_Set_invalid|done].
Qed.

Lemma on_message_unfold color msg :
  exists name rest,
    String_split pipe msg = name :: rest /\
    on_message color msg =
    if String.eqb name "Set" then
      argument <- lift (rest !! 0%nat) ;;
      let numbers := map parseInt_any (String_split comma argument) in
      command_Set (numbers !! 0%nat) (numbers !! 1%nat) color
    else if String.eqb name "Block" then tryGenerateBlock color
    else if String.eqb name "Blinker" then tryGenerateBlinker color
    else if String.eqb name "Glider" then tryGenerateGlider color
    else ret tt.
Proof.
  destruct (String_split_cons pipe msg) as (name & rest & Hs).
  exists name, rest. split; [done|]. unfold on_message. by rewrite Hs.
Qed.

(** X24. Whatever a player sends, other than the bare word [Set], the
    handler returns, and no live cell is touched: a position that changes
    was dead and becomes alive with the color of that player. So no player
    can erase or recolor a cell that is alive. *)
Theorem on_message_spares_live_cells (color : Color) (msg : string) (w : World) :
  wf w -> valid_color color = true -> msg <> "Set"%string ->
  exists w',
    on_message color msg w = Ok tt w' /\ wf w' /\
    maxX w' = maxX w /\ maxY w' = maxY w /\
    (forall c, aliveAt w c = true -> snapshot w' c = snapshot w c) /\
    (forall c, snapshot w' c <> snapshot w c ->
       aliveAt w c = false /\ in_bounds w c = true /\
       snapshot w' c = (true, Some color)).
Proof.
  intros Hwf Hv Hmsg.
  destruct (on_message_unfold color msg) as (name & rest & Hs & ->).
  destruct (String.eqb name "Set") eqn:Hset.
  { apply String.eqb_eq in Hset as ->. destruct rest as [|argument rest].
    - by apply String_split_single in Hs.
    - cbn [lookup list_lookup lift]. unfold bind at 1. by apply command_Set_spares. }
  destruct (String.eqb name "Block") eqn:Hblock; [by apply (pattern_spares Block)|].
  destruct (String.eqb name "Blinker") eqn:Hblinker; [by apply (pattern_spares Blinker)|].
  destruct (String.eqb name "Glider") eqn:Hglider; [by apply (pattern_spares Glider)|].
  exists w. do 5 (split; [done|]). by intros c [].
Qed.

Lemma on_message_returns (color : Color) (msg : string) (w : World) :
  wf w -> valid_color color = true -> msg <> "Set"%string ->
  exists w', on_message color msg w = Ok tt w'.
Proof.
  intros Hwf Hv Hmsg.
  destruct (on_message_unfold color msg) as (name & rest & Hs & ->).
  destruct (String.eqb name "Set") eqn:Hset.
  { apply String.eqb_eq in Hset as ->. destruct rest as [|argument rest].
    - by apply String_split_single in Hs.
    - cbn [lookup list_lookup lift]. unfold bind at 1.
      destruct (command_Set_spares
                  (map parseInt_any (String_split comma argument) !! 0%nat)
                  (map parseInt_any (String_split comma argument) !! 1%nat)
                  color w Hwf Hv) as (w' & Hrun & _).
      by exists w'. }
  destruct (String.eqb name "Block") eqn:Hblock.
  { destruct (pattern_spares Block color w Hwf Hv) as (w' & Hrun & _). by exists w'. }
  destruct (String.eqb name "Blinker") eqn:Hblinker.
  { destruct (pattern_spares Blinker color w Hwf Hv) as (w' & Hrun & _). by exists w'. }
  destruct (String.eqb name "Glider") eqn:Hglider.
  { destruct (pattern_spares Glider color w Hwf Hv) as (w' & Hrun & _). by exists w'. }
  by exists w.
Qed.

(** X25. The handler throws for exactly one message: the word [Set] with
    nothing after it, for which [command[1]] is [undefined]. *)
Theorem on_message_throws_iff (color : Color) (msg : string) (w : World) :
  wf w -> valid_color color = true ->
  (on_message color msg w = Throw <-> msg = "Set"%string).
Proof.
  intros Hwf Hv. split.
  - intros Hthrow. destruct (decide (msg = "Set"%string)) as [|Hne]; [done|].
    destruct (on_message_returns color msg w Hwf Hv Hne) as (w' & Hrun).
    congruence.
  - by intros ->.
Qed.

Lemma client_Set_parsed color x y w :
  on_message color (client_Set x y) w
    = command_Set (Some (Integer x)) (Some (Integer y)) color w.
Proof.
  unfold on_message, client_Set.
  change ("Set|" +:+ Number_toString x +:+ "," +:+ Number_toString y)%string
    with ("Set" +:+ String pipe (toString (mkCoordinates x y)))%string.
  rewrite String_split_app by done.
  rewrite String_split_lacks.
  2:{ unfold toString. rewrite lacks_app, lacks_toString by done.
      change ("," +:+ Number_toString (getY (mkCoordinates x y)))%string
        with (String comma (Number_toString y)).
      cbn [lacks andb]. by rewrite lacks_toString. }
  cbn [lookup list_lookup default from_option id]. cbv zeta.
  change (String.eqb "Set" "Set") with true. cbv iota.
  unfold bind at 1. cbn [lift].
  rewrite split_comma_toString. cbn [map lookup list_lookup getX getY].
  by rewrite !parseInt_any_toString.
Qed.

(** X26. The message the page sends for a click on a dead cell of the grid
    makes that cell alive with the color of the player and changes no
    other position. The cell is a new object: the handler does not revive
    the object the map held, it stores another one in its place. *)
Theorem client_Set_revives (color : Color) (x y : Z) (w : World) :
  wf w -> valid_color color = true ->
  in_bounds w (mkCoordinates x y) = true -> aliveAt w (mkCoordinates x y) = false ->
  exists w' fresh,
    on_message color (client_Set x y) w = Ok tt w' /\ wf w' /\
    snapshot w' (mkCoordinates x y) = (true, Some color) /\
    (forall n, n <> mkCoordinates x y -> snapshot w' n = snapshot w n) /\
    getCell (mkCoordinates x y) w' = Ok fresh w' /\
    heap w !! fresh = None.
Proof.
  intros Hwf Hv Hb Hd. rewrite client_Set_parsed.
  destruct (command_Set_dead w (mkCoordinates x y) color Hwf Hv Hb Hd)
    as (w1 & Hg & Hwf1 & Hrun).
  assert (in_bounds w1 (mkCoordinates x y) = true) as Hb1
    by by rewrite (grows_in_bounds _ _ _ Hg).
  exists (set_alive w1 (mkCoordinates x y) color), (length (heap w1)).
  split; [done|]. split; [by apply set_alive_wf|].
  split; [apply set_alive_snapshot|]. split; [|split].
  - intros n Hn. by rewrite set_alive_snapshot_ne, (grows_snapshot _ _ _ Hg).
  - apply getCell_owned; [done|]. apply Map_get_set_eq.
  - apply lookup_ge_None. destruct (gr_heap _ _ Hg) as (new & -> & _).
    rewrite length_app. lia.
Qed.

(** X27. The message for a click on a cell that is alive, or for
    coordinates outside the grid, is ignored: the handler returns and the
    grid, its map and its cells are exactly as they were. *)
Theorem client_Set_ignored (color : Color) (x y : Z) (w : World) :
  wf w ->
  in_bounds w (mkCoordinates x y) = false \/ aliveAt w (mkCoordinates x y) = true ->
  on_message color (client_Set x y) w = Ok tt w.
Proof.
  intros Hwf Hcase. rewrite client_Set_parsed.
  destruct (in_bounds w (mkCoordinates x y)) eqn:Hb.
  - destruct Hcase as [|Hal]; [done|]. by apply (command_Set_alive w (mkCoordinates x y)).
  - apply command_Set_invalid. unfold in_bounds in Hb. simpl in *.
    by rewrite <- andb_assoc in Hb.
Qed.

Lemma on_message_spares_live_cells_witness :
  wf blinker_world /\ valid_color blue = true /\ "Glider"%string <> "Set"%string /\
  exists w', on_message blue "Glider" blinker_world = Ok tt w' /\
             snapshot w' (mkCoordinates 2 2) = (true, Some blue) /\
             snapshot w' (mkCoordinates 3 2) = (true, Some red).
Proof.
  split; [exact blinker_world_wf|]. split; [reflexivity|]. split; [discriminate|].
  destruct (on_message_spares_live_cells blue "Glider" blinker_world blinker_world_wf
              eq_refl ltac:(discriminate)) as (w' & Hrun & _ & _ & _ & Hlive & _).
  exists w'. split; [exact Hrun|]. split; apply Hlive; reflexivity.
Defined.

Lemma on_message_throws_iff_witness :
  wf empty_world /\ valid_color red = true /\
  on_message red "Set" empty_world = Throw /\
  on_message red "Set|" empty_world <> Throw.
Proof.
  split; [exact empty_world_wf|]. split; [reflexivity|]. split.
  - by apply (on_message_throws_iff red "Set" empty_world empty_world_wf eq_refl).
  - intros Hthrow.
    by apply (on_message_throws_iff red "Set|" empty_world empty_world_wf eq_refl) in Hthrow.
Defined.

Lemma client_Set_revives_witness :
  wf blinker_world /\ valid_color blue = true /\
  in_bounds blinker_world (mkCoordinates 0 4) = true /\
  aliveAt blinker_world (mkCoordinates 0 4) = false /\
  exists w', on_message blue "Set|0,4" blinker_world = Ok tt w' /\
             snapshot w' (mkCoordinates 0 4) = (true, Some blue) /\
             snapshot w' (mkCoordinates 1 2) = (true, Some red).
Proof.
  split; [exact blinker_world_wf|]. split; [reflexivity|]. split; [reflexivity|].
  split; [reflexivity|].
  destruct (client_Set_revives blue 0 4 blinker_world blinker_world_wf eq_refl eq_refl eq_refl)
    as (w' & fresh & Hrun & _ & Hset & Hother & _).
  exists w'. split; [exact Hrun|]. split; [exact Hset|].
  rewrite Hother; [reflexivity|discriminate].
Defined.

Lemma client_Set_ignored_witness :
  wf blinker_world /\
  aliveAt blinker_world (mkCoordinates 2 2) = true /\
  on_message red "Set|2,2" blinker_world = Ok tt blinker_world /\
  on_message red "Set|-1,0" blinker_world = Ok tt blinker_world.
Proof.
  split; [exact blinker_world_wf|]. split; [reflexivity|]. split.
  - exact (client_Set_ignored red 2 2 blinker_world blinker_world_wf (or_intror eq_refl)).
  - exact (client_Set_ignored red (-1) 0 blinker_world blinker_world_wf (or_introl eq_refl)).
Defined.

(** ** The heartbeat *)

Section Heartbeat.
Context {CS : ColorSpace}.

(** X29. Every second a client is sent the next generation: the message
    splits at its pipes into the color of the player, the timestamp and
    one segment for each position of the grid that the rule makes alive
    from the grid before the tick, with the color the rule gives it. *)
Theorem every_second_sends_next_generation (w0 : World) (ws_color : string)
    (hours minutes seconds : Z) :
  rgb_in_range CS -> wf w0 ->
  0 <= hours < 24 -> 0 <= minutes < 60 -> 0 <= seconds < 60 ->
  lacks pipe ws_color = true ->
  exists message segments w',
    every_second ws_color hours minutes seconds w0 = Ok message w' /\
    String_split pipe message
      = ws_color :: timestamp hours minutes seconds :: segments /\
    length segments = length (live_cells w') /\
    forall x y r g b,
      segment_of x y r g b ∈ segments <->
      in_bounds w0 (mkCoordinates x y) = true /\
      classical_tick w0 (mkCoordinates x y)
        = (true, Some [Integer r; Integer g; Integer b]).
Proof.
  intros Hrange Hwf0 Hh Hm Hs Hcolor.
  destruct (tick_run w0 Hrange Hwf0)
    as (visited & sw & w1 & w' & _ & _ & Htick & _ & Hwf' & Hmx & Hmy & _ & Hsnap & Hout).
  destruct (serialize_spec w' hours minutes seconds Hwf' Hh Hm Hs) as (segments & Hrun & Hall).
  exists (ws_color +:+ "|" +:+ wire (timestamp hours minutes seconds) segments), segments, w'.
  split; [|split; [|split]].
  - unfold every_second. by rewrite (bind_ok _ _ _ _ _ Htick), (bind_ok _ _ _ _ _ Hrun).
  - change (ws_color +:+ "|" +:+ wire (timestamp hours minutes seconds) segments)
      with (ws_color +:+ String pipe (wire (timestamp hours minutes seconds) segments)).
    rewrite String_split_app by done. f_equal.
    by eapply wire_split; [apply timestamp_lacks_pipe|].
  - symmetry. by eapply Forall2_length.
  - intros x y r g b. split.
    + intros Hin.
      destruct (segment_live w' segments x y r g b Hwf' Hall Hin) as [Hal Hc].
      assert (in_bounds w0 (mkCoordinates x y) = true) as Hb.
      { destruct (in_bounds w0 (mkCoordinates x y)) eqn:Hb; [done|].
        pose proof (Hout _ Hb) as Hs'. unfold snapshot in Hs'. congruence. }
      split; [done|]. rewrite <- (Hsnap _ Hb). unfold snapshot. by rewrite Hal, Hc.
    + intros [Hb Hrule]. rewrite <- (Hsnap _ Hb) in Hrule.
      unfold snapshot in Hrule. injection Hrule as Hal Hc.
      destruct (live_segment w' segments _ Hwf' Hall Hal) as (r' & g' & b' & Hc' & Hin).
      rewrite Hc in Hc'. by injection Hc' as <- <- <-.
Qed.

End Heartbeat.

Lemma every_second_sends_next_generation_witness :
  rgb_in_range exact_space /\ wf blinker_world /\
  0 <= 9 < 24 /\ 0 <= 5 < 60 /\ 0 <= 30 < 60 /\
  lacks pipe "[0,0,255]" = true /\
  exists message segments w',
    every_second (CS := exact_space) "[0,0,255]" 9 5 30 blinker_world = Ok message w' /\
    String_split pipe message = "[0,0,255]"%string :: "090530"%string :: segments /\
    segment_of 2 1 170 0 85 ∈ segments.
Proof.
  split; [exact exact_space_in_range|]. split; [exact blinker_world_wf|].
  do 3 (split; [lia|]). split; [reflexivity|].
  destruct (every_second_sends_next_generation (CS := exact_space) blinker_world
              "[0,0,255]" 9 5 30 exact_space_in_range blinker_world_wf
              ltac:(lia) ltac:(lia) ltac:(lia) eq_refl)
    as (message & segments & w' & Hrun & Hsplit & _ & Hsegs).
  exists message, segments, w'. split; [exact Hrun|]. split; [exact Hsplit|].
  apply Hsegs. split; vm_compute; reflexivity.
Defined.

Example every_second_blinker_world :
  exists w', every_second (CS := exact_space) "[0,0,255]" 9 5 30 blinker_world
             = Ok "[0,0,255]|090530|2,2,0,0,255|2,1,170,0,85|2,3,170,0,85"%string w'.
Proof. eexists. vm_compute. reflexivity. Qed.
